(** * OpenF1: the result resolution of [ResultsService.finishing_order]
      and the menu around it

    A shallow embedding of [src/f1.py] and [src/f1_comments.py]: the data
    frames the services exchange, the pandas operations that
    [finishing_order] and [list_by_session] call, and the two functions
    themselves, statement by statement.

    Data model.
    - A cell is a JSON scalar ([Num], [Str]) or missing.  A row is a finite
      map from column labels to scalars; a label that is not bound is the
      missing value (pandas' NaN / None), which is what [DataFrame(r.json())]
      makes of a JSON [null] and of an absent key alike.
    - A [DataFrame] is its column labels (in order) and its rows (in order).
      The row index plays no part in the functions modelled and is left out.
    - Python exceptions are values of [exn]; a computation that may raise
      returns a [result].
    - [finishing_order] and [list_by_session] take the frames that
      [OpenF1Client.fetch] returned; the HTTP call itself is not modelled.

    pandas, as its documentation states it.
    - [sort_values(by)] is called with its default [kind='quicksort'].  The
      result ascends by key with the missing keys last; among equal keys
      pandas promises no order (of the kinds it offers, only 'mergesort' and
      'stable' are stable).  The sorting routine is therefore a parameter,
      [Sorter]: any function that returns a sorted permutation, and what is
      proved for every sorter holds for the one that runs.  Two instances
      are given: the stable kind, and the default kind as NumPy's [argsort]
      runs it on a column of strings (an insertion sort up to 16 rows,
      median-of-three partitions above).  Keys of different kinds cannot be
      compared and raise [TypeError].
    - [groupby(by, as_index=False).last()] computes, for each column, the
      last entry of the group that is not missing; the groups come out in
      ascending key order, the key column first; rows without a key form no
      group.
    - [merge(on, how='left')] keeps the rows of the left frame in their
      order, pairs each with the rows of the right frame that have its key,
      and fills the right columns with missing values when there is none; it
      raises [KeyError] when a frame has no column [on], and [ValueError]
      when one key column holds numbers and the other holds none.
    - [df[labels]] raises [KeyError] on a label that is no column.

    Left out: column dtypes (one kind of number stands for pandas' integers
    and floats; where pandas looks at the dtype of a column, its cells are
    looked at), and frames with a repeated column label.

    The rest of the program.  The API client, the other services, the input
    helpers and the menu follow the two functions.
    - The console is explicit: the lines still to be typed and, in order,
      what the program puts out (prompts, printed lines and tables, plots,
      CSV files, log lines).  A step of the menu is a function from
      consoles to an outcome and a console ([io]); [input] at the end of
      the lines raises [EOFError], and an exception that nothing catches
      ends the run.
    - What [tabulate], [describe], matplotlib and [to_csv] make of a frame
      is not modelled: the output records the frame or the columns they
      were handed.
    - The answers of the API are a parameter, [request]: what the [try] of
      [OpenF1Client.fetch] computes for an endpoint and its parameters, a
      frame or the text of the exception.  It is a function: the same
      request gets the same answer.
    - [str.strip], [int] and [str.lower] are parameters as well; the
      theorems hold whatever they compute.  Their ASCII fragments are
      given to run the menu on concrete input.
    - The [while True] of [MenuApp.run] takes a number of turns; with more
      turns than lines to read the number does not matter. *)

From Stdlib Require Import ZArith String Ascii.
From stdpp Require Import base option list strings gmap sorting pretty.

Open Scope Z_scope.

(** ** Cells *)

Inductive scalar :=
| Num (z : Z)
| Str (s : string).

#[global] Instance scalar_eq_dec : EqDecision scalar.
Proof. solve_decision. Defined.

Abbreviation row := (gmap string scalar).

(** Python's [<=] on two scalars of one kind; across kinds the order is the
    one pandas' [safe_sort] falls back to (numbers before strings), used for
    group keys only: [sort_values] raises before it compares across kinds. *)
Definition scalar_leb (a b : scalar) : bool :=
  match a, b with
  | Num x, Num y => (x <=? y)%Z
  | Str s, Str t => String.leb s t
  | Num _, Str _ => true
  | Str _, Num _ => false
  end.

Definition scalar_le (a b : scalar) : Prop := scalar_leb a b = true.

#[global] Instance scalar_le_dec a b : Decision (scalar_le a b).
Proof. unfold scalar_le. apply _. Defined.

Definition is_num (a : scalar) : bool :=
  match a with Num _ => true | Str _ => false end.

(** The keys of one sort can be compared with one another: all numbers or
    all strings. *)
Definition comparable (ks : list scalar) : bool :=
  forallb is_num ks || forallb (λ a, negb (is_num a)) ks.

(** ** Exceptions *)

Inductive exn :=
| KeyError (label : string)
| TypeError
| ValueError.

Inductive result (A : Type) :=
| Ok (a : A)
| Raise (e : exn).
Arguments Ok {A} a.
Arguments Raise {A} e.

#[global] Instance result_ret : MRet result := λ A, Ok.
#[global] Instance result_bind : MBind result := λ A B f m,
  match m with Ok a => f a | Raise e => Raise e end.

(** ** Data frames *)

Record DataFrame := mkDF {
  columns : list string;
  rows : list row
}.

#[global] Instance DataFrame_eq_dec : EqDecision DataFrame.
Proof. solve_decision. Defined.

(** [df.empty]: one of the two axes has length 0. *)
Definition empty (df : DataFrame) : bool :=
  bool_decide (columns df = [] ∨ rows df = []).

(** [pd.DataFrame()], what [OpenF1Client.fetch] returns on any failure and
    for an empty JSON list. *)
Definition no_data : DataFrame := mkDF [] [].

(** The row whose cell at each label [c] of [cols] is [f c]. *)
Definition row_of (cols : list string) (f : string → option scalar) : row :=
  list_to_map (omap (λ c, pair c <$> f c) cols).

(** ** The sorting routine behind [sort_values] *)

(** [sort_values] hands the keys that are not missing to numpy's [argsort].
    A [Sorter] is any such routine: it returns the keyed rows in ascending
    key order, and says nothing more about rows of equal key. *)
Definition key_le (a b : scalar * row) : Prop := scalar_le a.1 b.1.

Record Sorter := mkSorter {
  argsort : list (scalar * row) → list (scalar * row);
  argsort_perm : ∀ l, argsort l ≡ₚ l;
  argsort_sorted : ∀ l, Sorted key_le (argsort l)
}.

(** A sorter is stable when rows of equal key keep their relative order. *)
Definition stable (S : Sorter) : Prop :=
  ∀ l k, filter (λ x, x.1 = k) (argsort S l) = filter (λ x, x.1 = k) l.

(** ** pandas operations *)

(** [df[df[c].notna()]] *)
Definition filter_notna (c : string) (df : DataFrame) : result DataFrame :=
  if decide (c ∈ columns df)
  then Ok (mkDF (columns df) (filter (λ r : row, is_Some (r !! c)) (rows df)))
  else Raise (KeyError c).

(** The rows of [rs] that have a key at [key], each with its key. *)
Definition keyed (key : string) (rs : list row) : list (scalar * row) :=
  omap (λ r : row, (λ k, (k, r)) <$> r !! key) rs.

(** [df.sort_values(by)]: the rows with a key in ascending key order, then
    the rows without one in the order they had. *)
Definition sort_values (S : Sorter) (key : string) (df : DataFrame)
  : result DataFrame :=
  if decide (key ∈ columns df) then
    let ks := keyed key (rows df) in
    if comparable ks.*1
    then Ok (mkDF (columns df)
               ((argsort S ks).*2 ++ filter (λ r : row, r !! key = None) (rows df)))
    else Raise TypeError
  else Raise (KeyError key).

(** [GroupBy.last] computes the last entry of each column within each
    group, skipping the missing ones: the last entry of column [c] in the
    group [g] that is not missing. *)
Definition last_valid (c : string) (g : list row) : option scalar :=
  last (omap (λ r : row, r !! c) g).

(** The group keys in the order [groupby] emits them (missing keys form no
    group). *)
Definition group_keys (key : string) (rs : list row) : list scalar :=
  merge_sort scalar_le (remove_dups (omap (λ r : row, r !! key) rs)).

Definition group_of (key : string) (k : scalar) (rs : list row) : list row :=
  filter (λ r : row, r !! key = Some k) rs.

(** [df.groupby(by, as_index=False).last()] *)
Definition groupby_last (key : string) (df : DataFrame) : result DataFrame :=
  if decide (key ∈ columns df) then
    let others := filter (λ c, c ≠ key) (columns df) in
    Ok (mkDF (key :: others)
          ((λ k, <[key := k]>
                   (row_of others (λ c, last_valid c (group_of key k (rows df)))))
             <$> group_keys key (rows df)))
  else Raise (KeyError key).

(** [left.merge(right, on=on, how='left')].  A label other than [on] that
    both frames have gets the suffix [_x] on the left and [_y] on the
    right; the rows of [left] keep their order, each paired with the rows
    of [right] that have its key, or emitted alone when there is none. *)
Definition left_label (on : string) (ro : list string) (c : string) : string :=
  if decide (c = on) then c
  else if decide (c ∈ ro) then c +:+ "_x" else c.

Definition right_label (lo : list string) (c : string) : string :=
  if decide (c ∈ lo) then c +:+ "_y" else c.

Definition relabel (f : string → string) (cols : list string) (r : row) : row :=
  list_to_map (omap (λ c, pair (f c) <$> r !! c) cols).

(** What one row [l] of [left] contributes: itself under the left labels,
    once for each row of [right] with its key, and once alone when there is
    none. *)
Definition joined (left right : DataFrame) (on : string) (l : row) : list row :=
  let lo := filter (λ c, c ≠ on) (columns left) in
  let ro := filter (λ c, c ≠ on) (columns right) in
  match filter (λ r : row, r !! on = l !! on) (rows right) with
  | [] => [relabel (left_label on ro) (columns left) l]
  | ms => (λ r, relabel (left_label on ro) (columns left) l
                ∪ relabel (right_label lo) ro r) <$> ms
  end.

(** The check [merge] makes on the dtypes of the two key columns, once it
    has found them.  Frames carry no dtypes here: the dtype of a key column
    is read off its cells, as [DataFrame(r.json())] sets it.  A column is
    numeric when it has numbers and no string; [merge] refuses a numeric
    key column against one without a number (strings, missing values).  It
    makes no check when one frame has rows and the other has none. *)
Definition numeric_keys (on : string) (df : DataFrame) : bool :=
  existsb is_num (keyed on (rows df)).*1 && forallb is_num (keyed on (rows df)).*1.

Definition no_number_keys (on : string) (df : DataFrame) : bool :=
  forallb (λ a, negb (is_num a)) (keyed on (rows df)).*1.

Definition keys_clash (left right : DataFrame) (on : string) : bool :=
  bool_decide (rows left ≠ []) && bool_decide (rows right ≠ []) &&
  (numeric_keys on left && no_number_keys on right
   || numeric_keys on right && no_number_keys on left).

Definition merge_left (left right : DataFrame) (on : string)
  : result DataFrame :=
  if decide (on ∈ columns left) then
    if decide (on ∈ columns right) then
      if keys_clash left right on then Raise ValueError
      else
        let lo := filter (λ c, c ≠ on) (columns left) in
        let ro := filter (λ c, c ≠ on) (columns right) in
        Ok (mkDF ((left_label on ro <$> columns left) ++ (right_label lo <$> ro))
              (rows left ≫= joined left right on))
    else Raise (KeyError on)
  else Raise (KeyError on).

(** [df[c] = df.apply(f, axis=1)], for an [f] that returns a scalar.  (On a
    frame without rows [apply] returns an empty series and the column is
    added all the same.) *)
Definition assign (c : string) (f : row → scalar) (df : DataFrame) : DataFrame :=
  mkDF (if decide (c ∈ columns df) then columns df else columns df ++ [c])
       ((λ r : row, <[c := f r]> r) <$> rows df).

(** [df[cols]] for a list of labels. *)
Definition select (cols : list string) (df : DataFrame) : result DataFrame :=
  match filter (λ c, c ∉ columns df) cols with
  | [] => Ok (mkDF cols ((λ r : row, row_of cols (λ c, r !! c)) <$> rows df))
  | c :: _ => Raise (KeyError c)
  end.

(** [df.drop_duplicates()]: of equal rows the first is kept. *)
Fixpoint drop_duplicates_rows (rs : list row) : list row :=
  match rs with
  | [] => []
  | r :: rs => r :: filter (λ r', r' ≠ r) (drop_duplicates_rows rs)
  end.

Definition drop_duplicates (df : DataFrame) : DataFrame :=
  mkDF (columns df) (drop_duplicates_rows (rows df)).

(** ** [src/f1.py] *)

Module F1.

(** [DriversService.list_by_session], on the frame its [fetch] returned. *)
Definition list_by_session (S : Sorter) (df : DataFrame) : result DataFrame :=
  if empty df then Ok df
  else
    df ← select ["driver_number"; "full_name"; "team_name"] df;
    sort_values S "driver_number" (drop_duplicates df).

(** Lines 104-113 of [finishing_order], the spec's Position Reducer:
    [pos[pos["position"].notna()]], the [sort_values] on [date] or
    [lap_number], and [groupby("driver_number", as_index=False).last()]. *)
Definition position_reducer (S : Sorter) (pos : DataFrame) : result DataFrame :=
  pos ← filter_notna "position" pos;
  pos ← (if decide ("date" ∈ columns pos) then sort_values S "date" pos
         else if decide ("lap_number" ∈ columns pos)
              then sort_values S "lap_number" pos
              else Ok pos);
  groupby_last "driver_number" pos.

Definition gap_col (df : DataFrame) : option string :=
  if decide ("gap" ∈ columns df) then Some "gap"
  else if decide ("interval" ∈ columns df) then Some "interval"
  else None.

Definition format_gap (gap_col : option string) (r : row) : scalar :=
  if decide (r !! "position" = Some (Num 1)) then Str "Leader"
  else match gap_col with
       | None => Str "N/A"
       | Some g =>
           match r !! g with
           | None => Str "N/A"
           | Some v => v
           end
       end.

(** Lines 114-144 of [finishing_order], the spec's Classification
    Assembler: [sort_values("position")], the left [merge] with the roster,
    the [gap_to_leader] column and the projection on the five columns. *)
Definition classification_assembler (S : Sorter) (pos drv : DataFrame)
  : result DataFrame :=
  pos ← sort_values S "position" pos;
  df ← merge_left pos drv "driver_number";
  let df := assign "gap_to_leader" (format_gap (gap_col df)) df in
  select ["position"; "driver_number"; "full_name"; "team_name";
          "gap_to_leader"] df.

(** [ResultsService.finishing_order], on the frames its two fetches
    returned: [pos] for the endpoint [position], [drivers] for [drivers]. *)
Definition finishing_order (S : Sorter) (pos drivers : DataFrame)
  : result DataFrame :=
  drv ← list_by_session S drivers;
  if empty pos then Ok pos
  else
    pos ← position_reducer S pos;
    classification_assembler S pos drv.

End F1.

(** ** [src/f1_comments.py] *)

Module F1_comments.

Definition list_by_session (S : Sorter) (df : DataFrame) : result DataFrame :=
  if empty df then Ok df
  else
    df ← select ["driver_number"; "full_name"; "team_name"] df;
    sort_values S "driver_number" (drop_duplicates df).

Definition format_gap (gap_col : option string) (r : row) : scalar :=
  if decide (r !! "position" = Some (Num 1)) then Str "Leader"
  else match gap_col with
       | None => Str "N/A"
       | Some g =>
           match r !! g with
           | None => Str "N/A"
           | Some v => v
           end
       end.

Definition finishing_order (S : Sorter) (pos drivers : DataFrame)
  : result DataFrame :=
  drv ← list_by_session S drivers;
  if empty pos then Ok pos
  else
    pos ← filter_notna "position" pos;
    pos ← (if decide ("date" ∈ columns pos) then sort_values S "date" pos
           else if decide ("lap_number" ∈ columns pos)
                then sort_values S "lap_number" pos
                else Ok pos);
    pos ← groupby_last "driver_number" pos;
    pos ← sort_values S "position" pos;
    df ← merge_left pos drv "driver_number";
    let gap_col :=
      if decide ("gap" ∈ columns df) then Some "gap"
      else if decide ("interval" ∈ columns df) then Some "interval"
      else None in
    let df := assign "gap_to_leader" (format_gap gap_col) df in
    select ["position"; "driver_number"; "full_name"; "team_name";
            "gap_to_leader"] df.

End F1_comments.

(** ** The console, the API client, the services and the menu

    The statements modelled from here on are the same in [src/f1.py] and in
    [src/f1_comments.py], which adds comments and docstrings only.

    What the program reads and writes is explicit: the lines typed at the
    console, what it prints, plots and exports, and the answers of the API.
    Three built-ins of Python ([str.strip], [int], [str.lower]) are defined
    on every Unicode string; they are parameters here, and so are the
    answers of the API. *)

(** A value passed around or stored in a cell: a scalar or missing. *)
Abbreviation cell := (option scalar).

Record Env := mkEnv {
  (** [s.strip()] *)
  str_strip : string → string;
  (** [int(s)]: [None] when it raises [ValueError] *)
  int_of : string → option Z;
  (** [s.lower()] *)
  str_lower : string → string;
  (** The body of the [try] of [OpenF1Client.fetch] for an endpoint and
      its parameters: the frame [pd.DataFrame(r.json())], or the text of
      the exception raised on the way. *)
  request : string → list (string * cell) → DataFrame + string;
  (** The routine behind [sort_values] *)
  sorter : Sorter;
  (** Whether the null at a row and a column of a frame is Python's [None]
      rather than NaN.  Cells do not tell the two apart, and one test of
      the program does: [dn is None] in [show_track]. *)
  null_is_None : DataFrame → nat → string → bool
}.

(** An exception that nothing catches. *)
Inductive uncaught :=
| Raised (e : exn)
| EOFError
| IndexError.

Inductive outcome (A : Type) :=
| Returned (a : A)
| Failed (e : uncaught).
Arguments Returned {A} a.
Arguments Failed {A} e.

(** What the program puts out, in order. *)
Inductive output :=
| Prompted (prompt : string)
| Printed (line : string)
| Table (df : DataFrame)
| Described (values : list cell)
| LinePlot (title : string) (xs ys : list cell)
| ScatterPlot (title : string) (xs ys : list cell)
| CsvFile (path : string) (df : DataFrame)
| Logged (level message : string).

(** The lines still to be read and everything put out so far. *)
Record console := mkConsole {
  stdin : list string;
  stdout : list output
}.

Definition io (A : Type) : Type := console → outcome A * console.

#[global] Instance io_ret : MRet io := λ A a c, (Returned a, c).
#[global] Instance io_bind : MBind io := λ A B f m c,
  match m c with
  | (Returned a, c') => f a c'
  | (Failed e, c') => (Failed e, c')
  end.

Definition raise {A} (e : uncaught) : io A := λ c, (Failed e, c).

Definition lift {A} (r : result A) : io A :=
  match r with
  | Ok a => mret a
  | Raise e => raise (Raised e)
  end.

Definition put (o : output) : io () := λ c,
  (Returned (), mkConsole (stdin c) (stdout c ++ [o])).

(** [print(s)] *)
Definition print (s : string) : io () := put (Printed s).

(** [input(prompt)]: writes the prompt and reads one line; at the end of
    the input it raises [EOFError]. *)
Definition input (prompt : string) : io string := λ c,
  match stdin c with
  | [] => (Failed EOFError, mkConsole [] (stdout c ++ [Prompted prompt]))
  | l :: ls => (Returned l, mkConsole ls (stdout c ++ [Prompted prompt]))
  end.

(** ** More of pandas *)

(** A row of a frame taken out of it, [df.iloc[i]]: a series indexed by the
    column labels. *)
Record Series := mkSeries {
  labels : list string;
  cells : row
}.

Definition iloc (i : nat) (df : DataFrame) : io Series :=
  match rows df !! i with
  | Some r => mret (mkSeries (columns df) r)
  | None => raise IndexError
  end.

(** [s[label]] on a series *)
Definition item (label : string) (s : Series) : result cell :=
  if decide (label ∈ labels s) then Ok (cells s !! label)
  else Raise (KeyError label).

(** [df[c]] for one label: the column. *)
Definition column (c : string) (df : DataFrame) : result (list cell) :=
  if decide (c ∈ columns df) then Ok ((λ r : row, r !! c) <$> rows df)
  else Raise (KeyError c).

(** [v != 0] on a cell: a missing value, a string and a number other than
    0 all differ from 0. *)
Definition ne0 (v : cell) : bool := bool_decide (v ≠ Some (Num 0)).

(** [df[mask]] for a boolean series [mask] over the rows of [df]. *)
Definition boolean_index (mask : list bool) (df : DataFrame) : DataFrame :=
  mkDF (columns df)
    (filter (λ rb : row * bool, rb.2 = true) (zip (rows df) mask)).*1.

(** [df.dropna(subset=labels)]: the rows with an entry at every label. *)
Definition dropna (subset : list string) (df : DataFrame) : result DataFrame :=
  match filter (λ c, c ∉ columns df) subset with
  | [] =>
      Ok (mkDF (columns df)
            (filter (λ r : row, Forall (λ c, is_Some (r !! c)) subset)
               (rows df)))
  | c :: _ => Raise (KeyError c)
  end.

(** [needle in s] on strings *)
Fixpoint is_infix (needle s : string) : bool :=
  String.prefix needle s ||
  match s with
  | EmptyString => false
  | String _ s' => is_infix needle s'
  end.

(** [needle in v] for a cell [v]: a number and a missing value are not
    iterable. *)
Definition contains (needle : string) (v : cell) : result bool :=
  match v with
  | Some (Str s) => Ok (is_infix needle s)
  | _ => Raise TypeError
  end.

(** [os.path.join(a, b)] with the separator [/]: [b] when it starts with
    the separator; [a] and [b] with a separator between them unless [a] is
    empty or ends with one. *)
Definition os_path_join (a b : string) : string :=
  if String.prefix "/" b then b
  else if bool_decide (a = "") || String.prefix "/" (String.rev a) then a +:+ b
  else a +:+ "/" +:+ b.

(** ** The API client and the services *)

Module OpenF1Client.

(** What the [try] returned, or [pd.DataFrame()] after the error is
    logged. *)
Definition fetch (env : Env) (endpoint : string) (params : list (string * cell))
  : io DataFrame :=
  match request env endpoint params with
  | inl df => mret df
  | inr e =>
      put (Logged "ERROR" ("API error on " +:+ endpoint +:+ ": " +:+ e));;
      mret no_data
  end.

End OpenF1Client.

Module DriversService.

(** The fetch, then [F1.list_by_session] on what it returned. *)
Definition list_by_session (env : Env) (session_key : cell) : io DataFrame :=
  df ← OpenF1Client.fetch env "drivers" [("session_key", session_key)];
  lift (F1.list_by_session (sorter env) df).

(** The value returned is [None] for Python's [None]: what an empty frame
    gives, and a null of the first record that is [None]. *)
Definition get_any_driver_number (env : Env) (session_key : cell)
  : io (option cell) :=
  df ← OpenF1Client.fetch env "drivers" [("session_key", session_key)];
  if empty df then mret None
  else
    first ← iloc 0 df;
    number ← lift (item "driver_number" first);
    mret (if bool_decide (number = None)
             && null_is_None env df 0 "driver_number"
          then None else Some number).

End DriversService.

Module SessionsService.

Definition list_by_year (env : Env) (year : cell) : io DataFrame :=
  df ← OpenF1Client.fetch env "sessions" [("year", year)];
  if empty df then mret df
  else
    lift (select ["session_key"; "country_name"; "session_name"; "date_start"]
            df).

Definition get_session (env : Env) (session_key : cell) : io (option Series) :=
  df ← OpenF1Client.fetch env "sessions" [("session_key", session_key)];
  if empty df then mret None
  else
    first ← iloc 0 df;
    mret (Some first).

End SessionsService.

Module LapsService.

Definition laps_for_driver (env : Env) (session_key driver_number : cell)
  : io DataFrame :=
  OpenF1Client.fetch env "laps"
    [("session_key", session_key); ("driver_number", driver_number)].

End LapsService.

Module TelemetryService.

Definition location (env : Env) (session_key driver_number : cell)
  : io DataFrame :=
  OpenF1Client.fetch env "location"
    [("session_key", session_key); ("driver_number", driver_number)].

End TelemetryService.

Module ResultsService.

(** The two fetches, then [F1.finishing_order] on what they returned. *)
Definition finishing_order (env : Env) (session_key : cell) : io DataFrame :=
  pos ← OpenF1Client.fetch env "position" [("session_key", session_key)];
  drivers ← OpenF1Client.fetch env "drivers" [("session_key", session_key)];
  lift (F1.finishing_order (sorter env) pos drivers).

End ResultsService.

(** ** Utilities *)

Definition EXPORT_DIR : string := "exports".

(** [export_csv] (lines 149-152): the file written and the line logged. *)
Definition export_csv (df : DataFrame) (filename : string) : io () :=
  let path := os_path_join EXPORT_DIR filename in
  put (CsvFile path df);;
  put (Logged "INFO" ("File esportato: " +:+ path)).

(** [print_table] (lines 154-155): the table [tabulate] renders. *)
Definition print_table (df : DataFrame) : io () := put (Table df).

(** [safe_input_int] and [safe_input_str] (lines 157-173): the loop over the
    lines still to be read, [out] being what was put out so far.  One turn
    is [input(prompt).strip()] and the tests on it; a line turned down
    leads to the next turn. *)
Fixpoint safe_input_int_loop (env : Env) (prompt : string)
    (lines : list string) (out : list output) : outcome Z * console :=
  match lines with
  | [] => (Failed EOFError, mkConsole [] (out ++ [Prompted prompt]))
  | l :: lines =>
      let out := out ++ [Prompted prompt] in
      let val := str_strip env l in
      if decide (val = "")
      then safe_input_int_loop env prompt lines
             (out ++ [Printed "Input vuoto! Riprova."])
      else match int_of env val with
           | Some n => (Returned n, mkConsole lines out)
           | None => safe_input_int_loop env prompt lines
                       (out ++ [Printed "Inserisci un numero valido!"])
           end
  end.

Definition safe_input_int (env : Env) (prompt : string) : io Z :=
  λ c, safe_input_int_loop env prompt (stdin c) (stdout c).

Fixpoint safe_input_str_loop (env : Env) (prompt : string)
    (lines : list string) (out : list output) : outcome string * console :=
  match lines with
  | [] => (Failed EOFError, mkConsole [] (out ++ [Prompted prompt]))
  | l :: lines =>
      let out := out ++ [Prompted prompt] in
      let val := str_strip env l in
      if decide (val = "")
      then safe_input_str_loop env prompt lines
             (out ++ [Printed "Input vuoto! Riprova."])
      else (Returned val, mkConsole lines out)
  end.

Definition safe_input_str (env : Env) (prompt : string) : io string :=
  λ c, safe_input_str_loop env prompt (stdin c) (stdout c).

(** ** The menu *)

Module MenuApp.

Definition menu : string := "
=====================================
 OPENF1 PROFESSIONAL ANALYSIS TOOL
=====================================
1. Elenco sessioni per anno
2. Elenco piloti di una sessione
3. Analisi giri pilota (SOLO GARA)
4. Mappa circuito
6. Ordine di arrivo + gap leader
0. Esci
".

(** [show_sessions] (lines 220-226 of [src/f1.py]) *)
Definition show_sessions (env : Env) : io () :=
  year ← safe_input_int env "Anno (es. 2025): ";
  df ← SessionsService.list_by_year env (Some (Num year));
  if empty df then print "Nessuna sessione trovata per l'anno selezionato"
  else print_table df.

(** [show_drivers] (lines 228-234) *)
Definition show_drivers (env : Env) : io () :=
  session_key ← safe_input_str env "Session key: ";
  df ← DriversService.list_by_session env (Some (Str session_key));
  if empty df then print "Nessun pilota trovato per questa sessione"
  else print_table df.

(** Line 275 of [show_track]:
    [df[(df["x"] != 0) | (df["y"] != 0)].dropna(subset=["x", "y"])]. *)
Definition track_filter (df : DataFrame) : result DataFrame :=
  xs ← column "x" df;
  ys ← column "y" df;
  dropna ["x"; "y"] (boolean_index (zip_with orb (ne0 <$> xs) (ne0 <$> ys)) df).

(** [analyze_laps] (lines 236-265).  [print(df[...].describe())] is the
    output [Described] of the column; the figure that [plt.show()] displays
    is the output [LinePlot] of its title and the two columns plotted. *)
Definition analyze_laps (env : Env) : io () :=
  sk ← safe_input_str env "Session key: ";
  session ← SessionsService.get_session env (Some (Str sk));
  no_race ← match session with
            | None => mret true
            | Some session =>
                name ← lift (item "session_name" session);
                race ← lift (contains "Race" name);
                mret (negb race)
            end;
  if no_race : bool then print "❌ Solo sessioni di gara"
  else
    dn ← safe_input_int env "Numero pilota: ";
    df ← LapsService.laps_for_driver env (Some (Str sk)) (Some (Num dn));
    if empty df || bool_decide ("lap_duration" ∉ columns df)
    then print "Nessun dato disponibile"
    else
      print "
Statistiche tempi sul giro:";;
      durations ← lift (column "lap_duration" df);
      put (Described durations);;
      laps ← lift (column "lap_number" df);
      durations ← lift (column "lap_duration" df);
      put (LinePlot ("Lap Times – Driver " +:+ pretty dn) laps durations);;
      answer ← safe_input_str env "Esportare CSV? (s/n): ";
      if decide (str_lower env answer = "s")
      then export_csv df ("laps_" +:+ pretty dn +:+ "_" +:+ sk +:+ ".csv")
      else mret ().

(** [show_track] (lines 267-281).  [dn is None] is the case [None] of what
    [get_any_driver_number] returned. *)
Definition show_track (env : Env) : io () :=
  sk ← safe_input_str env "Session key: ";
  dn ← DriversService.get_any_driver_number env (Some (Str sk));
  match dn with
  | None => print "Nessun pilota trovato"
  | Some dn =>
      df ← TelemetryService.location env (Some (Str sk)) dn;
      df ← lift (track_filter df);
      xs ← lift (column "x" df);
      ys ← lift (column "y" df);
      put (ScatterPlot "Track Map" xs ys)
  end.

(** [show_results] (lines 283-289) *)
Definition show_results (env : Env) : io () :=
  sk ← safe_input_str env "Session key: ";
  df ← ResultsService.finishing_order env (Some (Str sk));
  if empty df then print "Nessun risultato disponibile"
  else print_table df.

(** [run]: the [while True] loop, for at most [fuel] turns.  It returns
    [true] when the loop is left by [break] and [false] when the turns are
    used up. *)
Fixpoint run (env : Env) (fuel : nat) : io bool :=
  match fuel with
  | O => mret false
  | S fuel =>
      print menu;;
      choice ← safe_input_str env "Seleziona opzione: ";
      if decide (choice = "1") then show_sessions env;; run env fuel
      else if decide (choice = "2") then show_drivers env;; run env fuel
      else if decide (choice = "3") then analyze_laps env;; run env fuel
      else if decide (choice = "4") then show_track env;; run env fuel
      else if decide (choice = "6") then show_results env;; run env fuel
      else if decide (choice = "0") then mret true
      else print "Scelta non valida";; run env fuel
  end.

End MenuApp.

(** ** Sorting routines *)

(** Insertion from the right: a row goes in front of the first row whose key
    is not smaller, so rows of equal key keep their order. *)
Fixpoint insert_keyed (x : scalar * row) (l : list (scalar * row))
  : list (scalar * row) :=
  match l with
  | [] => [x]
  | y :: l' => if scalar_leb x.1 y.1 then x :: l else y :: insert_keyed x l'
  end.

Definition insertion_sort (l : list (scalar * row)) : list (scalar * row) :=
  foldr insert_keyed [] l.

(** ** The sorting routine of NumPy behind [kind='quicksort'] *)

(** [a < b] on keys. *)
Definition key_lt (a b : scalar) : bool := negb (scalar_leb b a).

(** The longest prefix of [l] whose elements satisfy [p], and what follows
    it. *)
Fixpoint while_prefix {A} (p : A → bool) (l : list A) : list A :=
  match l with
  | x :: l' => if p x then x :: while_prefix p l' else []
  | [] => []
  end.

Fixpoint after_prefix {A} (p : A → bool) (l : list A) : list A :=
  match l with
  | x :: l' => if p x then after_prefix p l' else l
  | [] => []
  end.

(** The three compare-and-swap steps on the first, the middle and the last
    element of a segment. *)
Definition median3 (f c t : scalar * row)
  : (scalar * row) * (scalar * row) * (scalar * row) :=
  let '(f, c) := if key_lt c.1 f.1 then (c, f) else (f, c) in
  let '(c, t) := if key_lt t.1 c.1 then (t, c) else (c, t) in
  let '(f, c) := if key_lt c.1 f.1 then (c, f) else (f, c) in
  (f, c, t).

(** The two scans of the partition step.  [M] is the part of the segment
    between the two pointers, [L] what the left pointer has passed and [R]
    what the right pointer has passed.  The left pointer skips the keys
    below the pivot and stops at [x]; the right pointer skips the keys above
    the pivot and stops at [y]; when [y] lies right of [x] the two are
    swapped and the scans go on between them.  The result is what lies left
    of the left pointer at the end, and what lies from it on. *)
Fixpoint hoare (fuel : nat) (vp : scalar) (L M R : list (scalar * row))
  : list (scalar * row) * list (scalar * row) :=
  let below := while_prefix (λ x, key_lt x.1 vp) M in
  match after_prefix (λ x, key_lt x.1 vp) M with
  | [] => (L ++ M, R)
  | x :: M' =>
      let above := while_prefix (λ y, key_lt vp y.1) (reverse M') in
      match after_prefix (λ y, key_lt vp y.1) (reverse M'), fuel with
      | y :: between, S fuel =>
          hoare fuel vp (L ++ below ++ [y]) (reverse between)
            (x :: reverse above ++ R)
      | _, _ => (L ++ below, x :: M' ++ R)
      end
  end.

(** The partition step on a segment [l]: the median of three goes to the
    last place but one as the pivot, the scans run over what lies between
    the first element and the pivot, and the pivot is swapped with the
    element under the left pointer.  The result is the part left of the
    pivot, the pivot and the part right of it. *)
Definition partition (l : list (scalar * row))
  : option (list (scalar * row) * (scalar * row) * list (scalar * row)) :=
  match l with
  | f :: rest =>
      match reverse rest with
      | t :: p :: inner =>
          let inner := reverse inner in
          let k := ((length l - 1) / 2 - 1)%nat in
          match inner !! k with
          | Some c =>
              let '(f, c, t) := median3 f c t in
              let M := take k inner ++ p :: drop (S k) inner in
              let '(L, R) := hoare (length M) c.1 [] M [] in
              Some (match R with
                    | [] => (f :: L, c, [t])
                    | x :: R => (f :: L, c, R ++ [x; t])
                    end)
          | None => None
          end
      | _ => None
      end
  | [] => None
  end.

(** The introsort: a segment of more than 16 elements is partitioned and
    its two parts are sorted in turn, the larger one after it was put on
    the stack; a segment of up to 16 elements is sorted by insertion
    (NumPy inserts from the left and moves a row past the rows of greater
    key, which gives the list [insertion_sort] gives); a segment that comes
    off the stack with no depth left goes to the heapsort, which is not
    modelled: [heap] is any sorter.  The depth is twice the position of the
    highest bit of the length.  [fuel] bounds the recursion; the length of
    the segment is enough. *)
Fixpoint introsort (heap : Sorter) (fuel : nat) (popped : bool) (depth : Z)
    (l : list (scalar * row)) : list (scalar * row) :=
  if popped && (depth <? 0) then argsort heap l
  else if decide (length l ≤ 16)%nat then insertion_sort l
  else
    match fuel, partition l with
    | S fuel, Some (lo, p, hi) =>
        let lo_smaller := bool_decide (length lo < length hi)%nat in
        introsort heap fuel (negb lo_smaller) (depth - 1) lo
        ++ p :: introsort heap fuel lo_smaller (depth - 1) hi
    | _, _ => insertion_sort l
    end.

Definition quicksort (heap : Sorter) (l : list (scalar * row))
  : list (scalar * row) :=
  introsort heap (length l) true (2 * Z.log2 (Z.of_nat (length l))) l.

(** ** The specification's vocabulary *)

(** The events that pass the null-position filter, in arrival order. *)
Definition survivors (pos : DataFrame) : list row :=
  filter (λ r : row, is_Some (r !! "position")) (rows pos).

(** Section 4.1, step 2: the ordering key of the session. *)
Definition ordering_key (cols : list string) : option string :=
  if decide ("date" ∈ cols) then Some "date"
  else if decide ("lap_number" ∈ cols) then Some "lap_number"
  else None.

(** The ordering key of an event: missing when the session has no key or
    the event has no entry for it. *)
Definition key_of (cols : list string) (e : row) : option scalar :=
  k ← ordering_key cols; e !! k.

(** Ascending, the missing keys last. *)
Definition okey_le (a b : option scalar) : Prop :=
  match a, b with
  | _, None => True
  | None, Some _ => False
  | Some x, Some y => scalar_le x y
  end.

(** The surviving events that have an ordering key: the rows
    [sort_values] hands to the sorting routine. *)
Definition with_key (pos : DataFrame) : list row :=
  filter (λ e : row, is_Some (key_of (columns pos) e)) (survivors pos).

(** The ordering key of the event [e] is no number. *)
Definition text_key (cols : list string) (e : row) : Prop :=
  match key_of cols e with Some (Num _) => False | _ => True end.

(** [ordered] is [arrival] put in the order of the session's key: the same
    list when there is no key. *)
Definition ordered_by (key : option string) (arrival ordered : list row) : Prop :=
  match key with
  | None => ordered = arrival
  | Some k =>
      ordered ≡ₚ arrival ∧
      Sorted (λ a b : row, okey_le (a !! k) (b !! k)) ordered
  end.

(** The events of driver [d], in the order of [rs]. *)
Definition events_of (d : scalar) (rs : list row) : list row :=
  group_of "driver_number" d rs.

(** The distinct driver numbers of [rs]. *)
Definition distinct_drivers (rs : list row) : list scalar :=
  group_keys "driver_number" rs.

(** What the reducer emits for driver [d]: per column, the last entry of the
    driver's events that is not missing. *)
Definition reduced_row (cols : list string) (ordered : list row) (d : scalar)
  : row :=
  <["driver_number" := d]>
    (row_of (filter (λ c, c ≠ "driver_number") cols)
       (λ c, last_valid c (events_of d ordered))).

(** Section 4.2, step 3: the designated gap column and the Gap Formatting
    Rule, in the spec's words. *)
Definition designated_gap_column (cols : list string) : option string :=
  if decide ("gap" ∈ cols) then Some "gap"
  else if decide ("interval" ∈ cols) then Some "interval"
  else None.

Definition gap_formatting_rule (cols : list string) (p : row) : scalar :=
  if decide (p !! "position" = Some (Num 1)) then Str "Leader"
  else match designated_gap_column cols with
       | None => Str "N/A"
       | Some g => default (Str "N/A") (p !! g)
       end.

(** What [OpenF1Client.fetch] returns is [pd.DataFrame(records)] for a JSON
    list of objects, or [pd.DataFrame()]: a frame without rows has no
    columns. *)
Definition fetched (df : DataFrame) : Prop := rows df = [] → columns df = [].

(** The five output columns. *)
Definition output_columns : list string :=
  ["position"; "driver_number"; "full_name"; "team_name"; "gap_to_leader"].

(** The output row made of a row [m] of the join. *)
Definition output_row (gap_col : option string) (m : row) : row :=
  row_of output_columns
    (λ c, <["gap_to_leader" := F1.format_gap gap_col m]> m !! c).

(** The roster is keyed by [driver_number]: two records with the same
    driver number carry the same names. *)
Definition roster_keyed (drivers : DataFrame) : Prop :=
  ∀ r1 r2 : row, r1 ∈ rows drivers → r2 ∈ rows drivers →
    is_Some (r1 !! "driver_number") →
    r1 !! "driver_number" = r2 !! "driver_number" →
    r1 !! "full_name" = r2 !! "full_name" ∧
    r1 !! "team_name" = r2 !! "team_name".

(** The last character of a label. *)
Fixpoint last_char (s : string) : option ascii :=
  match s with
  | EmptyString => None
  | String a EmptyString => Some a
  | String _ s' => last_char s'
  end.

(** A label that ends in neither [x] nor [y] is no suffixed label. *)
Definition plain (k : string) : Prop :=
  last_char k ≠ Some "x"%char ∧ last_char k ≠ Some "y"%char.

(** Ascending by position, every position present. *)
Definition position_le (a b : row) : Prop :=
  match a !! "position", b !! "position" with
  | Some x, Some y => scalar_le x y
  | _, _ => False
  end.

(** ** Feeds used as concrete inputs *)

(** One JSON object of a feed. *)
Definition event (cells : list (string * scalar)) : row := list_to_map cells.

(** Scenario 1 of the spec: two events of driver 1, the later one first. *)
Definition scenario1_positions : DataFrame :=
  mkDF ["driver_number"; "position"; "date"; "gap"]
    [event [("driver_number", Num 1); ("position", Num 1); ("date", Str "t2")];
     event [("driver_number", Num 1); ("position", Num 3); ("date", Str "t1")]].

Definition scenario1_roster : DataFrame :=
  mkDF ["driver_number"; "full_name"; "team_name"]
    [event [("driver_number", Num 1); ("full_name", Str "A");
            ("team_name", Str "TeamA")]].

(** Scenario 2: one driver in second place, an [interval] column, no
    [gap] and no [date]. *)
Definition scenario2_positions : DataFrame :=
  mkDF ["driver_number"; "position"; "lap_number"; "interval"]
    [event [("driver_number", Num 2); ("position", Num 2);
            ("lap_number", Num 5); ("interval", Str "+1.2s")]].

(** Scenario 3: the only event has no position. *)
Definition scenario3_positions : DataFrame :=
  mkDF ["driver_number"; "position"]
    [event [("driver_number", Num 3)]].

(** Scenario 4: neither [gap] nor [interval] anywhere; the driver is not
    the leader and gets ["N/A"]. *)
Definition scenario4_positions : DataFrame :=
  mkDF ["driver_number"; "position"; "date"]
    [event [("driver_number", Num 4); ("position", Num 5); ("date", Str "t1")]].

(** Scenario 5: events A then B of driver 5 with the same [date]. *)
Definition event_A : row :=
  event [("driver_number", Num 5); ("position", Num 7); ("date", Str "t1")].
Definition event_B : row :=
  event [("driver_number", Num 5); ("position", Num 8); ("date", Str "t1")].
Definition scenario5_positions : DataFrame :=
  mkDF ["driver_number"; "position"; "date"] [event_A; event_B].

(** Sixteen events of driver 5 with the date [t2], at the positions 1 to
    16 in arrival order, then one with the earlier date [t1]. *)
Definition late_tie_event (p : Z) : row :=
  event [("driver_number", Num 5); ("position", Num p); ("date", Str "t2")].
Definition late_tie_positions : DataFrame :=
  mkDF ["driver_number"; "position"; "date"]
    ((late_tie_event <$> [1; 2; 3; 4; 5; 6; 7; 8; 9; 10; 11; 12; 13; 14; 15; 16])
     ++ [event [("driver_number", Num 5); ("position", Num 17);
                ("date", Str "t1")]]).

(** Two events of driver 1; the later one reports no gap. *)
Definition gap_then_none_positions : DataFrame :=
  mkDF ["driver_number"; "position"; "date"; "gap"]
    [event [("driver_number", Num 1); ("position", Num 2); ("date", Str "t1");
            ("gap", Str "+1.0")];
     event [("driver_number", Num 1); ("position", Num 3); ("date", Str "t2")]].

(** Two drivers, one event each. *)
Definition two_drivers_positions : DataFrame :=
  mkDF ["driver_number"; "position"; "date"]
    [event [("driver_number", Num 44); ("position", Num 1); ("date", Str "t1")];
     event [("driver_number", Num 16); ("position", Num 2); ("date", Str "t2")]].

(** ** The vocabulary of the statements about the console and the menu *)

(** What [safe_input_int] prints for a line it turns down. *)
Definition complaint (env : Env) (l : string) : string :=
  if decide (str_strip env l = "") then "Input vuoto! Riprova."
  else "Inserisci un numero valido!".

(** Prompts, printed lines and log lines. *)
Definition is_text (o : output) : Prop :=
  match o with
  | Prompted _ | Printed _ | Logged _ _ => True
  | _ => False
  end.

(** A computation is tame when it reads from the front of the input, adds
    to the end of the output, there only outputs that satisfy [P], and does
    not raise [IndexError]. *)
Definition tame (P : output → Prop) {A} (m : io A) : Prop :=
  ∀ c o c', m c = (o, c') →
    o ≠ Failed IndexError ∧
    stdin c' `suffix_of` stdin c ∧
    ∃ new, stdout c' = stdout c ++ new ∧ Forall P new.

Definition any_output (o : output) : Prop := True.

(** One turn of the loop of [run], [next] being the turns that follow. *)
Definition turn (env : Env) (next : io bool) : io bool :=
  print MenuApp.menu;;
  choice ← safe_input_str env "Seleziona opzione: ";
  if decide (choice = "1") then MenuApp.show_sessions env;; next
  else if decide (choice = "2") then MenuApp.show_drivers env;; next
  else if decide (choice = "3") then MenuApp.analyze_laps env;; next
  else if decide (choice = "4") then MenuApp.show_track env;; next
  else if decide (choice = "6") then MenuApp.show_results env;; next
  else if decide (choice = "0") then mret true
  else print "Scelta non valida";; next.

(** The roster columns, and a record of the [drivers] endpoint cut down to
    them. *)
Definition roster_columns : list string :=
  ["driver_number"; "full_name"; "team_name"].

Definition roster_record (q : row) : row :=
  row_of roster_columns (λ c, q !! c).

(** A sample of the [location] endpoint that [show_track] plots: both
    coordinates are there and they are not both 0. *)
Definition on_track (r : row) : Prop :=
  is_Some (r !! "x") ∧ is_Some (r !! "y") ∧
  ¬ (r !! "x" = Some (Num 0) ∧ r !! "y" = Some (Num 0)).

#[global] Instance on_track_dec r : Decision (on_track r).
Proof. unfold on_track. apply _. Defined.

(** The columns [list_by_year] keeps. *)
Definition session_columns : list string :=
  ["session_key"; "country_name"; "session_name"; "date_start"].

(** The session [sk] is there and its name has "Race" in it: the first
    record the [sessions] endpoint gives for it says so. *)
Definition race_session (env : Env) (sk : string) : Prop :=
  ∃ df r name,
    request env "sessions" [("session_key", Some (Str sk))] = inl df ∧
    head (rows df) = Some r ∧
    "session_name" ∈ columns df ∧
    r !! "session_name" = Some (Str name) ∧
    is_infix "Race" name = true.

(** [df] is what the [laps] endpoint gives for the session and the driver:
    a frame with rows and a column [lap_duration]. *)
Definition lap_data (env : Env) (sk : string) (dn : Z) (df : DataFrame)
  : Prop :=
  request env "laps"
    [("session_key", Some (Str sk)); ("driver_number", Some (Num dn))]
  = inl df ∧
  empty df = false ∧
  "lap_duration" ∈ columns df.

Definition laps_csv (dn : Z) (sk : string) : string :=
  "exports/laps_" +:+ pretty dn +:+ "_" +:+ sk +:+ ".csv".

(** The part of [analyze_laps] that decides whether the session is a
    race. *)
Definition no_race_test (session : option Series) : io bool :=
  match session with
  | None => mret true
  | Some session =>
      name ← lift (item "session_name" session);
      race ← lift (contains "Race" name);
      mret (negb race)
  end.

(** ** A console and an API to run the menu on *)

(** Python's built-ins on ASCII text: the white space [strip] removes, the
    decimal numbers [int] reads (a sign, digits, single underscores between
    digits) and the letters [lower] changes. *)
Definition is_space (a : ascii) : bool :=
  let n := nat_of_ascii a in
  ((9 <=? n) && (n <=? 13) || (28 <=? n) && (n <=? 32))%nat.

Fixpoint lstrip (s : string) : string :=
  match s with
  | EmptyString => EmptyString
  | String a s' => if is_space a then lstrip s' else s
  end.

Definition ascii_strip (s : string) : string :=
  String.rev (lstrip (String.rev (lstrip s))).

Definition digit (a : ascii) : option Z :=
  let n := nat_of_ascii a in
  if ((48 <=? n) && (n <=? 57))%nat then Some (Z.of_nat n - 48) else None.

Fixpoint digits (acc : Z) (after_digit : bool) (s : string) : option Z :=
  match s with
  | EmptyString => if after_digit then Some acc else None
  | String a s' =>
      match digit a with
      | Some d => digits (10 * acc + d) true s'
      | None =>
          if after_digit && bool_decide (a = "_"%char)
          then digits acc false s'
          else None
      end
  end.

Definition ascii_int (s : string) : option Z :=
  match ascii_strip s with
  | String "-" s' => Z.opp <$> digits 0 false s'
  | String "+" s' => digits 0 false s'
  | s' => digits 0 false s'
  end.

Fixpoint ascii_lower (s : string) : string :=
  match s with
  | EmptyString => EmptyString
  | String a s' =>
      let n := nat_of_ascii a in
      String
        (if ((65 <=? n) && (n <=? 90))%nat then ascii_of_nat (n + 32) else a)
        (ascii_lower s')
  end.

(** Answers of the API: one race session, one driver, two laps, four
    samples of the car's location.  The session [0000] has no name; for
    the session [none] the request for positions fails. *)
Definition sample_sessions (name : cell) : DataFrame :=
  mkDF ["session_key"; "country_name"; "session_name"; "date_start"; "year"]
    [row_of
       ["session_key"; "country_name"; "session_name"; "date_start"; "year"]
       (λ c, if decide (c = "session_name") then name
             else if decide (c = "session_key") then Some (Num 9158)
             else if decide (c = "country_name") then Some (Str "Italy")
             else if decide (c = "date_start") then Some (Str "2023-09-03")
             else Some (Num 2023))].

Definition sample_laps : DataFrame :=
  mkDF ["driver_number"; "lap_number"; "lap_duration"]
    [event [("driver_number", Num 1); ("lap_number", Num 1)];
     event [("driver_number", Num 1); ("lap_number", Num 2);
            ("lap_duration", Num 85)]].

Definition sample_location : DataFrame :=
  mkDF ["x"; "y"]
    [event [("x", Num 0); ("y", Num 0)];
     event [("x", Num 10); ("y", Num 20)];
     event [("x", Num 3)];
     event [("x", Num 0); ("y", Num 5)]].

(** [roster_up] and [location_up] say whether the requests to the
    endpoints [drivers] and [location] succeed. *)
Definition sample_api (roster_up location_up : bool)
    (endpoint : string) (params : list (string * cell)) : DataFrame + string :=
  if decide (endpoint = "sessions") then
    if decide (params = [("session_key", Some (Str "0000"))])
    then inl (sample_sessions None)
    else inl (sample_sessions (Some (Str "Race")))
  else if decide (endpoint = "drivers") then
    if roster_up then inl scenario1_roster else inr "timed out"
  else if decide (endpoint = "position") then
    if decide (params = [("session_key", Some (Str "none"))])
    then inr "no session"
    else inl scenario1_positions
  else if decide (endpoint = "laps") then inl sample_laps
  else if decide (endpoint = "location") then
    if location_up then inl sample_location else inr "timed out"
  else inr "404".

(** The console with [lines] typed and nothing put out yet. *)
Definition typed (lines : list string) : console := mkConsole lines [].

(** Three records of the [drivers] endpoint: driver 44 twice, the same but
    for a column that is no roster column, then driver 1. *)
Definition sample_drivers : DataFrame :=
  mkDF ["driver_number"; "full_name"; "team_name"; "meeting_key"]
    [event [("driver_number", Num 44); ("full_name", Str "H");
            ("team_name", Str "M"); ("meeting_key", Num 1)];
     event [("driver_number", Num 44); ("full_name", Str "H");
            ("team_name", Str "M"); ("meeting_key", Num 2)];
     event [("driver_number", Num 1); ("full_name", Str "A");
            ("team_name", Str "TeamA"); ("meeting_key", Num 2)]].

Definition sample_roster : DataFrame :=
  mkDF ["driver_number"; "full_name"; "team_name"]
    [event [("driver_number", Num 1); ("full_name", Str "A");
            ("team_name", Str "TeamA")];
     event [("driver_number", Num 44); ("full_name", Str "H");
            ("team_name", Str "M")]].

(** What [analyze_laps] puts out for the session 9158 and the driver 1 when
    the export is asked for. *)
Definition sample_analysis : list output :=
  [Prompted "Session key: "; Prompted "Numero pilota: ";
   Printed "
Statistiche tempi sul giro:";
   Described [None; Some (Num 85)];
   LinePlot "Lap Times – Driver 1" [Some (Num 1); Some (Num 2)]
     [None; Some (Num 85)];
   Prompted "Esportare CSV? (s/n): ";
   CsvFile "exports/laps_1_9158.csv" sample_laps;
   Logged "INFO" "File esportato: exports/laps_1_9158.csv"].

(** * The order on scalars *)

Lemma string_compare_refl (s : string) : String.compare s s = Eq.
Proof.
  induction s as [|a s IH]; simpl; [done|].
  unfold Ascii.compare. by rewrite N.compare_refl.
Qed.

Lemma string_leb_trans (s t u : string) :
  String.leb s t = true → String.leb t u = true → String.leb s u = true.
Proof.
  unfold String.leb. revert t u.
  induction s as [|a s IH]; intros [|b t] [|c u]; simpl; try done.
  unfold Ascii.compare.
  destruct (N.compare_spec (N_of_ascii a) (N_of_ascii b)) as [Hab|Hab|Hab];
    destruct (N.compare_spec (N_of_ascii b) (N_of_ascii c)) as [Hbc|Hbc|Hbc];
    try done.
  - rewrite Hab, Hbc, N.compare_refl. apply IH.
  - intros _ _. rewrite Hab. by apply N.compare_lt_iff in Hbc as ->.
  - intros _ _. rewrite <- Hbc. by apply N.compare_lt_iff in Hab as ->.
  - intros _ _.
    assert (N_of_ascii a < N_of_ascii c)%N as Hac by (etrans; done).
    by apply N.compare_lt_iff in Hac as ->.
Qed.

#[global] Instance scalar_le_refl : Reflexive scalar_le.
Proof.
  intros [z|s]; unfold scalar_le; simpl.
  - apply Z.leb_refl.
  - unfold String.leb. by rewrite string_compare_refl.
Qed.

#[global] Instance scalar_le_trans : Transitive scalar_le.
Proof.
  intros [x|s] [y|t] [z|u]; unfold scalar_le; simpl; try done.
  - rewrite !Z.leb_le. lia.
  - apply string_leb_trans.
Qed.

#[global] Instance scalar_le_total : Total scalar_le.
Proof.
  intros [x|s] [y|t]; unfold scalar_le; simpl; auto.
  - rewrite !Z.leb_le. lia.
  - apply String.leb_total.
Qed.

#[global] Instance scalar_le_antisym : AntiSymm (=) scalar_le.
Proof.
  intros [x|s] [y|t]; unfold scalar_le; simpl; try done.
  - rewrite !Z.leb_le. intros. f_equal. lia.
  - intros H1 H2. f_equal. by apply String.leb_antisym.
Qed.

#[global] Instance key_le_dec a b : Decision (key_le a b).
Proof. unfold key_le. apply _. Defined.

#[global] Instance key_le_trans : Transitive key_le.
Proof. intros a b c. unfold key_le. apply scalar_le_trans. Qed.

(** * The two sorting routines are sorters *)

Lemma insert_keyed_perm x l : insert_keyed x l ≡ₚ x :: l.
Proof.
  induction l as [|y l IH]; simpl; [done|].
  destruct (scalar_leb x.1 y.1); [done|].
  rewrite IH. apply Permutation_swap.
Qed.

Lemma insertion_sort_perm l : insertion_sort l ≡ₚ l.
Proof.
  induction l as [|x l IH]; simpl; [done|].
  rewrite insert_keyed_perm. by f_equiv.
Qed.

Lemma insert_keyed_sorted x l : Sorted key_le l → Sorted key_le (insert_keyed x l).
Proof.
  induction 1 as [|y l Hl IH Hy]; simpl.
  - repeat constructor.
  - destruct (scalar_leb x.1 y.1) eqn:Hxy.
    + constructor; [by constructor|]. by constructor.
    + constructor; [done|].
      assert (key_le y x) as Hyx.
      { destruct (total scalar_le x.1 y.1) as [H|H]; [|done].
        unfold scalar_le in H. congruence. }
      destruct Hy as [|z l Hz]; simpl.
      * by constructor.
      * destruct (scalar_leb x.1 z.1); by constructor.
Qed.

Lemma insertion_sort_sorted l : Sorted key_le (insertion_sort l).
Proof.
  induction l as [|x l IH]; simpl; [constructor|].
  by apply insert_keyed_sorted.
Qed.

(** [kind='stable']. *)
Definition stable_sort : Sorter :=
  mkSorter insertion_sort insertion_sort_perm insertion_sort_sorted.

(** ** NumPy's quicksort is a sorter *)

Lemma key_lt_le a b : key_lt a b = true → scalar_le a b.
Proof.
  unfold key_lt. intros H%negb_true_iff.
  destruct (total scalar_le a b) as [?|Hba]; [done|].
  unfold scalar_le in Hba. congruence.
Qed.

Lemma key_lt_ge a b : key_lt a b = false → scalar_le b a.
Proof. unfold key_lt. by intros H%negb_false_iff. Qed.

Lemma prefix_after {A} (p : A → bool) (l : list A) :
  while_prefix p l ++ after_prefix p l = l.
Proof. induction l as [|x l IH]; simpl; [done|]. destruct (p x); simpl; by f_equal. Qed.

Lemma while_prefix_Forall {A} (p : A → bool) (l : list A) :
  Forall (λ x, p x = true) (while_prefix p l).
Proof.
  induction l as [|x l IH]; simpl; [constructor|].
  destruct (p x) eqn:Hx; by constructor.
Qed.

Lemma after_prefix_cons {A} (p : A → bool) (l : list A) x l' :
  after_prefix p l = x :: l' → p x = false.
Proof.
  induction l as [|y l IH]; simpl; [done|].
  destruct (p y) eqn:Hy; [done|]. by intros [= <- _].
Qed.

Lemma after_prefix_nil {A} (p : A → bool) (l : list A) :
  after_prefix p l = [] → Forall (λ x, p x = true) l.
Proof.
  intros H. rewrite <- (prefix_after p l), H, app_nil_r.
  apply while_prefix_Forall.
Qed.

Lemma hoare_eq fuel vp L M R :
  hoare fuel vp L M R =
  match after_prefix (λ x, key_lt x.1 vp) M with
  | [] => (L ++ M, R)
  | x :: M' =>
      match after_prefix (λ y, key_lt vp y.1) (reverse M'), fuel with
      | y :: between, S fuel =>
          hoare fuel vp
            (L ++ while_prefix (λ x, key_lt x.1 vp) M ++ [y])
            (reverse between)
            (x :: reverse (while_prefix (λ y, key_lt vp y.1) (reverse M')) ++ R)
      | _, _ => (L ++ while_prefix (λ x, key_lt x.1 vp) M, x :: M' ++ R)
      end
  end.
Proof. by destruct fuel. Qed.

Lemma hoare_perm fuel vp L M R Lf Rf :
  hoare fuel vp L M R = (Lf, Rf) → Lf ++ Rf ≡ₚ L ++ M ++ R.
Proof.
  revert L M R. induction fuel as [|fuel IH]; intros L M R; rewrite hoare_eq;
    pose proof (prefix_after (λ x, key_lt x.1 vp) M) as HM;
    destruct (after_prefix _ M) as [|x M'] eqn:Hx;
    set (below := while_prefix _ M) in *; clearbody below; clear Hx; subst M.
  - intros [= <- <-]. by rewrite <- !(assoc_L (++)).
  - destruct (after_prefix _ (reverse M')); intros [= <- <-];
      by rewrite <- !(assoc_L (++)).
  - intros [= <- <-]. by rewrite <- !(assoc_L (++)).
  - pose proof (prefix_after (λ y, key_lt vp y.1) (reverse M')) as HM'.
    destruct (after_prefix _ (reverse M')) as [|y between] eqn:Hy;
      set (above := while_prefix _ (reverse M')) in *; clearbody above; clear Hy.
    + intros [= <- <-]. by rewrite <- !(assoc_L (++)).
    + intros ->%IH.
      assert (M' = reverse between ++ y :: reverse above) as ->.
      { rewrite <- (reverse_involutive M'), <- HM'.
        by rewrite reverse_app, reverse_cons, <- (assoc_L (++)). }
      rewrite <- !(assoc_L (++)). simpl. do 2 f_equiv.
      rewrite <- !(assoc_L (++)). simpl.
      rewrite <- !Permutation_middle. apply Permutation_swap.
Qed.

Lemma hoare_bounds fuel vp L M R Lf Rf :
  (length M ≤ fuel)%nat →
  Forall (λ z : scalar * row, scalar_le z.1 vp) L →
  Forall (λ z : scalar * row, scalar_le vp z.1) R →
  hoare fuel vp L M R = (Lf, Rf) →
  Forall (λ z : scalar * row, scalar_le z.1 vp) Lf ∧
  Forall (λ z : scalar * row, scalar_le vp z.1) Rf.
Proof.
  revert L M R. induction fuel as [|fuel IH]; intros L M R Hlen HL HR;
    rewrite hoare_eq;
    pose proof (prefix_after (λ x, key_lt x.1 vp) M) as HM;
    pose proof (while_prefix_Forall (λ x : scalar * row, key_lt x.1 vp) M) as Hbelow;
    destruct (after_prefix _ M) as [|x M'] eqn:Hx.
  - intros [= <- <-]. split; [|done]. apply Forall_app. split; [done|].
    apply after_prefix_nil in Hx. eapply Forall_impl; [exact Hx|].
    intros z. apply key_lt_le.
  - rewrite <- HM, length_app in Hlen. simpl in Hlen. lia.
  - intros [= <- <-]. split; [|done]. apply Forall_app. split; [done|].
    apply after_prefix_nil in Hx. eapply Forall_impl; [exact Hx|].
    intros z. apply key_lt_le.
  - assert (Forall (λ z : scalar * row, scalar_le z.1 vp)
              (while_prefix (λ x, key_lt x.1 vp) M)) as Hbelow'.
    { eapply Forall_impl; [exact Hbelow|]. intros z. apply key_lt_le. }
    assert (scalar_le vp x.1) as Hxge.
    { apply after_prefix_cons in Hx. by apply key_lt_ge. }
    pose proof (prefix_after (λ y, key_lt vp y.1) (reverse M')) as HM'.
    pose proof (while_prefix_Forall (λ y : scalar * row, key_lt vp y.1)
                  (reverse M')) as Habove.
    assert (Forall (λ z : scalar * row, scalar_le vp z.1)
              (while_prefix (λ y, key_lt vp y.1) (reverse M'))) as Habove'.
    { eapply Forall_impl; [exact Habove|]. intros z. apply key_lt_le. }
    destruct (after_prefix _ (reverse M')) as [|y between] eqn:Hy.
    + intros [= <- <-]. split; [by apply Forall_app|].
      constructor; [done|]. apply Forall_app. split; [|done].
      rewrite app_nil_r in HM'. rewrite <- (reverse_involutive M'), <- HM'.
      by apply Forall_reverse.
    + apply IH.
      * rewrite length_reverse.
        assert (length (reverse M') = length M') as Hr by apply length_reverse.
        rewrite <- HM', length_app in Hr. simpl in Hr.
        rewrite <- HM, length_app in Hlen. simpl in Hlen. lia.
      * rewrite !Forall_app. split_and!; [done..|].
        constructor; [|done]. apply after_prefix_cons in Hy. by apply key_lt_ge.
      * constructor; [done|]. apply Forall_app. split; [|done].
        by apply Forall_reverse.
Qed.

Lemma perm3 {A} (a b c : A) l :
  l ∈ [[a; b; c]; [a; c; b]; [b; a; c]; [b; c; a]; [c; a; b]; [c; b; a]] →
  l ≡ₚ [a; b; c].
Proof.
  rewrite !elem_of_cons, elem_of_nil.
  intros [->|[->|[->|[->|[->|[->|[]]]]]]].
  - done.
  - apply perm_skip, Permutation_swap.
  - apply Permutation_swap.
  - etrans; [apply perm_skip, Permutation_swap|apply Permutation_swap].
  - etrans; [apply Permutation_swap|apply perm_skip, Permutation_swap].
  - exact (reverse_Permutation [a; b; c]).
Qed.

Lemma median3_spec f c t f' c' t' :
  median3 f c t = (f', c', t') →
  [f'; c'; t'] ≡ₚ [f; c; t] ∧ scalar_le f'.1 c'.1 ∧ scalar_le c'.1 t'.1.
Proof.
  unfold median3.
  destruct (key_lt c.1 f.1) eqn:H1;
    [apply key_lt_le in H1|apply key_lt_ge in H1];
    match goal with
    | |- context [key_lt ?a ?b] => destruct (key_lt a b) eqn:H2;
        [apply key_lt_le in H2|apply key_lt_ge in H2]
    end;
    match goal with
    | |- context [key_lt ?a ?b] => destruct (key_lt a b) eqn:H3;
        [apply key_lt_le in H3|apply key_lt_ge in H3]
    end;
    intros [= <- <- <-];
    (split_and!; [apply perm3; set_solver | try done; by etrans..]).
Qed.

Lemma partition_spec l lo p hi :
  partition l = Some (lo, p, hi) →
  lo ++ p :: hi ≡ₚ l ∧
  Forall (λ z, key_le z p) lo ∧ Forall (λ z, key_le p z) hi ∧
  (length lo < length l)%nat ∧ (length hi < length l)%nat.
Proof.
  unfold partition. destruct l as [|f rest]; [done|].
  destruct (reverse rest) as [|t [|q rinner]] eqn:Hrest; [done..|].
  assert (rest = reverse rinner ++ [q; t]) as ->.
  { rewrite <- (reverse_involutive rest), Hrest.
    by rewrite !reverse_cons, <- (assoc_L (++)). }
  clear Hrest. set (inner := reverse rinner). clearbody inner.
  set (k := ((length (f :: inner ++ [q; t]) - 1) / 2 - 1)%nat). clearbody k.
  destruct (inner !! k) as [c|] eqn:Hc; [|done].
  destruct (median3 f c t) as [[f' c'] t'] eqn:Hmed.
  apply median3_spec in Hmed as (Hperm & Hfc & Hct).
  set (M := take k inner ++ q :: drop (S k) inner).
  assert (c :: M ≡ₚ q :: inner) as HM.
  { unfold M. rewrite <- (take_drop_middle inner k c Hc) at 3.
    rewrite <- !Permutation_middle. apply Permutation_swap. }
  destruct (hoare (length M) c'.1 [] M []) as [L R] eqn:Hh.
  pose proof (hoare_perm _ _ _ _ _ _ _ Hh) as HLR.
  apply hoare_bounds in Hh as [HL HR]; [|done|constructor..].
  rewrite app_nil_r in HLR. simpl in HLR.
  assert (length (L ++ R) = length inner) as Hlen.
  { rewrite HLR. apply Permutation_length in HM. simpl in HM. lia. }
  rewrite length_app in Hlen.
  assert (f' :: L ++ c' :: R ++ [t'] ≡ₚ f :: inner ++ [q; t]) as Hall.
  { trans (f' :: c' :: t' :: M).
    { apply perm_skip. rewrite <- Permutation_middle. apply perm_skip.
      rewrite (assoc_L (++)), HLR. symmetry. apply Permutation_cons_append. }
    trans (f :: c :: t :: M).
    { change ([f'; c'; t'] ++ M ≡ₚ [f; c; t] ++ M). by rewrite Hperm. }
    apply perm_skip. trans (t :: c :: M); [apply Permutation_swap|].
    rewrite HM, (Permutation_app_comm inner [q; t]). apply Permutation_swap. }
  assert (Forall (λ z, key_le z c') (f' :: L)) as Hlo by by constructor.
  destruct R as [|x R]; intros [= <- <- <-].
  - split_and!; [done|done| |simpl in *; rewrite length_app; simpl; lia..].
    by repeat constructor.
  - split_and!; [|done| |simpl in *; rewrite ?length_app; simpl; lia..].
    + rewrite <- Hall. simpl. apply perm_skip. f_equiv. apply perm_skip.
      symmetry. apply Permutation_middle.
    + apply Forall_cons in HR as [Hx HR].
      rewrite Forall_app. split; [done|]. by repeat constructor.
Qed.

Lemma introsort_eq heap fuel popped depth l :
  introsort heap fuel popped depth l =
  if popped && (depth <? 0) then argsort heap l
  else if decide (length l ≤ 16)%nat then insertion_sort l
  else
    match fuel, partition l with
    | S fuel, Some (lo, p, hi) =>
        introsort heap fuel (negb (bool_decide (length lo < length hi)%nat))
          (depth - 1) lo
        ++ p :: introsort heap fuel (bool_decide (length lo < length hi)%nat)
                  (depth - 1) hi
    | _, _ => insertion_sort l
    end.
Proof. by destruct fuel. Qed.

Lemma introsort_perm heap fuel popped depth l :
  introsort heap fuel popped depth l ≡ₚ l.
Proof.
  revert popped depth l. induction fuel as [|fuel IH]; intros popped depth l;
    rewrite introsort_eq;
    (destruct (popped && (depth <? 0)); [apply argsort_perm|]);
    (destruct (decide (length l ≤ 16)%nat); [apply insertion_sort_perm|]).
  - apply insertion_sort_perm.
  - destruct (partition l) as [[[lo p] hi]|] eqn:Hp; [|apply insertion_sort_perm].
    apply partition_spec in Hp as (Hperm & _). by rewrite !IH.
Qed.

Lemma sorted_around (lo hi : list (scalar * row)) p :
  Sorted key_le lo → Sorted key_le hi →
  Forall (λ z, key_le z p) lo → Forall (λ z, key_le p z) hi →
  Sorted key_le (lo ++ p :: hi).
Proof.
  intros Hlo Hhi Hlop Hphi. apply StronglySorted_Sorted.
  apply Sorted_StronglySorted in Hlo, Hhi; [|apply _..].
  induction Hlo as [|x lo Hlo IH Hx]; simpl.
  - by constructor.
  - apply Forall_cons in Hlop as [Hxp Hlop]. constructor; [by apply IH|].
    apply Forall_app. split; [done|]. constructor; [done|].
    eapply Forall_impl; [exact Hphi|]. intros z Hz. by etrans.
Qed.

Lemma introsort_sorted heap fuel popped depth l :
  Sorted key_le (introsort heap fuel popped depth l).
Proof.
  revert popped depth l. induction fuel as [|fuel IH]; intros popped depth l;
    rewrite introsort_eq;
    (destruct (popped && (depth <? 0)); [apply argsort_sorted|]);
    (destruct (decide (length l ≤ 16)%nat); [apply insertion_sort_sorted|]).
  - apply insertion_sort_sorted.
  - destruct (partition l) as [[[lo p] hi]|] eqn:Hp;
      [|apply insertion_sort_sorted].
    apply partition_spec in Hp as (_ & Hlo & Hhi & _).
    apply sorted_around; [apply IH..| |]; by rewrite introsort_perm.
Qed.

Lemma quicksort_perm heap l : quicksort heap l ≡ₚ l.
Proof. apply introsort_perm. Qed.

Lemma quicksort_sorted heap l : Sorted key_le (quicksort heap l).
Proof. apply introsort_sorted. Qed.

(** Up to 16 rows the routine is the insertion sort. *)
Lemma quicksort_small heap l :
  (length l ≤ 16)%nat → quicksort heap l = insertion_sort l.
Proof.
  intros Hl. unfold quicksort. rewrite introsort_eq.
  assert ((2 * Z.log2 (Z.of_nat (length l)) <? 0) = false) as ->.
  { apply Z.ltb_ge. pose proof (Z.log2_nonneg (Z.of_nat (length l))). lia. }
  simpl. by rewrite decide_True.
Qed.

(** The partition step is reached with the fuel given: the parts are
    shorter than the segment. *)
Lemma introsort_fuel heap fuel fuel' popped depth l :
  (length l ≤ fuel)%nat → (length l ≤ fuel')%nat →
  introsort heap fuel popped depth l = introsort heap fuel' popped depth l.
Proof.
  revert fuel' popped depth l.
  induction fuel as [|fuel IH]; intros fuel' popped depth l Hf Hf';
    rewrite !(introsort_eq _ _ popped depth l);
    (destruct (popped && (depth <? 0)); [done|]);
    (destruct (decide (length l ≤ 16)%nat); [done|]); [lia|].
  destruct fuel' as [|fuel']; [lia|].
  destruct (partition l) as [[[lo p] hi]|] eqn:Hp; [|done].
  apply partition_spec in Hp as (_ & _ & _ & ? & ?).
  f_equal; [|f_equal]; apply IH; lia.
Qed.

(** Every segment that is partitioned has a middle element. *)
Lemma partition_is_Some l : (4 ≤ length l)%nat → is_Some (partition l).
Proof.
  intros Hl. unfold partition. destruct l as [|f rest]; [simpl in Hl; lia|].
  assert (length (reverse rest) = length rest) as Hr by apply length_reverse.
  destruct (reverse rest) as [|t [|q rinner]];
    [simpl in *; lia..|].
  set (k := ((length (f :: rest) - 1) / 2 - 1)%nat).
  assert (k < length (reverse rinner))%nat as Hk.
  { rewrite length_reverse. unfold k. cbn [length] in *.
    replace (S (length rest) - 1)%nat with (length rest) by lia.
    assert (length rest / 2 < length rest - 1)%nat; [|lia].
    apply Nat.Div0.div_lt_upper_bound. lia. }
  apply lookup_lt_is_Some_2 in Hk as [c ->].
  destruct (median3 f c t) as [[f' c'] t'].
  destruct (hoare _ _ _ _ _) as [L [|x R]]; by eexists.
Qed.

Lemma numpy_quicksort_perm numeric heap l :
  (if forallb (λ a, negb (is_num a)) l.*1
   then quicksort heap l else argsort numeric l) ≡ₚ l.
Proof. destruct (forallb _ _); [apply quicksort_perm|apply argsort_perm]. Qed.

Lemma numpy_quicksort_sorted numeric heap l :
  Sorted key_le (if forallb (λ a, negb (is_num a)) l.*1
                 then quicksort heap l else argsort numeric l).
Proof. destruct (forallb _ _); [apply quicksort_sorted|apply argsort_sorted]. Qed.

(** [kind='quicksort'], the default of [sort_values].  On a column of
    strings NumPy runs the routine above.  On a column of numbers it may
    run a vectorised routine chosen for the processor instead, which is
    not modelled: [numeric] is any sorter. *)
Definition numpy_quicksort (numeric heap : Sorter) : Sorter :=
  mkSorter (λ l, if forallb (λ a, negb (is_num a)) l.*1
                 then quicksort heap l else argsort numeric l)
           (numpy_quicksort_perm numeric heap)
           (numpy_quicksort_sorted numeric heap).

(** * Tactics *)

(** Decides a closed proposition by evaluation. *)
Ltac by_decide := apply (bool_decide_unpack _); vm_compute; exact I.

(** * Basic facts about rows, frames and exceptions *)

Lemma bind_Ok {A B} (m : result A) (f : A → result B) b :
  m ≫= f = Ok b ↔ ∃ a, m = Ok a ∧ f a = Ok b.
Proof.
  destruct m as [a|e]; simpl; split.
  - eauto.
  - by intros (? & [= <-] & ?).
  - done.
  - by intros (? & ? & ?).
Qed.

Lemma decide_elem_of_cons_ne {A} (a c : string) (cols : list string) (x y : A) :
  a ≠ c →
  (if decide (c ∈ a :: cols) then x else y) = (if decide (c ∈ cols) then x else y).
Proof. intros. apply decide_ext. rewrite elem_of_cons. intuition congruence. Qed.

Lemma lookup_row_of cols f c :
  row_of cols f !! c = if decide (c ∈ cols) then f c else None.
Proof.
  unfold row_of. induction cols as [|a cols IH]; csimpl.
  - by rewrite lookup_empty.
  - destruct (f a) as [v|] eqn:Hfa; csimpl.
    + destruct (decide (a = c)) as [->|Hne].
      * rewrite lookup_insert_eq, decide_True by left. done.
      * rewrite lookup_insert_ne, IH by done.
        by rewrite decide_elem_of_cons_ne.
    + rewrite IH. destruct (decide (a = c)) as [->|Hne].
      * rewrite (decide_True (P := c ∈ c :: cols)) by left.
        by case_decide.
      * by rewrite decide_elem_of_cons_ne.
Qed.

(** A row rebuilt under new labels: the cell at a label that renames only
    itself is the cell the old row had there. *)
Lemma lookup_relabelled (cols : list string) (f : string → string) (l : row) k :
  f k = k → (∀ c, c ∈ cols → f c = k → c = k) →
  relabel f cols l !! k = if decide (k ∈ cols) then l !! k else None.
Proof.
  unfold relabel. intros Hk Hinj. induction cols as [|a cols IH]; csimpl.
  - by rewrite lookup_empty.
  - assert (∀ c, c ∈ cols → f c = k → c = k) as Hinj' by set_solver.
    specialize (IH Hinj').
    destruct (l !! a) as [v|] eqn:Hla; csimpl.
    + destruct (decide (f a = k)) as [Hfa|Hfa].
      * assert (a = k) as -> by (apply Hinj; [left|done]).
        rewrite Hfa, lookup_insert_eq, decide_True by left. done.
      * assert (a ≠ k) by congruence.
        rewrite lookup_insert_ne, IH by done.
        by rewrite decide_elem_of_cons_ne.
    + rewrite IH. destruct (decide (a = k)) as [->|Hne].
      * rewrite (decide_True (P := k ∈ k :: cols)) by left.
        by case_decide.
      * by rewrite decide_elem_of_cons_ne.
Qed.

Lemma lookup_relabelled_None (cols : list string) (f : string → string) (l : row) k :
  (∀ c, c ∈ cols → f c ≠ k) → relabel f cols l !! k = None.
Proof.
  unfold relabel. intros Hne. apply not_elem_of_list_to_map_1.
  rewrite list_elem_of_fmap. intros ([k' v] & -> & Hin).
  apply list_elem_of_omap in Hin as (c & Hc & Hv).
  destruct (l !! c); simplify_eq/=. by eapply Hne.
Qed.

Lemma filter_notna_Ok c df out :
  filter_notna c df = Ok out →
  c ∈ columns df ∧
  out = mkDF (columns df) (filter (λ r : row, is_Some (r !! c)) (rows df)).
Proof. unfold filter_notna. case_decide; naive_solver. Qed.

Lemma keyed_elem_of key rs k r :
  (k, r) ∈ keyed key rs ↔ r ∈ rs ∧ r !! key = Some k.
Proof.
  unfold keyed. rewrite list_elem_of_omap. split.
  - intros (r' & Hr' & Hk). destruct (r' !! key) eqn:E; simplify_eq/=. done.
  - intros [Hr Hk]. exists r. by rewrite Hk.
Qed.

Lemma keyed_snd key rs :
  (keyed key rs).*2 = filter (λ r : row, is_Some (r !! key)) rs.
Proof.
  unfold keyed. induction rs as [|r rs IH]; csimpl; [done|].
  rewrite filter_cons. destruct (r !! key) eqn:E; csimpl.
  - by f_equal.
  - done.
Qed.

Lemma partition_by_key key (rs : list row) :
  filter (λ r : row, is_Some (r !! key)) rs
    ++ filter (λ r : row, r !! key = None) rs ≡ₚ rs.
Proof.
  induction rs as [|r rs IH]; simpl; [done|].
  rewrite !filter_cons. destruct (r !! key) eqn:E.
  - rewrite decide_True, decide_False by eauto. simpl. by f_equiv.
  - rewrite decide_False, decide_True by (done || by intros [? ?]).
    rewrite <- Permutation_middle. by f_equiv.
Qed.

Lemma sort_values_Ok S key df out :
  sort_values S key df = Ok out →
  key ∈ columns df ∧ comparable (keyed key (rows df)).*1 = true ∧
  columns out = columns df ∧
  rows out = (argsort S (keyed key (rows df))).*2
             ++ filter (λ r : row, r !! key = None) (rows df).
Proof.
  unfold sort_values. case_decide; [|done].
  destruct (comparable _) eqn:E; [|done]. intros [= <-]. done.
Qed.

Lemma sort_values_perm S key df out :
  sort_values S key df = Ok out → rows out ≡ₚ rows df.
Proof.
  intros (_ & _ & _ & ->)%sort_values_Ok.
  rewrite (argsort_perm S), keyed_snd. apply partition_by_key.
Qed.

Lemma groupby_last_Ok key df out :
  groupby_last key df = Ok out →
  key ∈ columns df ∧
  out = mkDF (key :: filter (λ c, c ≠ key) (columns df))
          ((λ k, <[key := k]>
                   (row_of (filter (λ c, c ≠ key) (columns df))
                      (λ c, last_valid c (group_of key k (rows df)))))
             <$> group_keys key (rows df)).
Proof. unfold groupby_last. case_decide; naive_solver. Qed.

Lemma select_Ok cols df out :
  select cols df = Ok out →
  cols ⊆ columns df ∧
  out = mkDF cols ((λ r : row, row_of cols (λ c, r !! c)) <$> rows df).
Proof.
  unfold select. destruct (filter _ cols) as [|c ?] eqn:E; [|done].
  intros [= <-]. split; [|done].
  intros c Hc. destruct (decide (c ∈ columns df)) as [|Hn]; [done|].
  assert (c ∈ filter (λ c, c ∉ columns df) cols) as Hin
    by (by apply list_elem_of_filter).
  rewrite E in Hin. by apply not_elem_of_nil in Hin.
Qed.

(** * Group keys *)

Lemma group_keys_elem_of key rs k :
  k ∈ group_keys key rs ↔ ∃ r : row, r ∈ rs ∧ r !! key = Some k.
Proof.
  unfold group_keys.
  by rewrite merge_sort_Permutation, elem_of_remove_dups, list_elem_of_omap.
Qed.

Lemma group_keys_NoDup key rs : NoDup (group_keys key rs).
Proof.
  unfold group_keys. rewrite merge_sort_Permutation. apply NoDup_remove_dups.
Qed.

Lemma group_keys_Sorted key rs : Sorted scalar_le (group_keys key rs).
Proof. apply (Sorted_merge_sort scalar_le). Qed.

(** The groups do not depend on the order of the rows. *)
Lemma group_keys_perm key rs rs' :
  rs ≡ₚ rs' → group_keys key rs = group_keys key rs'.
Proof.
  intros Hp. apply (Sorted_unique scalar_le); try apply group_keys_Sorted.
  apply NoDup_Permutation; try apply group_keys_NoDup.
  intros k. rewrite !group_keys_elem_of. by setoid_rewrite Hp.
Qed.

(** Rows that already carry distinct keys in ascending order are their own
    group keys. *)
Lemma group_keys_fixed key (rs : list row) ks :
  omap (λ r : row, r !! key) rs = ks → NoDup ks → Sorted scalar_le ks →
  group_keys key rs = ks.
Proof.
  intros Hks Hnd Hs. apply (Sorted_unique scalar_le);
    [apply group_keys_Sorted|done|].
  unfold group_keys. rewrite merge_sort_Permutation, Hks.
  apply NoDup_Permutation; [apply NoDup_remove_dups|done|].
  intros k. apply elem_of_remove_dups.
Qed.

Lemma last_valid_singleton c (r : row) : last_valid c [r] = r !! c.
Proof. unfold last_valid. csimpl. by destruct (r !! c). Qed.

Lemma last_valid_is_Some c (g : list row) r :
  r ∈ g → is_Some (r !! c) → is_Some (last_valid c g).
Proof.
  intros Hr [v Hv]. unfold last_valid. apply last_is_Some.
  intros Hnil. assert (v ∈ omap (λ r : row, r !! c) g) as Hin.
  { apply list_elem_of_omap. eauto. }
  rewrite Hnil in Hin. by apply not_elem_of_nil in Hin.
Qed.

(** When the last row of a group has an entry, that entry is the last valid
    one. *)
Lemma last_valid_last c (g : list row) r :
  last g = Some r → is_Some (r !! c) → last_valid c g = r !! c.
Proof.
  intros (g' & ->)%last_Some [v Hv]. unfold last_valid.
  rewrite omap_app. csimpl. rewrite Hv. csimpl. by rewrite last_snoc.
Qed.

(** * The Position Reducer *)

Lemma ordering_key_cases cols :
  (ordering_key cols = Some "date" ∧ "date" ∈ cols) ∨
  (ordering_key cols = Some "lap_number" ∧ ("date" ∉ cols) ∧ "lap_number" ∈ cols) ∨
  (ordering_key cols = None ∧ ("date" ∉ cols) ∧ ("lap_number" ∉ cols)).
Proof. unfold ordering_key. repeat case_decide; auto. Qed.

(** The reducer, step by step: the survivors are put in order (by
    [sort_values] on the session's key, or not at all), and one row per
    driver is built from the ordered events. *)
Lemma position_reducer_Ok S pos out :
  F1.position_reducer S pos = Ok out →
  ∃ ordered,
    "position" ∈ columns pos ∧ "driver_number" ∈ columns pos ∧
    match ordering_key (columns pos) with
    | Some k => sort_values S k (mkDF (columns pos) (survivors pos))
                = Ok (mkDF (columns pos) ordered)
    | None => ordered = survivors pos
    end ∧
    out = mkDF ("driver_number" :: filter (λ c, c ≠ "driver_number") (columns pos))
            (reduced_row (columns pos) ordered <$> distinct_drivers ordered).
Proof.
  unfold F1.position_reducer.
  intros (p1 & (Hpos & ->)%filter_notna_Ok & (p2 & Hsort & Hg)%bind_Ok)%bind_Ok.
  simpl in Hsort. fold (survivors pos) in Hsort.
  assert (columns p2 = columns pos ∧
          match ordering_key (columns pos) with
          | Some k => sort_values S k (mkDF (columns pos) (survivors pos))
                      = Ok (mkDF (columns pos) (rows p2))
          | None => rows p2 = survivors pos
          end) as [Hcols Hord].
  { unfold ordering_key. repeat case_decide; simplify_eq/=; try done.
    all: destruct (sort_values_Ok _ _ _ _ Hsort) as (_ & _ & Hc & _);
      simpl in Hc; split; [done|]; rewrite Hsort; destruct p2; simpl in *;
      by subst. }
  apply groupby_last_Ok in Hg as [Hdn ->]. rewrite Hcols in *.
  exists (rows p2). done.
Qed.

Lemma ordered_perm S pos ordered :
  match ordering_key (columns pos) with
  | Some k => sort_values S k (mkDF (columns pos) (survivors pos))
              = Ok (mkDF (columns pos) ordered)
  | None => ordered = survivors pos
  end →
  ordered ≡ₚ survivors pos.
Proof.
  destruct (ordering_key (columns pos)) as [k|].
  - intros H%sort_values_perm. done.
  - by intros ->.
Qed.

Lemma survivors_position pos r : r ∈ survivors pos → is_Some (r !! "position").
Proof. unfold survivors. rewrite list_elem_of_filter. tauto. Qed.

Lemma reduced_row_driver cols ordered d :
  reduced_row cols ordered d !! "driver_number" = Some d.
Proof. unfold reduced_row. apply lookup_insert_eq. Qed.

Lemma reduced_row_lookup cols ordered d c :
  c ≠ "driver_number" →
  reduced_row cols ordered d !! c
  = if decide (c ∈ cols) then last_valid c (events_of d ordered) else None.
Proof.
  intros Hc. unfold reduced_row.
  rewrite lookup_insert_ne, lookup_row_of by done.
  apply decide_ext. rewrite list_elem_of_filter. tauto.
Qed.

Lemma distinct_drivers_elem_of rs d :
  d ∈ distinct_drivers rs ↔ ∃ r : row, r ∈ rs ∧ r !! "driver_number" = Some d.
Proof. apply group_keys_elem_of. Qed.

Lemma events_of_elem_of d rs r :
  r ∈ events_of d rs ↔ r ∈ rs ∧ r !! "driver_number" = Some d.
Proof. unfold events_of, group_of. rewrite list_elem_of_filter. tauto. Qed.

(** Every reduced row has a position: the driver has a surviving event. *)
Lemma reduced_row_position cols ordered d :
  "position" ∈ cols →
  (∀ r, r ∈ ordered → is_Some (r !! "position")) →
  d ∈ distinct_drivers ordered →
  is_Some (reduced_row cols ordered d !! "position").
Proof.
  intros Hpos Hall (r & Hr & Hd)%distinct_drivers_elem_of.
  rewrite reduced_row_lookup, decide_True by done.
  apply (last_valid_is_Some _ _ r); [|by apply Hall].
  by apply events_of_elem_of.
Qed.

(** * Sorting again what is sorted, grouping again what is grouped *)

Lemma filter_all {A} (P : A → Prop) `{∀ x, Decision (P x)} (l : list A) :
  (∀ x, x ∈ l → P x) → filter P l = l.
Proof.
  induction l as [|x l IH]; intros Hall; [done|].
  rewrite filter_cons_True by (apply Hall; left).
  f_equal. apply IH. intros y Hy. apply Hall. by right.
Qed.

Lemma filter_none {A} (P : A → Prop) `{∀ x, Decision (P x)} (l : list A) :
  (∀ x, x ∈ l → ¬ P x) → filter P l = [].
Proof.
  induction l as [|x l IH]; intros Hall; [done|].
  rewrite filter_cons_False by (apply Hall; left).
  apply IH. intros y Hy. apply Hall. by right.
Qed.

Lemma comparable_subseteq (l l' : list scalar) :
  comparable l = true → l' ⊆ l → comparable l' = true.
Proof.
  unfold comparable. rewrite !orb_true_iff, !forallb_forall.
  intros [Hl|Hl] Hsub; [left|right]; intros x Hx%list_elem_of_In;
    apply Hl, list_elem_of_In, Hsub, Hx.
Qed.

Lemma sort_values_succeeds S key df :
  key ∈ columns df → comparable (keyed key (rows df)).*1 = true →
  sort_values S key df
  = Ok (mkDF (columns df)
          ((argsort S (keyed key (rows df))).*2
           ++ filter (λ r : row, r !! key = None) (rows df))).
Proof.
  intros Hk Hc. unfold sort_values. by rewrite decide_True, Hc by done.
Qed.

Lemma keyed_keys_elem_of key rs k :
  k ∈ (keyed key rs).*1 ↔ ∃ r : row, r ∈ rs ∧ r !! key = Some k.
Proof.
  rewrite list_elem_of_fmap. split.
  - intros ([k' r] & -> & Hin). apply keyed_elem_of in Hin. eauto.
  - intros (r & Hr & Hk). exists (k, r). split; [done|]. by apply keyed_elem_of.
Qed.

(** Of rows built one per distinct key, the group of a key is its row. *)
Lemma group_of_built key (f : scalar → row) (ks : list scalar) k :
  (∀ k', f k' !! key = Some k') → NoDup ks → k ∈ ks →
  group_of key k (f <$> ks) = [f k].
Proof.
  intros Hf Hnd Hk. unfold group_of.
  induction Hnd as [|k' ks Hnotin Hnd IH]; [by apply not_elem_of_nil in Hk|].
  rewrite fmap_cons. apply elem_of_cons in Hk as [->|Hk].
  - rewrite filter_cons_True by apply Hf. f_equal.
    apply filter_none. intros r (k'' & -> & Hin)%list_elem_of_fmap.
    rewrite Hf. intros [= ->]. done.
  - rewrite filter_cons_False; [by apply IH|].
    rewrite Hf. intros [= ->]. done.
Qed.

Lemma omap_built key (f : scalar → row) (ks : list scalar) :
  (∀ k', f k' !! key = Some k') → omap (λ r : row, r !! key) (f <$> ks) = ks.
Proof.
  intros Hf. induction ks as [|k ks IH]; csimpl; [done|].
  rewrite Hf. csimpl. by f_equal.
Qed.

(** A reduced row, reduced again on its own, is itself. *)
Lemma reduced_row_again cols ordered d :
  <["driver_number" := d]>
    (row_of (filter (λ c, c ≠ "driver_number") cols)
       (λ c, last_valid c [reduced_row cols ordered d]))
  = reduced_row cols ordered d.
Proof.
  apply map_eq. intros c. destruct (decide (c = "driver_number")) as [->|Hc].
  - by rewrite lookup_insert_eq, reduced_row_driver.
  - rewrite lookup_insert_ne, lookup_row_of by done.
    rewrite last_valid_singleton, reduced_row_lookup by done.
    destruct (decide (c ∈ filter _ cols)) as [Hin|Hin]; [done|].
    rewrite decide_False; [done|]. intros Hc'. apply Hin.
    by apply list_elem_of_filter.
Qed.

(** C9.  The Position Reducer is idempotent: whenever it returns a frame,
    running it on that frame returns the same frame, whatever routine
    [sort_values] sorts with. *)
Theorem position_reducer_idempotent S pos out :
  F1.position_reducer S pos = Ok out → F1.position_reducer S out = Ok out.
Proof.
  intros Hred.
  destruct (position_reducer_Ok _ _ _ Hred) as (ordered & Hpos & Hdn & Hord & ->).
  pose proof (ordered_perm _ _ _ Hord) as Hperm.
  set (cols := columns pos) in *.
  set (others := filter (λ c, c ≠ "driver_number") cols).
  set (ks := distinct_drivers ordered).
  assert (∀ r, r ∈ ordered → is_Some (r !! "position")) as Hall.
  { intros r Hr. rewrite Hperm in Hr. by eapply survivors_position. }
  assert ("position" ∈ others) as Hpos'.
  { by apply list_elem_of_filter. }
  (* the filter keeps every reduced row *)
  unfold F1.position_reducer. apply bind_Ok.
  exists (mkDF ("driver_number" :: others) (reduced_row cols ordered <$> ks)).
  split.
  { unfold filter_notna. simpl. rewrite decide_True by (by right).
    do 2 f_equal. apply filter_all.
    intros r (d & -> & Hd)%list_elem_of_fmap. by apply reduced_row_position. }
  (* the sort permutes them *)
  assert (∃ rows2, rows2 ≡ₚ reduced_row cols ordered <$> ks ∧
    (if decide ("date" ∈ "driver_number" :: others)
     then sort_values S "date" (mkDF ("driver_number" :: others) (reduced_row cols ordered <$> ks))
     else if decide ("lap_number" ∈ "driver_number" :: others)
     then sort_values S "lap_number" (mkDF ("driver_number" :: others) (reduced_row cols ordered <$> ks))
     else Ok (mkDF ("driver_number" :: others) (reduced_row cols ordered <$> ks)))
    = Ok (mkDF ("driver_number" :: others) rows2)) as (rows2 & Hperm2 & Hsort2).
  { assert (∀ k, k ≠ "driver_number" →
              ordering_key cols = Some k → k ∈ "driver_number" :: others →
              ∃ rows2, rows2 ≡ₚ reduced_row cols ordered <$> ks ∧
                sort_values S k (mkDF ("driver_number" :: others) (reduced_row cols ordered <$> ks))
                = Ok (mkDF ("driver_number" :: others) rows2)) as Hsorted.
    { intros k Hk Hkey Hin. rewrite Hkey in Hord.
      apply sort_values_Ok in Hord as (_ & Hcmp & _ & _). simpl in Hcmp.
      eexists. split; [|apply sort_values_succeeds; [done|]].
      - simpl. rewrite (argsort_perm S), keyed_snd. apply partition_by_key.
      - simpl. eapply comparable_subseteq; [exact Hcmp|].
        intros v (r & (d & -> & Hd)%list_elem_of_fmap & Hv)%keyed_keys_elem_of.
        rewrite reduced_row_lookup in Hv by done.
        case_decide; [|done]. unfold last_valid in Hv.
        apply last_Some_elem_of, list_elem_of_omap in Hv as (r & Hr & Hv).
        apply keyed_keys_elem_of. exists r. split; [|done].
        apply events_of_elem_of in Hr as [Hr _]. by rewrite <- Hperm. }
    destruct (ordering_key_cases cols) as [[Hk Hin]|[(Hk & Hnd & Hin)|(Hk & Hnd & Hnl)]].
    - rewrite decide_True by (right; by apply list_elem_of_filter).
      apply Hsorted; [done|done|]. right. by apply list_elem_of_filter.
    - rewrite decide_False, decide_True.
      + apply Hsorted; [done|done|]. right. by apply list_elem_of_filter.
      + right. by apply list_elem_of_filter.
      + intros [|[_ ?]%list_elem_of_filter]%elem_of_cons; done.
    - rewrite !decide_False.
      + eauto.
      + intros [|[_ ?]%list_elem_of_filter]%elem_of_cons; done.
      + intros [|[_ ?]%list_elem_of_filter]%elem_of_cons; done. }
  apply bind_Ok. eexists. split; [exact Hsort2|].
  (* the groups are the reduced rows, one each *)
  unfold groupby_last. simpl.
  assert (filter (λ c, c ≠ "driver_number") ("driver_number" :: others) = others) as ->.
  { rewrite filter_cons_False by (by intros ?). apply filter_all.
    by intros c [? _]%list_elem_of_filter. }
  assert (group_keys "driver_number" rows2 = ks) as ->.
  { rewrite (group_keys_perm _ _ _ Hperm2). apply group_keys_fixed.
    - apply omap_built, reduced_row_driver.
    - apply group_keys_NoDup.
    - apply group_keys_Sorted. }
  do 2 f_equal. apply list_fmap_ext. intros _ d Hd%list_elem_of_lookup_2.
  assert (group_of "driver_number" d rows2 = [reduced_row cols ordered d]) as ->.
  { apply Permutation_singleton_r. unfold group_of. rewrite Hperm2.
    fold (group_of "driver_number" d (reduced_row cols ordered <$> ks)).
    rewrite group_of_built; [done|apply reduced_row_driver|apply group_keys_NoDup|done]. }
  apply reduced_row_again.
Qed.

(** * The order [sort_values] leaves *)

#[global] Instance okey_le_trans : Transitive okey_le.
Proof.
  intros [a|] [b|] [c|]; simpl; try done. apply scalar_le_trans.
Qed.

Lemma StronglySorted_pairwise {A} (R : relation A) (l : list A) :
  (∀ x y, x ∈ l → y ∈ l → R x y) → StronglySorted R l.
Proof.
  induction l as [|x l IH]; intros Hall; constructor.
  - apply IH. intros y z Hy Hz. apply Hall; by right.
  - apply Forall_forall. intros y Hy. apply Hall; [left|by right].
Qed.

Lemma argsort_elem_of S l x : x ∈ argsort S l ↔ x ∈ l.
Proof. by rewrite (argsort_perm S). Qed.

Lemma argsort_StronglySorted S l : StronglySorted key_le (argsort S l).
Proof. apply Sorted_StronglySorted; [apply _|apply argsort_sorted]. Qed.

(** After [sort_values] the rows ascend by key, the missing keys last. *)
Lemma sort_values_StronglySorted S key df out :
  sort_values S key df = Ok out →
  StronglySorted (λ a b : row, okey_le (a !! key) (b !! key)) (rows out).
Proof.
  intros (_ & _ & _ & ->)%sort_values_Ok.
  apply StronglySorted_app. split_and!.
  - intros a b _ [Hb _]%list_elem_of_filter. rewrite Hb. by destruct (a !! key).
  - pose proof (argsort_StronglySorted S (keyed key (rows df))) as Hs.
    assert (Forall (λ x : scalar * row, x.2 !! key = Some x.1)
              (argsort S (keyed key (rows df)))) as Hall.
    { apply Forall_forall. intros [k r] Hin%argsort_elem_of.
      by apply keyed_elem_of in Hin as [_ ?]. }
    induction Hs as [|x l Hs IH Hx]; csimpl; constructor.
    + apply IH. by apply Forall_cons in Hall as [_ ?].
    + apply Forall_cons in Hall as [Hx' Hall].
      apply Forall_fmap, Forall_forall. intros y Hy. simpl.
      rewrite Forall_forall in Hx, Hall.
      rewrite Hx', (Hall y Hy). simpl. by apply Hx.
  - apply StronglySorted_pairwise.
    intros a b _ [Hb _]%list_elem_of_filter. rewrite Hb. by destruct (a !! key).
Qed.

Lemma position_reducer_ordered_by S pos ordered :
  match ordering_key (columns pos) with
  | Some k => sort_values S k (mkDF (columns pos) (survivors pos))
              = Ok (mkDF (columns pos) ordered)
  | None => ordered = survivors pos
  end →
  ordered_by (ordering_key (columns pos)) (survivors pos) ordered.
Proof.
  intros Hord. pose proof (ordered_perm _ _ _ Hord) as Hperm.
  unfold ordered_by. destruct (ordering_key (columns pos)) as [k|]; [|done].
  split; [done|].
  apply StronglySorted_Sorted.
  by apply (sort_values_StronglySorted _ _ _ _ Hord).
Qed.

(** The last event of a driver gives the reduced row every entry it has. *)
Lemma reduced_row_last_event cols ordered d e c :
  last (events_of d ordered) = Some e → c ∈ cols → is_Some (e !! c) →
  reduced_row cols ordered d !! c = e !! c.
Proof.
  intros Hlast Hc Hsome. destruct (decide (c = "driver_number")) as [->|Hne].
  - rewrite reduced_row_driver.
    apply last_Some_elem_of, events_of_elem_of in Hlast as [_ ?]. done.
  - rewrite reduced_row_lookup, decide_True by done.
    by apply last_valid_last.
Qed.

(** C3, as amended.  The reducer discards the events without a position,
    puts the others in the order of the session's key ([date] when the
    column is present, else [lap_number], else arrival order), and emits one
    row per distinct driver, in which each column holds the last entry of
    that driver's events that is not missing.  The row has every entry the
    driver's last event has, the position among them. *)
Theorem position_reducer_last_valid S pos out :
  F1.position_reducer S pos = Ok out →
  ∃ ordered,
    ordered_by (ordering_key (columns pos)) (survivors pos) ordered ∧
    rows out = reduced_row (columns pos) ordered
                 <$> distinct_drivers (survivors pos) ∧
    ∀ d, d ∈ distinct_drivers (survivors pos) →
      ∃ e, last (events_of d ordered) = Some e ∧
           is_Some (e !! "position") ∧
           ∀ c, c ∈ columns pos → is_Some (e !! c) →
                reduced_row (columns pos) ordered d !! c = e !! c.
Proof.
  intros Hred.
  destruct (position_reducer_Ok _ _ _ Hred) as (ordered & Hpos & Hdn & Hord & ->).
  pose proof (ordered_perm _ _ _ Hord) as Hperm.
  exists ordered. split_and!.
  - by apply (position_reducer_ordered_by S).
  - simpl. unfold distinct_drivers. by rewrite (group_keys_perm _ _ _ Hperm).
  - intros d (r & Hr & Hd)%distinct_drivers_elem_of.
    assert (is_Some (last (events_of d ordered))) as [e He].
    { apply last_is_Some. intros Hnil.
      assert (r ∈ events_of d ordered) as Hin
        by (apply events_of_elem_of; by rewrite Hperm).
      rewrite Hnil in Hin. by apply not_elem_of_nil in Hin. }
    exists e. split_and!; [done| |].
    + apply last_Some_elem_of, events_of_elem_of in He as [He _].
      rewrite Hperm in He. by eapply survivors_position.
    + intros c Hc Hsome. by apply reduced_row_last_event.
Qed.

(** * Evaluating the reducer on concrete feeds *)

(** On keys that are pairwise distinct every sorter returns the same list. *)
Lemma argsort_distinct_keys S l :
  NoDup l.*1 → argsort S l = insertion_sort l.
Proof.
  intros Hnd.
  apply (StronglySorted_unique_strong key_le).
  - intros x y Hx%argsort_elem_of Hy Hxy Hyx.
    rewrite insertion_sort_perm in Hy.
    assert (x.1 = y.1) as Hk by (by apply (anti_symm scalar_le)).
    apply list_elem_of_lookup in Hx as [i Hi], Hy as [j Hj].
    assert (i = j) as ->.
    { eapply NoDup_lookup; [exact Hnd| |].
      - by rewrite list_lookup_fmap, Hi.
      - by rewrite list_lookup_fmap, Hj, Hk. }
    congruence.
  - apply argsort_StronglySorted.
  - apply (argsort_StronglySorted stable_sort).
  - by rewrite (argsort_perm S), insertion_sort_perm.
Qed.

Lemma reduce_gap_then_none S :
  F1.position_reducer S gap_then_none_positions
  = Ok (mkDF ["driver_number"; "position"; "date"; "gap"]
          [event [("driver_number", Num 1); ("position", Num 3);
                  ("date", Str "t2"); ("gap", Str "+1.0")]]).
Proof.
  unfold F1.position_reducer.
  assert (filter_notna "position" gap_then_none_positions
          = Ok gap_then_none_positions) as -> by (vm_compute; reflexivity).
  simpl. unfold sort_values. simpl.
  rewrite argsort_distinct_keys by by_decide.
  vm_compute. reflexivity.
Qed.

(** * Ties *)

Lemma insert_keyed_filter k x l :
  filter (λ y : scalar * row, y.1 = k) (insert_keyed x l)
  = filter (λ y : scalar * row, y.1 = k) (x :: l).
Proof.
  induction l as [|y l IH]; simpl; [done|].
  destruct (scalar_leb x.1 y.1) eqn:Hxy; [reflexivity|].
  rewrite (filter_cons _ y), IH, !(filter_cons _ x), (filter_cons _ y).
  simpl.
  destruct (decide (x.1 = k)) as [Hx|Hx]; [|reflexivity].
  destruct (decide (y.1 = k)) as [Hy|Hy]; [|reflexivity].
  rewrite Hx, Hy in Hxy.
  pose proof (scalar_le_refl k) as Hk. unfold scalar_le in Hk. congruence.
Qed.

Lemma stable_sort_stable : stable stable_sort.
Proof.
  intros l k. simpl. induction l as [|x l IH]; simpl; [done|].
  by rewrite insert_keyed_filter, !(filter_cons _ x), IH.
Qed.

Lemma StronglySorted_filter {A} (R : relation A) (P : A → Prop)
    `{∀ x, Decision (P x)} (l : list A) :
  StronglySorted R l → StronglySorted R (filter P l).
Proof.
  induction 1 as [|x l Hl IH Hx]; [constructor|].
  rewrite filter_cons. case_decide; [|done].
  constructor; [done|].
  apply Forall_forall. intros y [_ Hy]%list_elem_of_filter.
  rewrite Forall_forall in Hx. by apply Hx.
Qed.

Lemma last_filter_keep {A} (P : A → Prop) `{∀ x, Decision (P x)} (l : list A) x :
  last l = Some x → P x → last (filter P l) = Some x.
Proof.
  intros (l' & ->)%last_Some HP.
  by rewrite filter_app, filter_cons_True, filter_nil, last_snoc.
Qed.

(** In a sorted list the last element has a largest key. *)
Lemma last_StronglySorted (l : list (scalar * row)) x y :
  StronglySorted key_le l → last l = Some x → y ∈ l → key_le y x.
Proof.
  intros Hs (l' & ->)%last_Some Hy.
  apply elem_of_app in Hy as [Hy|Hy].
  - apply StronglySorted_app in Hs as (Hle & _ & _). apply Hle; [done|left].
  - apply list_elem_of_singleton in Hy as ->. unfold key_le. apply scalar_le_refl.
Qed.

Lemma keyed_filter key (P : row → Prop) `{∀ r, Decision (P r)} (rs : list row) :
  filter (λ x : scalar * row, P x.2) (keyed key rs) = keyed key (filter P rs).
Proof.
  unfold keyed. induction rs as [|r rs IH]; csimpl; [done|].
  rewrite (filter_cons P). destruct (r !! key) as [k|] eqn:Hk; csimpl.
  - rewrite filter_cons. simpl. case_decide; csimpl; rewrite ?Hk; csimpl; by rewrite IH.
  - case_decide; csimpl; rewrite ?Hk; csimpl; by rewrite IH.
Qed.

Lemma keyed_same_key key k (rs : list row) :
  (∀ r, r ∈ rs → r !! key = Some k) → keyed key rs = (λ r, (k, r)) <$> rs.
Proof.
  unfold keyed. induction rs as [|r rs IH]; intros Hall; csimpl; [done|].
  rewrite (Hall r) by left. csimpl. f_equal. apply IH.
  intros r' Hr'. apply Hall. by right.
Qed.

Lemma keyed_filter_key key k (rs : list row) :
  filter (λ x : scalar * row, x.1 = k) (keyed key rs)
  = keyed key (filter (λ r : row, r !! key = Some k) rs).
Proof.
  unfold keyed. induction rs as [|r rs IH]; csimpl; [done|].
  rewrite (filter_cons _ r). destruct (r !! key) as [k'|] eqn:Hk; csimpl.
  - rewrite filter_cons. simpl.
    destruct (decide (k' = k)) as [->|Hne].
    + rewrite decide_True by done. csimpl. rewrite Hk. csimpl. by rewrite IH.
    + rewrite decide_False by congruence. done.
  - done.
Qed.

Lemma keyed_filter_driver key d (rs : list row) :
  filter (λ x : scalar * row, x.2 !! "driver_number" = Some d) (keyed key rs)
  = keyed key (filter (λ r : row, r !! "driver_number" = Some d) rs).
Proof. exact (keyed_filter key (λ r : row, r !! "driver_number" = Some d) rs). Qed.

(** With a stable sort, or with no sort at all, the driver's last event
    after ordering is the one that arrived last among the driver's events of
    greatest key. *)
Lemma stable_last_event S pos ordered d B :
  ordering_key (columns pos) = None ∨ stable S →
  match ordering_key (columns pos) with
  | Some k => sort_values S k (mkDF (columns pos) (survivors pos))
              = Ok (mkDF (columns pos) ordered)
  | None => ordered = survivors pos
  end →
  last (filter (λ e : row, key_of (columns pos) e = key_of (columns pos) B)
          (events_of d (survivors pos))) = Some B →
  (∀ e, e ∈ events_of d (survivors pos) →
        okey_le (key_of (columns pos) e) (key_of (columns pos) B)) →
  last (events_of d ordered) = Some B.
Proof.
  intros Hstable Hord Hlast Hmax. unfold key_of in *.
  destruct (ordering_key (columns pos)) as [k|]; simpl in *.
  2:{ subst ordered. rewrite filter_all in Hlast; done. }
  destruct Hstable as [?|Hstable]; [done|].
  apply sort_values_Ok in Hord as (_ & _ & _ & Hrows). simpl in Hrows.
  subst ordered. unfold events_of, group_of in *. rewrite filter_app.
  assert (B ∈ filter (λ r : row, r !! "driver_number" = Some d) (survivors pos)) as HB.
  { apply last_Some_elem_of, list_elem_of_filter in Hlast. tauto. }
  destruct (B !! k) as [kB|] eqn:HkB.
  - (* B has a key: no event of the driver is without one *)
    assert (filter (λ r : row, r !! "driver_number" = Some d) (filter (λ r : row, r !! k = None) (survivors pos)) = []) as ->.
    { apply filter_none. intros e [He Hin]%list_elem_of_filter Hd.
      specialize (Hmax e). rewrite He in Hmax. apply Hmax.
      by apply list_elem_of_filter. }
    rewrite app_nil_r.
    set (ks := keyed k (survivors pos)).
    set (g := filter (λ x : scalar * row, x.2 !! "driver_number" = Some d) (argsort S ks)).
    assert (filter (λ r : row, r !! "driver_number" = Some d) (argsort S ks).*2 = g.*2) as ->.
    { subst g. generalize (argsort S ks). intros l.
      induction l as [|x l IH]; csimpl; [done|].
      rewrite !filter_cons. simpl. case_decide; csimpl; by rewrite IH. }
    assert ((kB, B) ∈ g) as HBg.
    { apply list_elem_of_filter. split.
      - simpl. apply list_elem_of_filter in HB. tauto.
      - apply argsort_elem_of, keyed_elem_of. split; [|done].
        apply list_elem_of_filter in HB. tauto. }
    assert (is_Some (last g)) as [[kx rx] Hx].
    { apply last_is_Some. intros Hnil. rewrite Hnil in HBg.
      by apply not_elem_of_nil in HBg. }
    assert (StronglySorted key_le g) as Hsorted.
    { apply StronglySorted_filter, argsort_StronglySorted. }
    assert (kx = kB) as ->.
    { apply (anti_symm scalar_le).
      - pose proof (last_Some_elem_of _ _ Hx) as Hin.
        apply list_elem_of_filter in Hin as [Hd Hin]. simpl in Hd.
        apply argsort_elem_of, keyed_elem_of in Hin as [Hin Hk].
        specialize (Hmax rx). rewrite Hk in Hmax. apply Hmax.
        by apply list_elem_of_filter.
      - apply (last_StronglySorted g (kx, rx) (kB, B)); done. }
    assert (last (filter (λ y : scalar * row, y.1 = kB) g) = Some (kB, rx)) as Hx'.
    { by apply last_filter_keep. }
    assert (filter (λ y : scalar * row, y.1 = kB) g
            = (λ r, (kB, r)) <$> filter (λ e : row, e !! k = Some kB)
                                   (filter (λ r : row, r !! "driver_number" = Some d) (survivors pos))) as Heq.
    { subst g.
      trans (filter (λ x : scalar * row, x.2 !! "driver_number" = Some d)
               (filter (λ y : scalar * row, y.1 = kB) (argsort S ks))).
      { rewrite !list_filter_filter. apply list_filter_iff. intros; tauto. }
      rewrite Hstable. subst ks.
      rewrite <- (keyed_same_key k).
      2:{ intros r [Hr _]%list_elem_of_filter. done. }
      rewrite keyed_filter_key, keyed_filter_driver. f_equal.
      rewrite !list_filter_filter. apply list_filter_iff. intros; tauto. }
    rewrite Heq, fmap_last in Hx'.
    rewrite fmap_last, Hx. simpl.
    destruct (last (filter _ (filter (λ r : row, r !! "driver_number" = Some d) (survivors pos)))) as [b|] eqn:Hb;
      simplify_eq/=.
    done.
  - (* B has no key: it is the last of the rows without one *)
    rewrite last_app.
    assert (last (filter (λ r : row, r !! "driver_number" = Some d)
                    (filter (λ r : row, r !! k = None) (survivors pos)))
            = Some B) as ->; [|done].
    rewrite <- Hlast. f_equal.
    rewrite !list_filter_filter. apply list_filter_iff. intros; tauto.
Qed.

#[global] Instance okey_le_dec a b : Decision (okey_le a b).
Proof. destruct a, b; simpl; apply _. Defined.

Lemma keyed_length key rs :
  length (keyed key rs) = length (filter (λ r : row, is_Some (r !! key)) rs).
Proof. by rewrite <- keyed_snd, length_fmap. Qed.

(** On up to 16 string keys [sort_values] with the default kind is
    [sort_values] with the stable kind. *)
Lemma sort_values_small numeric heap key df :
  (length (keyed key (rows df)) ≤ 16)%nat →
  forallb (λ a, negb (is_num a)) (keyed key (rows df)).*1 = true →
  sort_values (numpy_quicksort numeric heap) key df = sort_values stable_sort key df.
Proof.
  intros Hlen Hstr. unfold sort_values. simpl. rewrite Hstr.
  by rewrite quicksort_small.
Qed.

#[global] Instance text_key_dec cols e : Decision (text_key cols e).
Proof. unfold text_key. destruct (key_of cols e) as [[]|]; apply _. Defined.

(** C4, as amended.  Which of several events of one driver with the same
    ordering key is kept is decided by the order [sort_values] leaves among
    equal keys.  When the session has no ordering key and nothing is
    sorted, or when at most 16 of the surviving events have an ordering key
    and no key is a number, so that [sort_values]' default quicksort sorts
    them by insertion, the event [B] that arrived last among the driver's
    events of greatest key is the one kept: the output row of the driver
    has every entry [B] has. *)
Theorem quicksort_keeps_later_event numeric heap pos out d B :
  ordering_key (columns pos) = None ∨
  ((length (with_key pos) ≤ 16)%nat ∧
   ∀ e, e ∈ survivors pos → text_key (columns pos) e) →
  F1.position_reducer (numpy_quicksort numeric heap) pos = Ok out →
  last (filter (λ e : row, key_of (columns pos) e = key_of (columns pos) B)
          (events_of d (survivors pos))) = Some B →
  (∀ e, e ∈ events_of d (survivors pos) →
        okey_le (key_of (columns pos) e) (key_of (columns pos) B)) →
  ∃ o, o ∈ rows out ∧ o !! "driver_number" = Some d ∧
       ∀ c, c ∈ columns pos → is_Some (B !! c) → o !! c = B !! c.
Proof.
  intros Hsmall Hred Hlast Hmax.
  destruct (position_reducer_Ok _ _ _ Hred) as (ordered & Hpos & Hdn & Hord & ->).
  assert (last (events_of d ordered) = Some B) as HB.
  { apply (stable_last_event stable_sort pos); [|clear Hlast Hmax|done..].
    - destruct Hsmall as [?|_]; [by left|right; apply stable_sort_stable].
    - unfold with_key, text_key, key_of in Hsmall.
      destruct (ordering_key (columns pos)) as [k|]; [|done]. simpl in Hsmall.
      destruct Hsmall as [?|[Hlen Hstr]]; [done|].
      rewrite <- Hord. symmetry. apply sort_values_small; simpl.
      + by rewrite keyed_length.
      + apply forallb_forall. intros k' Hk'%list_elem_of_In.
        apply list_elem_of_fmap in Hk' as ([k'' e] & -> & [He Hk]%keyed_elem_of).
        simpl. specialize (Hstr e He). rewrite Hk in Hstr. by destruct k''. }
  exists (reduced_row (columns pos) ordered d). split_and!.
  - simpl. apply list_elem_of_fmap. exists d. split; [done|].
    apply distinct_drivers_elem_of. exists B.
    by apply last_Some_elem_of, events_of_elem_of in HB.
  - apply reduced_row_driver.
  - intros c Hc Hsome. by apply reduced_row_last_event.
Qed.

(** A concrete input that meets the hypotheses of the theorem applied:
    scenario 5 of the spec, arrival order A, B with one [date]; B is
    kept. *)
Lemma quicksort_keeps_later_event_witness :
  ∃ o, o ∈ rows (mkDF ["driver_number"; "position"; "date"] [event_B]) ∧
       o !! "driver_number" = Some (Num 5) ∧
       ∀ c, c ∈ columns scenario5_positions → is_Some (event_B !! c) →
            o !! c = event_B !! c.
Proof.
  apply (quicksort_keeps_later_event stable_sort stable_sort scenario5_positions
           (mkDF ["driver_number"; "position"; "date"] [event_B]) (Num 5) event_B).
  - right. split; [vm_compute; lia|].
    apply Forall_forall. by_decide.
  - vm_compute. reflexivity.
  - vm_compute. reflexivity.
  - apply Forall_forall. by_decide.
Defined.

(** Seventeen rows of one key leave the routine in the order that NumPy's
    [argsort] gives for seventeen equal strings: the partition step has
    moved rows of equal key past one another. *)
Lemma quicksort_seventeen_equal_keys heap :
  (quicksort heap
     ((λ i, (Str "t", {["i" := Num i]}))
        <$> [0; 1; 2; 3; 4; 5; 6; 7; 8; 9; 10; 11; 12; 13; 14; 15; 16])).*2
  = (λ i, {["i" := Num i]})
      <$> [0; 14; 13; 12; 11; 10; 9; 15; 8; 6; 5; 4; 3; 2; 1; 7; 16].
Proof. vm_compute. reflexivity. Qed.

(** C4, counterexample.  Driver 5 has seventeen events: sixteen with the
    date [t2], at the positions 1 to 16 in arrival order, then one with the
    earlier date [t1].  The event at position 16 is the one that arrived
    last among those of the greatest date.  [sort_values] partitions the
    seventeen rows, which leaves the event at position 9 last, and the
    reducer keeps that one. *)
Lemma quicksort_keeps_earlier_event :
  (∀ numeric heap,
     F1.position_reducer (numpy_quicksort numeric heap) late_tie_positions
     = Ok (mkDF ["driver_number"; "position"; "date"] [late_tie_event 9])) ∧
  last (filter (λ e : row, key_of (columns late_tie_positions) e
                           = key_of (columns late_tie_positions) (late_tie_event 16))
          (events_of (Num 5) (survivors late_tie_positions)))
  = Some (late_tie_event 16) ∧
  (∀ e, e ∈ events_of (Num 5) (survivors late_tie_positions) →
        okey_le (key_of (columns late_tie_positions) e)
          (key_of (columns late_tie_positions) (late_tie_event 16))) ∧
  late_tie_event 9 !! "position" ≠ late_tie_event 16 !! "position" ∧
  length (with_key late_tie_positions) = 17%nat.
Proof.
  split_and!.
  - intros numeric heap. vm_compute. reflexivity.
  - vm_compute. reflexivity.
  - apply Forall_forall. by_decide.
  - vm_compute. discriminate.
  - vm_compute. reflexivity.
Qed.

(** * The reducer on the feeds above *)

(** C3, counterexample.  Driver 1 has two events; the later one has no
    gap.  Whatever the sorting routine, the reducer returns a row with the
    later event's position and date and the earlier event's gap: a row that
    is none of the input events. *)
Lemma position_reducer_mixes_events :
  (∀ S, F1.position_reducer S gap_then_none_positions
        = Ok (mkDF ["driver_number"; "position"; "date"; "gap"]
                [event [("driver_number", Num 1); ("position", Num 3);
                        ("date", Str "t2"); ("gap", Str "+1.0")]])) ∧
  event [("driver_number", Num 1); ("position", Num 3);
         ("date", Str "t2"); ("gap", Str "+1.0")]
    ∉ rows gap_then_none_positions.
Proof.
  split; [apply reduce_gap_then_none|].
  by_decide.
Qed.

(** A concrete input that meets the hypotheses of the theorem applied. *)
Lemma position_reducer_last_valid_witness :
  ∃ ordered,
    ordered_by (ordering_key (columns gap_then_none_positions))
      (survivors gap_then_none_positions) ordered ∧
    rows (mkDF ["driver_number"; "position"; "date"; "gap"]
            [event [("driver_number", Num 1); ("position", Num 3);
                    ("date", Str "t2"); ("gap", Str "+1.0")]])
    = reduced_row (columns gap_then_none_positions) ordered
        <$> distinct_drivers (survivors gap_then_none_positions) ∧
    ∀ d, d ∈ distinct_drivers (survivors gap_then_none_positions) →
      ∃ e, last (events_of d ordered) = Some e ∧
           is_Some (e !! "position") ∧
           ∀ c, c ∈ columns gap_then_none_positions → is_Some (e !! c) →
                reduced_row (columns gap_then_none_positions) ordered d !! c
                = e !! c.
Proof.
  apply (position_reducer_last_valid stable_sort gap_then_none_positions).
  vm_compute. reflexivity.
Defined.

(** A concrete input that meets the hypotheses of the theorem applied. *)
Lemma position_reducer_idempotent_witness :
  F1.position_reducer stable_sort
    (mkDF ["driver_number"; "position"; "date"; "gap"]
       [event [("driver_number", Num 1); ("position", Num 1); ("date", Str "t2")]])
  = Ok (mkDF ["driver_number"; "position"; "date"; "gap"]
          [event [("driver_number", Num 1); ("position", Num 1); ("date", Str "t2")]]).
Proof.
  apply (position_reducer_idempotent stable_sort scenario1_positions).
  vm_compute. reflexivity.
Defined.

(** * The left join *)

Lemma last_char_append c a s :
  last_char (c +:+ String a s) = last_char (String a s).
Proof.
  induction c as [|b c IH]; [done|].
  change (String b c +:+ String a s) with (String b (c +:+ String a s)).
  destruct c; exact IH.
Qed.

Lemma plain_not_suffixed k c :
  plain k → c +:+ "_x" ≠ k ∧ c +:+ "_y" ≠ k.
Proof.
  intros [Hx Hy]. split; intros <-.
  - apply Hx. by rewrite last_char_append.
  - apply Hy. by rewrite last_char_append.
Qed.

Lemma merge_left_Ok left right on df :
  merge_left left right on = Ok df →
  on ∈ columns left ∧ on ∈ columns right ∧
  columns df
  = (left_label on (filter (λ c, c ≠ on) (columns right)) <$> columns left)
    ++ (right_label (filter (λ c, c ≠ on) (columns left))
          <$> filter (λ c, c ≠ on) (columns right)) ∧
  rows df = rows left ≫= joined left right on.
Proof.
  unfold merge_left. repeat case_decide; try done.
  destruct (keys_clash left right on); [done|]. by intros [= <-].
Qed.

(** The left row is never dropped. *)
Lemma joined_nonempty left right on l : joined left right on l ≠ [].
Proof.
  unfold joined. by destruct (filter _ (rows right)).
Qed.

(** A plain label that the right frame does not have keeps, in every joined
    row, the entry of the left row. *)
Lemma joined_lookup left right on l m k :
  plain k → k ∉ filter (λ c, c ≠ on) (columns right) →
  m ∈ joined left right on l →
  m !! k = if decide (k ∈ columns left) then l !! k else None.
Proof.
  intros Hplain Hk Hm.
  set (ro := filter (λ c, c ≠ on) (columns right)) in *.
  set (lo := filter (λ c, c ≠ on) (columns left)).
  assert (relabel (left_label on ro) (columns left) l !! k
          = if decide (k ∈ columns left) then l !! k else None) as Hl.
  { apply lookup_relabelled.
    - unfold left_label. repeat case_decide; done.
    - intros c _. unfold left_label. repeat case_decide; try done.
      intros Hc. exfalso. apply (plain_not_suffixed k c) in Hplain as [Hp _].
      by apply Hp. }
  assert (∀ r, relabel (right_label lo) ro r !! k = None) as Hr.
  { intros r. apply lookup_relabelled_None. intros c Hc.
    unfold right_label. destruct (decide (c ∈ lo)).
    - apply (plain_not_suffixed k c) in Hplain as [_ Hp]. exact Hp.
    - by intros ->. }
  unfold joined in Hm. fold ro lo in Hm.
  destruct (filter _ (rows right)) as [|r0 ms].
  - apply list_elem_of_singleton in Hm as ->. done.
  - apply list_elem_of_fmap in Hm as (r & -> & _).
    by rewrite lookup_union_l.
Qed.

(** A matched row gets the right row's entries under the right labels. *)
Lemma right_label_id lo c : c ∉ lo → right_label lo c = c.
Proof. intros. unfold right_label. by rewrite decide_False. Qed.

(** * The Classification Assembler *)

Lemma output_row_lookup gc m c :
  c ∈ output_columns → c ≠ "gap_to_leader" → output_row gc m !! c = m !! c.
Proof.
  intros Hc Hne. unfold output_row.
  by rewrite lookup_row_of, decide_True, lookup_insert_ne by done.
Qed.

Lemma output_row_gap gc m :
  output_row gc m !! "gap_to_leader" = Some (F1.format_gap gc m).
Proof.
  unfold output_row. rewrite lookup_row_of, decide_True, lookup_insert_eq; [done|].
  unfold output_columns. set_solver.
Qed.

Lemma classification_assembler_Ok S red drv out :
  F1.classification_assembler S red drv = Ok out →
  ∃ sorted merged,
    sort_values S "position" red = Ok sorted ∧
    merge_left sorted drv "driver_number" = Ok merged ∧
    "position" ∈ columns merged ∧
    out = mkDF output_columns
            (output_row (F1.gap_col merged) <$> rows merged).
Proof.
  unfold F1.classification_assembler.
  intros (sorted & Hs & (merged & Hm & Hsel)%bind_Ok)%bind_Ok.
  apply select_Ok in Hsel as [Hsub ->].
  exists sorted, merged. split_and!; [done|done| |].
  - assert ("position" ∈ columns (assign "gap_to_leader"
              (F1.format_gap (F1.gap_col merged)) merged)) as Hin.
    { apply Hsub. left. }
    unfold assign in Hin. simpl in Hin. case_decide; [done|].
    apply elem_of_app in Hin as [?|Hin]; [done|].
    by apply list_elem_of_singleton in Hin.
  - unfold assign. simpl. by rewrite <- list_fmap_compose.
Qed.

Lemma finishing_order_Ok S pos drivers out :
  empty pos = false → F1.finishing_order S pos drivers = Ok out →
  ∃ drv red,
    F1.list_by_session S drivers = Ok drv ∧
    F1.position_reducer S pos = Ok red ∧
    F1.classification_assembler S red drv = Ok out.
Proof.
  unfold F1.finishing_order. intros Hne (drv & Hd & H)%bind_Ok.
  rewrite Hne in H. apply bind_Ok in H as (red & Hr & Ha). eauto.
Qed.

(** C5, as amended.  In every output of [finishing_order] for a position
    feed that is not empty, each row whose position is 1 has the gap label
    ["Leader"]. *)
Theorem leader_rows_are_labelled S pos drivers out :
  empty pos = false → F1.finishing_order S pos drivers = Ok out →
  ∀ o, o ∈ rows out → o !! "position" = Some (Num 1) →
       o !! "gap_to_leader" = Some (Str "Leader").
Proof.
  intros Hne (drv & red & _ & _ & Ha)%finishing_order_Ok; [|done].
  apply classification_assembler_Ok in Ha as (sorted & merged & _ & _ & _ & ->).
  intros o (m & -> & _)%list_elem_of_fmap Hpos.
  rewrite output_row_lookup in Hpos by (unfold output_columns; set_solver).
  rewrite output_row_gap. unfold F1.format_gap. by rewrite decide_True.
Qed.

(** * The order of the output *)

Lemma position_reducer_has_position S pos red :
  F1.position_reducer S pos = Ok red →
  ∀ r, r ∈ rows red → is_Some (r !! "position").
Proof.
  intros Hred.
  destruct (position_reducer_Ok _ _ _ Hred) as (ordered & Hpos & Hdn & Hord & ->).
  pose proof (ordered_perm _ _ _ Hord) as Hperm.
  intros r (d & -> & Hd)%list_elem_of_fmap.
  apply reduced_row_position; [done| |done].
  intros e He. rewrite Hperm in He. by eapply survivors_position.
Qed.

Lemma plain_position : plain "position".
Proof. split; discriminate. Qed.

Lemma plain_driver_number : plain "driver_number".
Proof. split; discriminate. Qed.

(** When the join still has a column [position], the right frame had
    none: the positions of the join are those of the left rows. *)
Lemma merged_position_left left right merged :
  "position" ∈ columns left →
  merge_left left right "driver_number" = Ok merged →
  "position" ∈ columns merged →
  "position" ∉ filter (λ c, c ≠ "driver_number") (columns right).
Proof.
  intros Hleft (_ & _ & Hcols & _)%merge_left_Ok Hin Hro.
  rewrite Hcols in Hin. apply elem_of_app in Hin as [Hin|Hin].
  - apply list_elem_of_fmap in Hin as (c & Hc & _).
    unfold left_label in Hc. repeat case_decide; simplify_eq.
    destruct (plain_not_suffixed "position" c plain_position); congruence.
  - apply list_elem_of_fmap in Hin as (c & Hc & Hcro).
    unfold right_label in Hc. case_decide as Hlo; simplify_eq.
    + destruct (plain_not_suffixed "position" c plain_position); congruence.
    + apply Hlo. by apply list_elem_of_filter.
Qed.

Lemma position_le_proper (a a' b b' : row) :
  a' !! "position" = a !! "position" → b' !! "position" = b !! "position" →
  position_le a b → position_le a' b'.
Proof. unfold position_le. by intros -> ->. Qed.

Lemma position_le_same (a b : row) :
  a !! "position" = b !! "position" → is_Some (b !! "position") →
  position_le a b.
Proof.
  unfold position_le. intros -> [x ->]. apply scalar_le_refl.
Qed.

Lemma bind_StronglySorted (g : row → list row) (ls : list row) :
  (∀ l m, l ∈ ls → m ∈ g l → m !! "position" = l !! "position") →
  (∀ l, l ∈ ls → is_Some (l !! "position")) →
  StronglySorted position_le ls →
  StronglySorted position_le (ls ≫= g).
Proof.
  intros Hg Hsome Hs. induction Hs as [|l ls Hs IH Hl]; [constructor|].
  rewrite bind_cons. apply StronglySorted_app. split_and!.
  - intros m1 m2 Hm1 (l2 & Hm2 & Hl2)%list_elem_of_bind.
    rewrite Forall_forall in Hl.
    apply (position_le_proper l m1 l2 m2).
    + apply Hg; [left|done].
    + apply Hg; [by right|done].
    + by apply Hl.
  - apply StronglySorted_pairwise. intros m1 m2 Hm1 Hm2.
    apply position_le_same.
    + rewrite (Hg l m1), (Hg l m2); done || left.
    + rewrite (Hg l m2) by (done || left). apply Hsome. left.
  - apply IH.
    + intros l' m Hl' Hm. apply Hg; [by right|done].
    + intros l' Hl'. apply Hsome. by right.
Qed.

(** After [sort_values("position")] rows that all have a position ascend
    by it. *)
Lemma sorted_by_position S df sorted :
  (∀ r, r ∈ rows df → is_Some (r !! "position")) →
  sort_values S "position" df = Ok sorted →
  StronglySorted position_le (rows sorted).
Proof.
  intros Hall Hs.
  pose proof (sort_values_StronglySorted _ _ _ _ Hs) as Hsorted.
  pose proof (sort_values_perm _ _ _ _ Hs) as Hperm.
  assert (Forall (λ r : row, is_Some (r !! "position")) (rows sorted)) as Hall'.
  { apply Forall_forall. intros r Hr. apply Hall. by rewrite <- Hperm. }
  clear Hs Hperm Hall.
  induction Hsorted as [|r rs Hrs IH Hr]; constructor.
  - apply IH. by apply Forall_cons in Hall' as [_ ?].
  - apply Forall_cons in Hall' as [[x Hx] Hall'].
    rewrite Forall_forall in Hr, Hall'. apply Forall_forall.
    intros r' Hr'. specialize (Hr r' Hr'). destruct (Hall' r' Hr') as [y Hy].
    unfold position_le. rewrite Hx, Hy. by rewrite Hx, Hy in Hr.
Qed.

(** C8, as amended.  For a position feed that is not empty, the output of
    [finishing_order] has exactly the five columns [position],
    [driver_number], [full_name], [team_name], [gap_to_leader], every row
    has a position, and the rows ascend by position.  (For an empty feed
    the feed itself is returned.) *)
Theorem output_columns_and_order S pos drivers out :
  empty pos = false → F1.finishing_order S pos drivers = Ok out →
  columns out = ["position"; "driver_number"; "full_name"; "team_name";
                 "gap_to_leader"] ∧
  Forall (λ o : row, is_Some (o !! "position")) (rows out) ∧
  Sorted position_le (rows out).
Proof.
  intros Hne (drv & red & _ & Hred & Ha)%finishing_order_Ok; [|done].
  apply classification_assembler_Ok in Ha
    as (sorted & merged & Hs & Hm & Hpos & ->).
  pose proof (position_reducer_has_position _ _ _ Hred) as Hall.
  pose proof (sort_values_perm _ _ _ _ Hs) as Hperm.
  destruct (sort_values_Ok _ _ _ _ Hs) as (Hin & _ & Hcols & _).
  assert ("position" ∈ columns sorted) as Hin' by (by rewrite Hcols).
  pose proof (merged_position_left _ _ _ Hin' Hm Hpos) as Hro.
  assert (∀ l m, l ∈ rows sorted →
            m ∈ joined sorted drv "driver_number" l →
            m !! "position" = l !! "position") as Hjoin.
  { intros l m _ Hmj.
    rewrite (joined_lookup _ _ _ _ _ _ plain_position Hro Hmj).
    by rewrite decide_True. }
  assert (∀ l, l ∈ rows sorted → is_Some (l !! "position")) as Hall'.
  { intros l Hl. apply Hall. by rewrite <- Hperm. }
  assert (∀ m, output_row (F1.gap_col merged) m !! "position" = m !! "position")
    as Hout.
  { intros m. apply output_row_lookup; [|done]. unfold output_columns. set_solver. }
  apply merge_left_Ok in Hm as (_ & _ & _ & Hrows).
  split_and!; [done| |]; simpl; rewrite Hrows.
  - apply Forall_fmap, Forall_forall.
    intros m (l & Hmj & Hl)%list_elem_of_bind. simpl.
    rewrite Hout, (Hjoin l m Hl Hmj). by apply Hall'.
  - apply StronglySorted_Sorted.
    apply (StronglySorted_fmap _ position_le position_le).
    { intros x y. apply position_le_proper; by rewrite Hout. }
    apply bind_StronglySorted; [done|done|].
    by apply (sorted_by_position S red).
Qed.

(** * The Gap Formatting Rule *)

Lemma plain_gap : plain "gap".
Proof. split; discriminate. Qed.

Lemma plain_interval : plain "interval".
Proof. split; discriminate. Qed.

(** A plain label that the right frame does not have is a column of the
    join exactly when it is a column of the left frame. *)
Lemma merged_columns_plain left right on merged k :
  merge_left left right on = Ok merged →
  plain k → k ∉ filter (λ c, c ≠ on) (columns right) →
  k ∈ columns merged ↔ k ∈ columns left.
Proof.
  intros (_ & _ & -> & _)%merge_left_Ok Hplain Hro.
  rewrite elem_of_app, !list_elem_of_fmap. split.
  - intros [(c & -> & Hc)|(c & -> & Hc)].
    + unfold left_label in *.
      destruct (decide (c = on)); [done|].
      destruct (decide (c ∈ _)); [|done].
      exfalso. by destruct (plain_not_suffixed _ c Hplain) as [H1 _].
    + exfalso. unfold right_label in *.
      destruct (decide (c ∈ _)); [|done].
      by destruct (plain_not_suffixed _ c Hplain) as [_ H2].
  - intros Hk. left. exists k. split; [|done].
    unfold left_label. repeat case_decide; done.
Qed.

(** The roster that reaches the join has the three roster columns. *)
Lemma list_by_session_columns S drivers drv :
  fetched drivers → F1.list_by_session S drivers = Ok drv →
  "driver_number" ∈ columns drv →
  columns drv = ["driver_number"; "full_name"; "team_name"].
Proof.
  unfold F1.list_by_session, fetched. intros Hf Hl Hin.
  destruct (empty drivers) eqn:He.
  - simplify_eq. unfold empty in He. apply bool_decide_eq_true in He.
    assert (columns drv = []) as Hnil by (destruct He; auto).
    rewrite Hnil in Hin. by apply not_elem_of_nil in Hin.
  - apply bind_Ok in Hl as (df & [_ ->]%select_Ok & Hs).
    by apply sort_values_Ok in Hs as (_ & _ & -> & _).
Qed.

Lemma position_reducer_columns S pos red :
  F1.position_reducer S pos = Ok red →
  ∀ k, k ≠ "driver_number" → k ∈ columns red ↔ k ∈ columns pos.
Proof.
  intros Hred.
  destruct (position_reducer_Ok _ _ _ Hred) as (ordered & _ & _ & _ & ->).
  intros k Hk. simpl. rewrite elem_of_cons, list_elem_of_filter. tauto.
Qed.

(** C2.  For a position feed that is not empty and a roster as [fetch]
    returns it, every output row of [finishing_order] comes from a row [p]
    of the reduced positions, with its position and driver number, and its
    [gap_to_leader] is what the Gap Formatting Rule gives for [p]: "Leader"
    at position 1; else "N/A" when the feed has neither a [gap] nor an
    [interval] column or [p] has no entry in the designated one; else that
    entry, as it is. *)
Theorem gap_to_leader_follows_rule S pos drivers out :
  empty pos = false → fetched drivers →
  F1.finishing_order S pos drivers = Ok out →
  ∃ red, F1.position_reducer S pos = Ok red ∧
    ∀ o, o ∈ rows out →
      ∃ p, p ∈ rows red ∧
           o !! "position" = p !! "position" ∧
           o !! "driver_number" = p !! "driver_number" ∧
           o !! "gap_to_leader" = Some (gap_formatting_rule (columns pos) p).
Proof.
  intros Hne Hf (drv & red & Hdrv & Hred & Ha)%finishing_order_Ok; [|done].
  exists red. split; [done|].
  apply classification_assembler_Ok in Ha
    as (sorted & merged & Hs & Hm & Hpos & ->).
  pose proof (sort_values_perm _ _ _ _ Hs) as Hperm.
  destruct (sort_values_Ok _ _ _ _ Hs) as (Hin & _ & Hcols & _).
  destruct (merge_left_Ok _ _ _ _ Hm) as (Hdn & Hdn' & _ & Hrows).
  pose proof (list_by_session_columns _ _ _ Hf Hdrv Hdn') as Hdcols.
  assert (filter (λ c, c ≠ "driver_number") (columns drv)
          = ["full_name"; "team_name"]) as Hro by (by rewrite Hdcols).
  assert (∀ k, k ∈ ["position"; "driver_number"; "gap"; "interval"] →
            plain k ∧ k ∉ filter (λ c, c ≠ "driver_number") (columns drv))
    as Hplain.
  { intros k Hk. rewrite Hro. split.
    - repeat (apply elem_of_cons in Hk as [->|Hk]); try (split; discriminate).
      by apply not_elem_of_nil in Hk.
    - repeat (apply elem_of_cons in Hk as [->|Hk]);
        try by_decide.
      by apply not_elem_of_nil in Hk. }
  assert (∀ k, k ∈ ["gap"; "interval"] → k ∈ columns merged ↔ k ∈ columns pos)
    as Hgapcols.
  { intros k Hk.
    destruct (Hplain k) as [Hp Hr].
    { repeat (apply elem_of_cons in Hk as [->|Hk]); [by_decide..|].
      by apply not_elem_of_nil in Hk. }
    rewrite (merged_columns_plain _ _ _ _ _ Hm Hp Hr), Hcols.
    apply (position_reducer_columns _ _ _ Hred).
    intros ->. revert Hk. by_decide. }
  assert (F1.gap_col merged = designated_gap_column (columns pos)) as Hgc.
  { unfold F1.gap_col, designated_gap_column.
    assert ("gap" ∈ columns merged ↔ "gap" ∈ columns pos) as Hg
      by (apply Hgapcols; by_decide).
    assert ("interval" ∈ columns merged ↔ "interval" ∈ columns pos) as Hi
      by (apply Hgapcols; by_decide).
    clear -Hg Hi. repeat case_decide; try done; tauto. }
  simpl. rewrite Hrows.
  intros o (m & -> & (l & Hmj & Hl)%list_elem_of_bind)%list_elem_of_fmap.
  assert (∀ k, k ∈ ["position"; "driver_number"; "gap"; "interval"] →
            m !! k = if decide (k ∈ columns sorted) then l !! k else None)
    as Hlook.
  { intros k Hk. destruct (Hplain k Hk) as [Hp Hr].
    by apply (joined_lookup sorted drv "driver_number" l). }
  exists l. split_and!.
  - by rewrite <- Hperm.
  - rewrite output_row_lookup by by_decide.
    rewrite Hlook by by_decide. by rewrite decide_True by (by rewrite Hcols).
  - rewrite output_row_lookup by by_decide.
    rewrite Hlook by by_decide. by rewrite decide_True.
  - rewrite output_row_gap. f_equal.
    unfold F1.format_gap, gap_formatting_rule. rewrite Hgc.
    rewrite (Hlook "position") by by_decide.
    rewrite (decide_True (P := "position" ∈ columns sorted)) by (by rewrite Hcols).
    destruct (decide (l !! "position" = Some (Num 1))); [done|].
    unfold designated_gap_column.
    destruct (decide ("gap" ∈ columns pos)) as [Hg|Hg].
    + rewrite (Hlook "gap") by by_decide.
      rewrite decide_True; [by destruct (l !! "gap")|].
      rewrite Hcols. apply (position_reducer_columns _ _ _ Hred); done.
    + destruct (decide ("interval" ∈ columns pos)) as [Hi|Hi]; [|done].
      rewrite (Hlook "interval") by by_decide.
      rewrite decide_True; [by destruct (l !! "interval")|].
      rewrite Hcols. apply (position_reducer_columns _ _ _ Hred); done.
Qed.

(** * Evaluation for every sorting routine *)

(** On pairwise distinct keys [sort_values] does not depend on the
    routine. *)
Lemma sort_values_distinct_keys S key df :
  NoDup (keyed key (rows df)).*1 →
  sort_values S key df = sort_values stable_sort key df.
Proof.
  intros Hnd. unfold sort_values. by rewrite (argsort_distinct_keys S).
Qed.

Lemma bind_Ok_eq {A B} (f : A → result B) a : Ok a ≫= f = f a.
Proof. done. Qed.

Lemma bind_Raise_eq {A B} (f : A → result B) e : Raise e ≫= f = Raise e.
Proof. done. Qed.

(** Runs [finishing_order] on closed frames step by step, for an arbitrary
    sorter [S]: each call whose arguments are known is evaluated, and each
    [sort_values] on distinct keys is replaced by the stable one. *)
Ltac closed_wrt S t := lazymatch t with context [S] => fail | _ => idtac end.

Ltac eval_closed m :=
  let r := eval vm_compute in m in
  lazymatch r with
  | Ok ?v =>
      let x := fresh "df" in
      let E := fresh in
      pose (x := v);
      assert (E : m = Ok x) by (vm_compute; reflexivity);
      rewrite E; clear E
  | _ =>
      let E := fresh in
      assert (E : m = r) by (vm_compute; reflexivity);
      rewrite E; clear E
  end.

Ltac eval_step S :=
  first
  [ rewrite bind_Ok_eq
  | rewrite bind_Raise_eq
  | match goal with
    | |- context [sort_values S ?k ?df] =>
        closed_wrt S df;
        rewrite (sort_values_distinct_keys S k df) by by_decide
    end
  | match goal with
    | |- context [@mbind result _ _ _ _ ?m] =>
        closed_wrt S m;
        lazymatch m with Ok _ => fail | Raise _ => fail | _ => idtac end;
        eval_closed m
    end
  | match goal with
    | |- context [empty ?df] =>
        closed_wrt S df;
        let v := eval vm_compute in (empty df) in
        let E := fresh in
        assert (E : empty df = v) by (vm_compute; reflexivity);
        rewrite E; clear E
    | |- context [@decide ?P ?d] =>
        closed_wrt S P;
        first [ rewrite (@decide_True _ P d) by by_decide
              | rewrite (@decide_False _ P d) by by_decide ]
    end ].

Ltac any_sorter S :=
  unfold F1.finishing_order, F1.list_by_session, F1.position_reducer,
    F1.classification_assembler;
  repeat eval_step S;
  lazymatch goal with
  | |- context [S] => fail "the result depends on the sorting routine"
  | _ => vm_compute; reflexivity
  end.

(** * The roster fetch fails *)

(** C1.  Failing input: one classified driver, and a roster fetch that
    failed ([fetch] returned [pd.DataFrame()]).  [list_by_session] hands the
    frame without columns on, and the merge on [driver_number] raises
    [KeyError]: no row is emitted. *)
Theorem unmatched_roster_raises S :
  F1.finishing_order S scenario2_positions no_data
  = Raise (KeyError "driver_number").
Proof. any_sorter S. Qed.

(** C6.  Failing input: two classified drivers and the same failed roster
    fetch.  Two distinct drivers pass the filter, and [finishing_order]
    raises instead of returning two rows. *)
Theorem two_drivers_no_roster_raises S :
  length (distinct_drivers (survivors two_drivers_positions)) = 2%nat ∧
  F1.finishing_order S two_drivers_positions no_data
  = Raise (KeyError "driver_number").
Proof. split; [vm_compute; reflexivity|any_sorter S]. Qed.

(** C7.  Failing input: a feed whose only event has no position, and the
    failed roster fetch.  No event passes the filter, and [finishing_order]
    raises instead of returning an empty result. *)
Theorem all_null_positions_no_roster_raises S :
  survivors scenario3_positions = [] ∧
  F1.finishing_order S scenario3_positions no_data
  = Raise (KeyError "driver_number").
Proof. split; [vm_compute; reflexivity|any_sorter S]. Qed.

(** * Scenarios of the spec *)

Lemma finishing_order_scenario1 S :
  F1.finishing_order S scenario1_positions scenario1_roster
  = Ok (mkDF output_columns
          [event [("position", Num 1); ("driver_number", Num 1);
                  ("full_name", Str "A"); ("team_name", Str "TeamA");
                  ("gap_to_leader", Str "Leader")]]).
Proof. any_sorter S. Qed.

Lemma finishing_order_scenario2 S :
  F1.finishing_order S scenario2_positions scenario1_roster
  = Ok (mkDF output_columns
          [event [("position", Num 2); ("driver_number", Num 2);
                  ("gap_to_leader", Str "+1.2s")]]).
Proof. any_sorter S. Qed.

Lemma finishing_order_scenario3 S :
  F1.finishing_order S scenario3_positions scenario1_roster
  = Ok (mkDF output_columns []).
Proof. any_sorter S. Qed.

Lemma finishing_order_no_data S :
  F1.finishing_order S no_data scenario1_roster = Ok no_data.
Proof. any_sorter S. Qed.

(** C5, counterexample.  Scenario 2 of the spec: the only classified driver
    is in second place.  The output is not empty and has no row at
    position 1. *)
Lemma output_without_leader :
  (∀ S, F1.finishing_order S scenario2_positions scenario1_roster
        = Ok (mkDF output_columns
                [event [("position", Num 2); ("driver_number", Num 2);
                        ("gap_to_leader", Str "+1.2s")]])) ∧
  ∀ o, o ∈ [event [("position", Num 2); ("driver_number", Num 2);
                   ("gap_to_leader", Str "+1.2s")]] →
       o !! "position" ≠ Some (Num 1).
Proof.
  split; [apply finishing_order_scenario2|].
  intros o ->%list_elem_of_singleton. vm_compute. discriminate.
Qed.

(** A concrete input that meets the hypotheses of the theorem applied. *)
Lemma leader_rows_are_labelled_witness :
  event [("position", Num 1); ("driver_number", Num 1);
         ("full_name", Str "A"); ("team_name", Str "TeamA");
         ("gap_to_leader", Str "Leader")] !! "gap_to_leader"
  = Some (Str "Leader").
Proof.
  apply (leader_rows_are_labelled stable_sort scenario1_positions
           scenario1_roster
           (mkDF output_columns
              [event [("position", Num 1); ("driver_number", Num 1);
                      ("full_name", Str "A"); ("team_name", Str "TeamA");
                      ("gap_to_leader", Str "Leader")]])).
  - reflexivity.
  - vm_compute. reflexivity.
  - left.
  - vm_compute. reflexivity.
Defined.

(** C8, counterexample.  For the empty feed ([pd.DataFrame()]) the early
    return hands the feed back: the output has no columns, not the five. *)
Lemma empty_feed_output_has_no_columns :
  (∀ S, F1.finishing_order S no_data scenario1_roster = Ok no_data) ∧
  columns no_data
  ≠ ["position"; "driver_number"; "full_name"; "team_name"; "gap_to_leader"].
Proof. split; [apply finishing_order_no_data|discriminate]. Qed.

(** A concrete input that meets the hypotheses of the theorem applied. *)
Lemma output_columns_and_order_witness :
  columns (mkDF output_columns
             [event [("position", Num 1); ("driver_number", Num 1);
                     ("full_name", Str "A"); ("team_name", Str "TeamA");
                     ("gap_to_leader", Str "Leader")]])
  = ["position"; "driver_number"; "full_name"; "team_name"; "gap_to_leader"] ∧
  Forall (λ o : row, is_Some (o !! "position"))
    (rows (mkDF output_columns
             [event [("position", Num 1); ("driver_number", Num 1);
                     ("full_name", Str "A"); ("team_name", Str "TeamA");
                     ("gap_to_leader", Str "Leader")]])) ∧
  Sorted position_le
    (rows (mkDF output_columns
             [event [("position", Num 1); ("driver_number", Num 1);
                     ("full_name", Str "A"); ("team_name", Str "TeamA");
                     ("gap_to_leader", Str "Leader")]])).
Proof.
  apply (output_columns_and_order stable_sort scenario1_positions scenario1_roster).
  - reflexivity.
  - vm_compute. reflexivity.
Defined.

(** A concrete input that meets the hypotheses of the theorem applied. *)
Lemma gap_to_leader_follows_rule_witness :
  ∃ red, F1.position_reducer stable_sort scenario2_positions = Ok red ∧
    ∀ o, o ∈ rows (mkDF output_columns
                     [event [("position", Num 2); ("driver_number", Num 2);
                             ("gap_to_leader", Str "+1.2s")]]) →
      ∃ p, p ∈ rows red ∧
           o !! "position" = p !! "position" ∧
           o !! "driver_number" = p !! "driver_number" ∧
           o !! "gap_to_leader"
           = Some (gap_formatting_rule (columns scenario2_positions) p).
Proof.
  apply (gap_to_leader_follows_rule stable_sort scenario2_positions
           scenario1_roster).
  - reflexivity.
  - intros H. discriminate H.
  - vm_compute. reflexivity.
Defined.

(** * The two source files *)

Lemma list_by_session_files_agree S df :
  F1.list_by_session S df = F1_comments.list_by_session S df.
Proof. reflexivity. Qed.

(** C10.  [finishing_order] of [f1.py] and of [f1_comments.py] return the
    same frame, or raise the same exception, on every pair of fetched
    frames and for every sorting routine. *)
Theorem finishing_order_files_agree S pos drivers :
  F1.finishing_order S pos drivers = F1_comments.finishing_order S pos drivers.
Proof.
  unfold F1.finishing_order, F1_comments.finishing_order.
  rewrite list_by_session_files_agree.
  destruct (F1_comments.list_by_session S drivers) as [drv|e]; [|done].
  rewrite !bind_Ok_eq. destruct (empty pos); [done|].
  unfold F1.position_reducer, F1.classification_assembler.
  destruct (filter_notna "position" pos) as [p1|e]; [|done].
  rewrite !bind_Ok_eq.
  destruct (if decide ("date" ∈ columns p1) then sort_values S "date" p1
            else if decide ("lap_number" ∈ columns p1)
                 then sort_values S "lap_number" p1 else Ok p1)
    as [p2|e]; [|done].
  rewrite !bind_Ok_eq.
  destruct (groupby_last "driver_number" p2) as [p3|e]; [|done].
  rewrite !bind_Ok_eq.
  destruct (sort_values S "position" p3) as [p4|e]; [|done].
  rewrite !bind_Ok_eq.
  destruct (merge_left p4 drv "driver_number") as [df|e]; [|done].
  reflexivity.
Qed.

(** * One row per classified driver *)

Lemma drop_duplicates_rows_elem_of (rs : list row) r :
  r ∈ drop_duplicates_rows rs ↔ r ∈ rs.
Proof.
  induction rs as [|r' rs IH]; simpl; [done|].
  rewrite !elem_of_cons, list_elem_of_filter, IH.
  destruct (decide (r = r')); tauto.
Qed.

Lemma drop_duplicates_rows_NoDup (rs : list row) :
  NoDup (drop_duplicates_rows rs).
Proof.
  induction rs as [|r rs IH]; simpl; constructor.
  - rewrite list_elem_of_filter. by intros [? _].
  - by apply NoDup_filter.
Qed.

Lemma filter_at_most_one {A} (P : A → Prop) `{∀ x, Decision (P x)} (l : list A) :
  NoDup l → (∀ x y, x ∈ l → y ∈ l → P x → P y → x = y) →
  (length (filter P l) ≤ 1)%nat.
Proof.
  intros Hnd Huniq. induction Hnd as [|x l Hx Hnd IH]; simpl; [lia|].
  rewrite filter_cons. destruct (decide (P x)) as [HP|HP].
  - rewrite filter_none; [simpl; lia|].
    intros y Hy HPy. apply Hx.
    rewrite (Huniq x y); [done|left|by right|done|done].
  - apply IH. intros y z Hy Hz. apply Huniq; by right.
Qed.

(** In the roster [list_by_session] returns for a keyed roster, at most one
    record has a given driver number. *)
Lemma list_by_session_keyed S drivers drv d :
  roster_keyed drivers → F1.list_by_session S drivers = Ok drv →
  "driver_number" ∈ columns drv →
  (length (filter (λ r : row, r !! "driver_number" = Some d) (rows drv)) ≤ 1)%nat.
Proof.
  unfold F1.list_by_session. intros Hkeyed Hl Hin.
  destruct (empty drivers) eqn:He.
  - simplify_eq. unfold empty in He. apply bool_decide_eq_true in He.
    destruct He as [He|He].
    + rewrite He in Hin. by apply not_elem_of_nil in Hin.
    + rewrite He. simpl. lia.
  - apply bind_Ok in Hl as (df & [_ ->]%select_Ok & Hs).
    apply sort_values_perm in Hs. rewrite Hs. simpl.
    apply filter_at_most_one; [apply drop_duplicates_rows_NoDup|].
    intros r1 r2 (q1 & -> & Hq1)%drop_duplicates_rows_elem_of%list_elem_of_fmap
      (q2 & -> & Hq2)%drop_duplicates_rows_elem_of%list_elem_of_fmap.
    rewrite !lookup_row_of. simpl. intros H1 H2.
    destruct (Hkeyed q1 q2) as [Hf Ht]; [done|done|by rewrite H1|congruence|].
    apply map_eq. intros c. rewrite !lookup_row_of.
    case_decide as Hc; [|done].
    repeat (apply elem_of_cons in Hc as [->|Hc]); try congruence.
    by apply not_elem_of_nil in Hc.
Qed.

Lemma joined_length_one left right on l :
  (length (filter (λ r : row, r !! on = l !! on) (rows right)) ≤ 1)%nat →
  length (joined left right on l) = 1%nat.
Proof.
  unfold joined. destruct (filter _ (rows right)) as [|r [|r' ms]]; simpl; lia.
Qed.

Lemma bind_length_one {A B} (g : A → list B) (ls : list A) :
  (∀ l, l ∈ ls → length (g l) = 1%nat) → length (ls ≫= g) = length ls.
Proof.
  induction ls as [|l ls IH]; intros Hall; [done|].
  rewrite bind_cons, length_app, IH, Hall; [done|left|].
  intros l' Hl'. apply Hall. by right.
Qed.

Lemma position_reducer_rows S pos red :
  F1.position_reducer S pos = Ok red →
  omap (λ r : row, r !! "driver_number") (rows red)
  = distinct_drivers (survivors pos).
Proof.
  intros Hred.
  destruct (position_reducer_Ok _ _ _ Hred) as (ordered & _ & _ & Hord & ->).
  pose proof (ordered_perm _ _ _ Hord) as Hperm. simpl.
  rewrite omap_built by apply reduced_row_driver.
  unfold distinct_drivers. by apply group_keys_perm.
Qed.

Lemma position_reducer_has_driver S pos red r :
  F1.position_reducer S pos = Ok red → r ∈ rows red →
  is_Some (r !! "driver_number").
Proof.
  intros Hred.
  destruct (position_reducer_Ok _ _ _ Hred) as (ordered & _ & _ & _ & ->).
  intros (d & -> & _)%list_elem_of_fmap. rewrite reduced_row_driver. eauto.
Qed.

Lemma position_reducer_length S pos red :
  F1.position_reducer S pos = Ok red →
  length (rows red) = length (distinct_drivers (survivors pos)).
Proof.
  intros Hred.
  destruct (position_reducer_Ok _ _ _ Hred) as (ordered & _ & _ & Hord & ->).
  pose proof (ordered_perm _ _ _ Hord) as Hperm. simpl.
  rewrite length_fmap. unfold distinct_drivers.
  by rewrite (group_keys_perm _ _ _ Hperm).
Qed.

(** Left-join completeness.  For a position feed that is not empty and a
    roster keyed by [driver_number], whenever [finishing_order] returns, it
    returns one row per distinct driver among the events with a position:
    no classified driver is dropped for want of a roster record, and none
    is duplicated. *)
Theorem one_row_per_driver S pos drivers out :
  empty pos = false → roster_keyed drivers →
  F1.finishing_order S pos drivers = Ok out →
  length (rows out) = length (distinct_drivers (survivors pos)).
Proof.
  intros Hne Hkeyed (drv & red & Hdrv & Hred & Ha)%finishing_order_Ok; [|done].
  apply classification_assembler_Ok in Ha
    as (sorted & merged & Hs & Hm & _ & ->).
  pose proof (sort_values_perm _ _ _ _ Hs) as Hperm.
  destruct (merge_left_Ok _ _ _ _ Hm) as (_ & Hdn & _ & Hrows).
  simpl. rewrite length_fmap, Hrows, bind_length_one.
  - by rewrite Hperm, (position_reducer_length _ _ _ Hred).
  - intros l Hl. apply joined_length_one.
    rewrite Hperm in Hl.
    destruct (position_reducer_has_driver _ _ _ _ Hred Hl) as [d Hd].
    rewrite Hd. by apply (list_by_session_keyed S drivers).
Qed.

(** * Unmatched drivers *)




(** No classified driver is dropped: every reduced row has an output row
    with its driver number and position. *)
Theorem every_classified_driver_has_a_row S pos drivers out red p :
  empty pos = false → F1.finishing_order S pos drivers = Ok out →
  F1.position_reducer S pos = Ok red → p ∈ rows red →
  ∃ o, o ∈ rows out ∧
       o !! "driver_number" = p !! "driver_number" ∧
       o !! "position" = p !! "position".
Proof.
  intros Hne (drv & red' & Hdrv & Hred & Ha)%finishing_order_Ok Hred' Hp;
    [|done].
  rewrite Hred in Hred'. injection Hred' as ->.
  apply classification_assembler_Ok in Ha
    as (sorted & merged & Hs & Hm & Hpos & ->).
  pose proof (sort_values_perm _ _ _ _ Hs) as Hperm.
  destruct (sort_values_Ok _ _ _ _ Hs) as (Hin & _ & Hcols & _).
  assert ("position" ∈ columns sorted) as Hin' by (by rewrite Hcols).
  pose proof (merged_position_left _ _ _ Hin' Hm Hpos) as Hro.
  destruct (merge_left_Ok _ _ _ _ Hm) as (Hdn & _ & _ & Hrows).
  destruct (joined sorted drv "driver_number" p) as [|m ms] eqn:Hj.
  { by apply joined_nonempty in Hj. }
  assert (m ∈ joined sorted drv "driver_number" p) as Hmj by (rewrite Hj; left).
  exists (output_row (F1.gap_col merged) m). split_and!.
  - simpl. apply list_elem_of_fmap. exists m. split; [done|].
    rewrite Hrows. apply list_elem_of_bind. exists p. split; [done|].
    by rewrite Hperm.
  - rewrite output_row_lookup by by_decide.
    rewrite (joined_lookup sorted drv "driver_number" p m "driver_number");
      [by rewrite decide_True|apply plain_driver_number
      |by intros [? _]%list_elem_of_filter|done].
  - rewrite output_row_lookup by by_decide.
    rewrite (joined_lookup _ _ _ _ _ _ plain_position Hro Hmj).
    by rewrite decide_True.
Qed.


Lemma scenario1_roster_keyed : roster_keyed scenario1_roster.
Proof.
  intros r1 r2 ->%list_elem_of_singleton ->%list_elem_of_singleton _ _. done.
Qed.

(** A concrete input that meets the hypotheses of the theorem applied. *)
Lemma one_row_per_driver_witness :
  length (rows (mkDF output_columns
                  [event [("position", Num 1); ("driver_number", Num 1);
                          ("full_name", Str "A"); ("team_name", Str "TeamA");
                          ("gap_to_leader", Str "Leader")]]))
  = length (distinct_drivers (survivors scenario1_positions)).
Proof.
  apply (one_row_per_driver stable_sort scenario1_positions scenario1_roster).
  - reflexivity.
  - apply scenario1_roster_keyed.
  - vm_compute. reflexivity.
Defined.

(** A concrete input that meets the hypotheses of the theorem applied. *)
Lemma every_classified_driver_has_a_row_witness :
  ∃ o, o ∈ rows (mkDF output_columns
                   [event [("position", Num 2); ("driver_number", Num 2);
                           ("gap_to_leader", Str "+1.2s")]]) ∧
       o !! "driver_number"
       = event [("driver_number", Num 2); ("position", Num 2);
                ("lap_number", Num 5); ("interval", Str "+1.2s")]
           !! "driver_number" ∧
       o !! "position"
       = event [("driver_number", Num 2); ("position", Num 2);
                ("lap_number", Num 5); ("interval", Str "+1.2s")]
           !! "position".
Proof.
  apply (every_classified_driver_has_a_row stable_sort scenario2_positions
           scenario1_roster _ scenario2_positions).
  - reflexivity.
  - vm_compute. reflexivity.
  - vm_compute. reflexivity.
  - left.
Defined.


(** * No data *)

(** NoData, first case.  When the position feed is empty and the roster
    call returns, [finishing_order] returns the feed itself. *)
Theorem empty_feed_is_returned S pos drivers drv :
  empty pos = true → F1.list_by_session S drivers = Ok drv →
  F1.finishing_order S pos drivers = Ok pos.
Proof.
  intros He Hd. unfold F1.finishing_order. by rewrite Hd, bind_Ok_eq, He.
Qed.

(** A concrete input that meets the hypotheses of the theorem applied. *)
Lemma empty_feed_is_returned_witness :
  F1.finishing_order stable_sort no_data no_data = Ok no_data.
Proof.
  apply (empty_feed_is_returned stable_sort no_data no_data no_data).
  - reflexivity.
  - reflexivity.
Defined.

(** NoData, second case.  When no event of the feed has a position, a
    result that [finishing_order] returns has the five columns and no
    row. *)
Theorem all_null_feed_gives_no_rows S pos drivers out :
  empty pos = false → survivors pos = [] →
  F1.finishing_order S pos drivers = Ok out →
  out = mkDF output_columns [].
Proof.
  intros Hne Hnone (drv & red & Hdrv & Hred & Ha)%finishing_order_Ok; [|done].
  apply classification_assembler_Ok in Ha
    as (sorted & merged & Hs & Hm & _ & ->).
  pose proof (sort_values_perm _ _ _ _ Hs) as Hperm.
  pose proof (position_reducer_length _ _ _ Hred) as Hlen.
  rewrite Hnone in Hlen. simpl in Hlen.
  apply nil_length_inv in Hlen. rewrite Hlen in Hperm.
  apply Permutation_nil_r in Hperm.
  apply merge_left_Ok in Hm as (_ & _ & _ & ->). by rewrite Hperm.
Qed.

(** A concrete input that meets the hypotheses of the theorem applied. *)
Lemma all_null_feed_gives_no_rows_witness :
  mkDF output_columns [] = mkDF output_columns [].
Proof.
  apply (all_null_feed_gives_no_rows stable_sort scenario3_positions
           scenario1_roster).
  - reflexivity.
  - reflexivity.
  - vm_compute. reflexivity.
Defined.

(** * When [finishing_order] returns *)

Lemma select_succeeds cols df :
  cols ⊆ columns df →
  select cols df
  = Ok (mkDF cols ((λ r : row, row_of cols (λ c, r !! c)) <$> rows df)).
Proof.
  intros Hsub. unfold select. rewrite filter_none; [done|].
  intros c Hc Hn. by apply Hn, Hsub.
Qed.

(** A roster with rows and the three roster columns, whose driver numbers
    can be compared with one another, passes [list_by_session]. *)
Lemma list_by_session_succeeds S drivers :
  empty drivers = false →
  ["driver_number"; "full_name"; "team_name"] ⊆ columns drivers →
  comparable (keyed "driver_number" (rows drivers)).*1 = true →
  ∃ drv, F1.list_by_session S drivers = Ok drv ∧
         columns drv = ["driver_number"; "full_name"; "team_name"].
Proof.
  intros He Hsub Hcmp. unfold F1.list_by_session.
  rewrite He, select_succeeds, bind_Ok_eq by done.
  rewrite sort_values_succeeds; [eauto|simpl; by_decide|].
  simpl. eapply comparable_subseteq; [exact Hcmp|].
  intros k (r & Hr & Hk)%keyed_keys_elem_of.
  apply drop_duplicates_rows_elem_of, list_elem_of_fmap in Hr as (q & -> & Hq).
  rewrite lookup_row_of, decide_True in Hk by by_decide.
  apply keyed_keys_elem_of. eauto.
Qed.

Lemma merge_left_succeeds left right on :
  on ∈ columns left → on ∈ columns right → keys_clash left right on = false →
  merge_left left right on
  = Ok (mkDF ((left_label on (filter (λ c, c ≠ on) (columns right))
                 <$> columns left)
              ++ (right_label (filter (λ c, c ≠ on) (columns left))
                    <$> filter (λ c, c ≠ on) (columns right)))
          (rows left ≫= joined left right on)).
Proof.
  intros Hl Hr Hc. unfold merge_left. by rewrite !decide_True, Hc by done.
Qed.

(** The join of a feed without name columns with a roster of the three
    roster columns has, once [gap_to_leader] is assigned, the five output
    columns. *)
Lemma assigned_output_columns lcols rcols rows f :
  "position" ∈ lcols → "driver_number" ∈ lcols →
  "full_name" ∉ lcols → "team_name" ∉ lcols →
  rcols = ["driver_number"; "full_name"; "team_name"] →
  output_columns
  ⊆ columns
      (assign "gap_to_leader" f
         (mkDF ((left_label "driver_number"
                   (filter (λ c, c ≠ "driver_number") rcols) <$> lcols)
                ++ (right_label (filter (λ c, c ≠ "driver_number") lcols)
                      <$> filter (λ c, c ≠ "driver_number") rcols))
            rows)).
Proof.
  intros Hpos Hdn Hfn Htn ->.
  assert (filter (λ c, c ≠ "driver_number")
            ["driver_number"; "full_name"; "team_name"]
          = ["full_name"; "team_name"]) as -> by done.
  set (merged :=
         (left_label "driver_number" ["full_name"; "team_name"] <$> lcols)
         ++ (right_label (filter (λ c, c ≠ "driver_number") lcols)
               <$> ["full_name"; "team_name"])).
  assert (∀ c, c ∈ ["position"; "driver_number"; "full_name"; "team_name"] →
            c ∈ merged) as Hin.
  { intros c Hc. subst merged. apply elem_of_app.
    repeat (apply elem_of_cons in Hc as [->|Hc]).
    - left. apply list_elem_of_fmap. by exists "position".
    - left. apply list_elem_of_fmap. by exists "driver_number".
    - right. apply list_elem_of_fmap. exists "full_name". split; [|by_decide].
      rewrite right_label_id; [done|]. by intros [_ ?]%list_elem_of_filter.
    - right. apply list_elem_of_fmap. exists "team_name". split; [|by_decide].
      rewrite right_label_id; [done|]. by intros [_ ?]%list_elem_of_filter.
    - by apply not_elem_of_nil in Hc. }
  intros c Hc. unfold assign. simpl. fold merged.
  destruct (decide (c = "gap_to_leader")) as [->|Hne].
  - case_decide; [done|]. apply elem_of_app. right. left.
  - assert (c ∈ ["position"; "driver_number"; "full_name"; "team_name"]) as Hc'.
    { unfold output_columns in Hc.
      repeat (apply elem_of_cons in Hc as [->|Hc]); try by_decide; try done.
      by apply not_elem_of_nil in Hc. }
    case_decide; [by apply Hin|]. apply elem_of_app. left. by apply Hin.
Qed.

(** The roster [list_by_session] returns has the driver numbers of the
    fetched records. *)
Lemma list_by_session_keys S drivers drv k :
  empty drivers = false → F1.list_by_session S drivers = Ok drv →
  k ∈ (keyed "driver_number" (rows drv)).*1
  ↔ k ∈ (keyed "driver_number" (rows drivers)).*1.
Proof.
  unfold F1.list_by_session. intros -> Hl.
  apply bind_Ok in Hl as (df & [_ ->]%select_Ok & Hs).
  apply sort_values_perm in Hs. simpl in Hs.
  rewrite !keyed_keys_elem_of. setoid_rewrite Hs.
  setoid_rewrite drop_duplicates_rows_elem_of.
  setoid_rewrite list_elem_of_fmap. split.
  - intros (r & (q & -> & Hq) & Hk).
    rewrite lookup_row_of, decide_True in Hk by by_decide. eauto.
  - intros (q & Hq & Hk). eexists. split; [by exists q|].
    by rewrite lookup_row_of, decide_True by by_decide.
Qed.

(** Key columns of one kind pass the dtype check of [merge]: the keys of
    the two frames are all numbers or all strings, the right frame has a
    key, and so has the left one unless it has no rows. *)
Lemma keys_clash_false left right on (ks : list scalar) :
  comparable ks = true →
  (keyed on (rows left)).*1 ⊆ ks → (keyed on (rows right)).*1 ⊆ ks →
  (rows left ≠ [] → (keyed on (rows left)).*1 ≠ []) →
  (keyed on (rows right)).*1 ≠ [] →
  keys_clash left right on = false.
Proof.
  intros Hcmp Hl Hr Hlkey Hrkey. unfold keys_clash, numeric_keys, no_number_keys.
  set (lk := (keyed on (rows left)).*1) in *.
  set (rk := (keyed on (rows right)).*1) in *.
  assert (∀ l : list scalar, l ≠ [] → forallb is_num l = true →
            forallb (λ a, negb (is_num a)) l = false) as Hnum.
  { intros [|x l] Hne Hall; [done|]. simpl in *.
    apply andb_true_iff in Hall as [-> _]. done. }
  assert (∀ l : list scalar, forallb (λ a, negb (is_num a)) l = true →
            existsb is_num l = false) as Htext.
  { induction l as [|x l IH]; simpl; [done|].
    intros [->%negb_true_iff Hall]%andb_true_iff. by rewrite IH. }
  assert (∀ l : list scalar, l ⊆ ks → forallb is_num ks = true →
            forallb is_num l = true) as Hsubn.
  { intros l Hsub Hall. rewrite forallb_forall in Hall. apply forallb_forall.
    intros x Hx%list_elem_of_In. apply Hall, list_elem_of_In, Hsub, Hx. }
  assert (∀ l : list scalar, l ⊆ ks →
            forallb (λ a, negb (is_num a)) ks = true →
            forallb (λ a, negb (is_num a)) l = true) as Hsubt.
  { intros l Hsub Hall. rewrite forallb_forall in Hall. apply forallb_forall.
    intros x Hx%list_elem_of_In. apply Hall, list_elem_of_In, Hsub, Hx. }
  unfold comparable in Hcmp. apply orb_true_iff in Hcmp as [Hall|Hall].
  - rewrite (Hnum rk) by auto.
    destruct (decide (rows left = [])) as [He|Hne].
    + by rewrite (bool_decide_eq_false_2 (rows left ≠ [])) by auto.
    + rewrite (Hnum lk) by auto. by rewrite !andb_false_r.
  - rewrite (Htext lk), (Htext rk) by auto. by rewrite andb_false_r.
Qed.

(** Graceful degradation.  [finishing_order] returns a result, whatever
    the sorting routine, for every position feed that is not empty, has the
    columns [position] and [driver_number] and none called [full_name] or
    [team_name], and whose ordering keys and positions can be compared with
    one another, together with a roster that has rows and the three roster
    columns, when the driver numbers of the feed and of the roster are of
    one kind (all numbers or all strings) and some roster record has one:
    whether the feed has [date], [lap_number], [gap], [interval] or not,
    and whether the roster knows the drivers or not. *)
Theorem finishing_order_returns S pos drivers :
  empty pos = false →
  "position" ∈ columns pos → "driver_number" ∈ columns pos →
  "full_name" ∉ columns pos → "team_name" ∉ columns pos →
  (∀ k, ordering_key (columns pos) = Some k →
        comparable (keyed k (survivors pos)).*1 = true) →
  comparable (keyed "position" (survivors pos)).*1 = true →
  empty drivers = false →
  ["driver_number"; "full_name"; "team_name"] ⊆ columns drivers →
  comparable ((keyed "driver_number" (rows pos)).*1
              ++ (keyed "driver_number" (rows drivers)).*1) = true →
  (∃ q : row, q ∈ rows drivers ∧ is_Some (q !! "driver_number")) →
  ∃ out, F1.finishing_order S pos drivers = Ok out.
Proof.
  intros Hne Hpos Hdn Hfn Htn Hkeys Hposcmp Hde Hdsub Hkind (q & Hq & [kq Hkq]).
  assert (comparable (keyed "driver_number" (rows drivers)).*1 = true) as Hdcmp.
  { eapply comparable_subseteq; [exact Hkind|].
    intros k Hk. apply elem_of_app. by right. }
  destruct (list_by_session_succeeds S drivers Hde Hdsub Hdcmp)
    as (drv & Hdrv & Hdcols).
  unfold F1.finishing_order. rewrite Hdrv, bind_Ok_eq, Hne.
  (* the reducer *)
  assert (∃ ordered, ordered ≡ₚ survivors pos ∧
            F1.position_reducer S pos
            = Ok (mkDF ("driver_number" :: filter (λ c, c ≠ "driver_number") (columns pos))
                    (reduced_row (columns pos) ordered
                       <$> distinct_drivers ordered)))
    as (ordered & Hperm & Hred).
  { unfold F1.position_reducer, filter_notna.
    rewrite decide_True, bind_Ok_eq by done. simpl. fold (survivors pos).
    destruct (ordering_key_cases (columns pos))
      as [[Hk Hin]|[(Hk & Hnd & Hin)|(Hk & Hnd & Hnl)]].
    - rewrite decide_True by done.
      rewrite sort_values_succeeds by (done || by apply Hkeys).
      rewrite bind_Ok_eq. unfold groupby_last. simpl.
      rewrite decide_True by done. eexists. split; [|done].
      rewrite (argsort_perm S), keyed_snd. apply partition_by_key.
    - rewrite decide_False, decide_True by done.
      rewrite sort_values_succeeds by (done || by apply Hkeys).
      rewrite bind_Ok_eq. unfold groupby_last. simpl.
      rewrite decide_True by done. eexists. split; [|done].
      rewrite (argsort_perm S), keyed_snd. apply partition_by_key.
    - rewrite !decide_False by done.
      rewrite bind_Ok_eq. unfold groupby_last. simpl.
      rewrite decide_True by done. eauto. }
  rewrite Hred, bind_Ok_eq. unfold F1.classification_assembler.
  (* the sort by position *)
  rewrite sort_values_succeeds; simpl.
  2:{ right. by apply list_elem_of_filter. }
  2:{ eapply comparable_subseteq; [exact Hposcmp|].
      intros v (r & (d & -> & Hd)%list_elem_of_fmap & Hv)%keyed_keys_elem_of.
      rewrite reduced_row_lookup, decide_True in Hv by done.
      unfold last_valid in Hv.
      apply last_Some_elem_of, list_elem_of_omap in Hv as (r & Hr & Hv).
      apply keyed_keys_elem_of. exists r. split; [|done].
      apply events_of_elem_of in Hr as [Hr _]. by rewrite <- Hperm. }
  (* the join and the projection *)
  set (reduced := reduced_row (columns pos) ordered <$> distinct_drivers ordered).
  assert (∀ r, r ∈ (argsort S (keyed "position" reduced)).*2
                   ++ filter (λ r : row, r !! "position" = None) reduced →
               ∃ d e, r !! "driver_number" = Some d ∧ e ∈ rows pos ∧
                      e !! "driver_number" = Some d) as Hleft.
  { intros r Hr.
    assert (r ∈ reduced) as (d & -> & Hd)%list_elem_of_fmap.
    { revert Hr. rewrite (argsort_perm S), keyed_snd.
      by rewrite (partition_by_key "position" reduced). }
    apply distinct_drivers_elem_of in Hd as (e & He & Hed).
    exists d, e. split_and!; [apply reduced_row_driver| |done].
    rewrite Hperm in He. by apply list_elem_of_filter in He as [_ ?]. }
  rewrite merge_left_succeeds; [|left|rewrite Hdcols; by_decide|].
  2:{ apply (keys_clash_false _ _ _ _ Hkind); simpl.
      - intros k (r & (d & e & Hd & He & Hed)%Hleft & Hk)%keyed_keys_elem_of.
        apply elem_of_app. left. apply keyed_keys_elem_of.
        exists e. split; [done|]. congruence.
      - intros k Hk. apply elem_of_app. right.
        by apply (list_by_session_keys S drivers drv).
      - intros Hrows Hnil.
        destruct ((argsort S (keyed "position" reduced)).*2
                  ++ filter (λ r : row, r !! "position" = None) reduced)
          as [|r rs] eqn:Hrs; [done|].
        destruct (Hleft r) as (d & _ & Hd & _); [left|].
        assert (d ∈ (keyed "driver_number" (r :: rs)).*1) as Hin.
        { apply keyed_keys_elem_of. exists r. split; [left|done]. }
        rewrite Hnil in Hin. by apply not_elem_of_nil in Hin.
      - intros Hnil.
        assert (kq ∈ (keyed "driver_number" (rows drv)).*1) as Hin.
        { apply (list_by_session_keys S drivers drv); [done..|].
          apply keyed_keys_elem_of. eauto. }
        rewrite Hnil in Hin. by apply not_elem_of_nil in Hin. }
  rewrite bind_Ok_eq, select_succeeds; [eauto|].
  apply assigned_output_columns; simpl; rewrite ?Hdcols; try done.
  - right. by apply list_elem_of_filter.
  - left.
  - by intros [?|[_ ?]%list_elem_of_filter]%elem_of_cons.
  - by intros [?|[_ ?]%list_elem_of_filter]%elem_of_cons.
Qed.

(** A concrete input that meets the hypotheses of the theorem applied. *)
Lemma finishing_order_returns_witness :
  ∃ out, F1.finishing_order stable_sort scenario2_positions scenario1_roster
         = Ok out.
Proof.
  apply (finishing_order_returns stable_sort scenario2_positions
           scenario1_roster).
  - reflexivity.
  - by_decide.
  - by_decide.
  - by_decide.
  - by_decide.
  - intros k Hk. vm_compute in Hk. injection Hk as <-. reflexivity.
  - reflexivity.
  - reflexivity.
  - intros c Hc. exact Hc.
  - reflexivity.
  - eexists. split; [left|]. by_decide.
Defined.

(** The kinds matter: on the feed of scenario 2, where driver 2 is a
    number, and a roster that has that driver under the string [2], the
    join raises [ValueError]. *)
Lemma finishing_order_number_against_text S :
  F1.finishing_order S scenario2_positions
    (mkDF ["driver_number"; "full_name"; "team_name"]
       [event [("driver_number", Str "2"); ("full_name", Str "B");
               ("team_name", Str "TeamB")]])
  = Raise ValueError.
Proof. any_sorter S. Qed.

(** * The reducer's output guarantee *)

(** Output guarantee of the Position Reducer: the driver numbers of its
    rows are the distinct driver numbers of the events with a position,
    each once and in ascending order, and every row has a position. *)
Theorem reducer_output_guarantee S pos red :
  F1.position_reducer S pos = Ok red →
  omap (λ r : row, r !! "driver_number") (rows red)
  = distinct_drivers (survivors pos) ∧
  NoDup (distinct_drivers (survivors pos)) ∧
  Sorted scalar_le (distinct_drivers (survivors pos)) ∧
  length (rows red) = length (distinct_drivers (survivors pos)) ∧
  ∀ r, r ∈ rows red → is_Some (r !! "position").
Proof.
  intros Hred. split_and!.
  - by apply (position_reducer_rows S).
  - apply group_keys_NoDup.
  - apply group_keys_Sorted.
  - by apply (position_reducer_length S).
  - by apply (position_reducer_has_position S pos).
Qed.

(** A concrete input that meets the hypotheses of the theorem applied. *)
Lemma reducer_output_guarantee_witness :
  omap (λ r : row, r !! "driver_number")
    (rows (mkDF ["driver_number"; "position"; "date"]
             [event [("driver_number", Num 16); ("position", Num 2);
                     ("date", Str "t2")];
              event [("driver_number", Num 44); ("position", Num 1);
                     ("date", Str "t1")]]))
  = distinct_drivers (survivors two_drivers_positions) ∧
  NoDup (distinct_drivers (survivors two_drivers_positions)) ∧
  Sorted scalar_le (distinct_drivers (survivors two_drivers_positions)) ∧
  length (rows (mkDF ["driver_number"; "position"; "date"]
                  [event [("driver_number", Num 16); ("position", Num 2);
                          ("date", Str "t2")];
                   event [("driver_number", Num 44); ("position", Num 1);
                          ("date", Str "t1")]]))
  = length (distinct_drivers (survivors two_drivers_positions)) ∧
  ∀ r, r ∈ rows (mkDF ["driver_number"; "position"; "date"]
                   [event [("driver_number", Num 16); ("position", Num 2);
                           ("date", Str "t2")];
                    event [("driver_number", Num 44); ("position", Num 1);
                           ("date", Str "t1")]]) →
       is_Some (r !! "position").
Proof.
  apply (reducer_output_guarantee stable_sort two_drivers_positions).
  vm_compute. reflexivity.
Defined.

Lemma finishing_order_scenario4 S :
  F1.finishing_order S scenario4_positions scenario1_roster
  = Ok (mkDF output_columns
          [event [("position", Num 5); ("driver_number", Num 4);
                  ("gap_to_leader", Str "N/A")]]).
Proof. any_sorter S. Qed.

(** * The failed roster fetch, in general *)

Lemma merge_left_no_data left on :
  merge_left left no_data on = Raise (KeyError on).
Proof.
  unfold merge_left. destruct (decide (on ∈ columns left)); [|done].
  rewrite decide_False; [done|]. apply not_elem_of_nil.
Qed.

(** When the roster fetch failed, [finishing_order] raises on every
    position feed that is not empty: the guard [if pos.empty: return pos]
    has no counterpart for the roster frame. *)
Theorem no_roster_always_raises S pos :
  empty pos = false → ∃ e, F1.finishing_order S pos no_data = Raise e.
Proof.
  intros Hne. unfold F1.finishing_order.
  assert (F1.list_by_session S no_data = Ok no_data) as -> by done.
  rewrite bind_Ok_eq, Hne.
  destruct (F1.position_reducer S pos) as [red|e]; [|by exists e].
  rewrite bind_Ok_eq. unfold F1.classification_assembler.
  destruct (sort_values S "position" red) as [sorted|e]; [|by exists e].
  rewrite bind_Ok_eq, merge_left_no_data. by eexists.
Qed.

(** A concrete input that meets the hypotheses of the theorem applied. *)
Lemma no_roster_always_raises_witness :
  ∃ e, F1.finishing_order stable_sort scenario1_positions no_data = Raise e.
Proof.
  apply (no_roster_always_raises stable_sort scenario1_positions).
  reflexivity.
Defined.

(** * The console, the services and the menu *)
(** ** Reading from the console *)

Lemma io_bind_inv {A B} (m : io A) (f : A → io B) c o c' :
  (m ≫= f) c = (o, c') →
  (∃ e, m c = (Failed e, c') ∧ o = Failed e) ∨
  (∃ a c1, m c = (Returned a, c1) ∧ f a c1 = (o, c')).
Proof.
  unfold mbind, io_bind. destruct (m c) as [[a|e] c1]; intros H.
  - right. eauto.
  - left. exists e. by simplify_eq.
Qed.

Lemma io_bind_Returned {A B} (m : io A) (f : A → io B) c a c1 :
  m c = (Returned a, c1) → (m ≫= f) c = f a c1.
Proof. unfold mbind, io_bind. by intros ->. Qed.

Lemma io_bind_Failed {A B} (m : io A) (f : A → io B) c e c1 :
  m c = (Failed e, c1) → (m ≫= f) c = (Failed e, c1).
Proof. unfold mbind, io_bind. by intros ->. Qed.

(** The loops are the loops of the source: one turn reads a line, and a
    line that is turned down leads to the next turn. *)
Lemma safe_input_str_turn env prompt c :
  safe_input_str env prompt c =
  (l ← input prompt;
   let val := str_strip env l in
   if decide (val = "")
   then print "Input vuoto! Riprova.";; safe_input_str env prompt
   else mret val) c.
Proof.
  unfold safe_input_str, mbind, io_bind, input, print, put, mret, io_ret.
  destruct c as [[|l ls] out]; simpl; [done|].
  by destruct (decide _).
Qed.

Lemma safe_input_int_turn env prompt c :
  safe_input_int env prompt c =
  (l ← input prompt;
   let val := str_strip env l in
   if decide (val = "")
   then print "Input vuoto! Riprova.";; safe_input_int env prompt
   else match int_of env val with
        | Some n => mret n
        | None => print "Inserisci un numero valido!";; safe_input_int env prompt
        end) c.
Proof.
  unfold safe_input_int, mbind, io_bind, input, print, put, mret, io_ret.
  destruct c as [[|l ls] out]; simpl; [done|].
  destruct (decide _); [done|]. by destruct (int_of _ _).
Qed.

Lemma complaint_blank env l :
  str_strip env l = "" → complaint env l = "Input vuoto! Riprova.".
Proof. intros. unfold complaint. by rewrite decide_True. Qed.

Lemma complaint_other env l :
  str_strip env l ≠ "" → complaint env l = "Inserisci un numero valido!".
Proof. intros. unfold complaint. by rewrite decide_False. Qed.

Lemma safe_input_str_loop_Returned env prompt lines out v c' :
  safe_input_str_loop env prompt lines out = (Returned v, c') →
  v ≠ "" ∧
  ∃ blank l,
    lines = blank ++ l :: stdin c' ∧
    Forall (λ x, str_strip env x = "") blank ∧
    v = str_strip env l ∧
    stdout c' = out
      ++ (blank ≫= λ _, [Prompted prompt; Printed "Input vuoto! Riprova."])
      ++ [Prompted prompt].
Proof.
  revert out. induction lines as [|l lines IH]; intros out; simpl; [done|].
  destruct (decide _) as [Hb|Hb].
  - intros (? & blank & l' & -> & ? & -> & ->)%IH. split; [done|].
    exists (l :: blank), l'. split_and!; [done|by constructor|done|].
    csimpl. by rewrite <-!(assoc_L (++)).
  - intros [= <- <-]. split; [done|]. exists [], l. by split_and!.
Qed.

Lemma safe_input_str_loop_Failed env prompt lines out e c' :
  safe_input_str_loop env prompt lines out = (Failed e, c') →
  e = EOFError ∧ stdin c' = [] ∧ Forall (λ x, str_strip env x = "") lines ∧
  stdout c' = out
    ++ (lines ≫= λ _, [Prompted prompt; Printed "Input vuoto! Riprova."])
    ++ [Prompted prompt].
Proof.
  revert out. induction lines as [|l lines IH]; intros out; simpl.
  - by intros [= <- <-].
  - destruct (decide _) as [Hb|Hb]; [|done].
    intros (-> & ? & ? & ->)%IH. split_and!; [done|done|by constructor|].
    by rewrite <-!(assoc_L (++)).
Qed.

Lemma safe_input_int_loop_Returned env prompt lines out n c' :
  safe_input_int_loop env prompt lines out = (Returned n, c') →
  ∃ rejected l,
    lines = rejected ++ l :: stdin c' ∧
    Forall (λ x, str_strip env x = "" ∨ int_of env (str_strip env x) = None)
      rejected ∧
    str_strip env l ≠ "" ∧
    int_of env (str_strip env l) = Some n ∧
    stdout c' = out
      ++ (rejected ≫= λ x, [Prompted prompt; Printed (complaint env x)])
      ++ [Prompted prompt].
Proof.
  revert out. induction lines as [|l lines IH]; intros out; simpl; [done|].
  destruct (decide _) as [Hb|Hb].
  - intros (rejected & l' & -> & ? & ? & ? & ->)%IH.
    exists (l :: rejected), l'. split_and!; [done|constructor; auto|done..|].
    csimpl. rewrite (complaint_blank env l) by done.
    by rewrite <-!(assoc_L (++)).
  - destruct (int_of _ _) as [m|] eqn:Hint.
    + intros [= <- <-]. exists [], l. by split_and!.
    + intros (rejected & l' & -> & ? & ? & ? & ->)%IH.
      exists (l :: rejected), l'. split_and!; [done|constructor; auto|done..|].
      csimpl. rewrite (complaint_other env l) by done.
      by rewrite <-!(assoc_L (++)).
Qed.

Lemma safe_input_int_loop_Failed env prompt lines out e c' :
  safe_input_int_loop env prompt lines out = (Failed e, c') →
  e = EOFError ∧ stdin c' = [] ∧
  Forall (λ x, str_strip env x = "" ∨ int_of env (str_strip env x) = None)
    lines ∧
  stdout c' = out
    ++ (lines ≫= λ x, [Prompted prompt; Printed (complaint env x)])
    ++ [Prompted prompt].
Proof.
  revert out. induction lines as [|l lines IH]; intros out; simpl.
  - by intros [= <- <-].
  - destruct (decide _) as [Hb|Hb].
    + intros (-> & ? & ? & ->)%IH. split_and!; [done|done|constructor; auto|].
      csimpl. rewrite (complaint_blank env l) by done.
      by rewrite <-!(assoc_L (++)).
    + destruct (int_of _ _) as [m|] eqn:Hint; [done|].
      intros (-> & ? & ? & ->)%IH. split_and!; [done|done|constructor; auto|].
      csimpl. rewrite (complaint_other env l) by done.
      by rewrite <-!(assoc_L (++)).
Qed.

(** When [safe_input_str] returns, the value is not empty: it is the
    first line typed that is not blank, stripped.  Every blank line before
    it was answered with one "Input vuoto! Riprova.", and nothing after the
    accepted line was read. *)
Theorem safe_input_str_returns env prompt c v c' :
  safe_input_str env prompt c = (Returned v, c') →
  v ≠ "" ∧
  ∃ blank l,
    stdin c = blank ++ l :: stdin c' ∧
    Forall (λ x, str_strip env x = "") blank ∧
    v = str_strip env l ∧
    stdout c' = stdout c
      ++ (blank ≫= λ _, [Prompted prompt; Printed "Input vuoto! Riprova."])
      ++ [Prompted prompt].
Proof. apply safe_input_str_loop_Returned. Qed.

(** When [safe_input_int] returns [n], [n] is what [int] makes of the
    first line typed that is neither blank nor refused by [int].  Every
    line before it was answered with one message: "Input vuoto! Riprova."
    for a blank one, "Inserisci un numero valido!" otherwise. *)
Theorem safe_input_int_returns env prompt c n c' :
  safe_input_int env prompt c = (Returned n, c') →
  ∃ rejected l,
    stdin c = rejected ++ l :: stdin c' ∧
    Forall (λ x, str_strip env x = "" ∨ int_of env (str_strip env x) = None)
      rejected ∧
    str_strip env l ≠ "" ∧
    int_of env (str_strip env l) = Some n ∧
    stdout c' = stdout c
      ++ (rejected ≫= λ x, [Prompted prompt; Printed (complaint env x)])
      ++ [Prompted prompt].
Proof. apply safe_input_int_loop_Returned. Qed.

(** The two input loops end on every finite input.  They return as
    soon as a line is acceptable; they fail only with [EOFError], and only
    when every line left was turned down. *)
Theorem safe_input_ends env prompt c :
  (Exists (λ x, str_strip env x ≠ "") (stdin c) →
     ∃ v c', safe_input_str env prompt c = (Returned v, c')) ∧
  (Forall (λ x, str_strip env x = "") (stdin c) →
     ∃ c', safe_input_str env prompt c = (Failed EOFError, c') ∧ stdin c' = []) ∧
  (Exists (λ x, str_strip env x ≠ "" ∧ is_Some (int_of env (str_strip env x)))
     (stdin c) →
     ∃ n c', safe_input_int env prompt c = (Returned n, c')) ∧
  (Forall (λ x, str_strip env x = "" ∨ int_of env (str_strip env x) = None)
     (stdin c) →
     ∃ c', safe_input_int env prompt c = (Failed EOFError, c') ∧ stdin c' = []).
Proof.
  split_and!.
  - intros Hex. destruct (safe_input_str env prompt c) as [[v|e] c'] eqn:H; [eauto|].
    apply safe_input_str_loop_Failed in H as (_ & _ & Hall & _).
    apply Exists_exists in Hex as (x & Hx & Hne).
    by rewrite Forall_forall in Hall; specialize (Hall x Hx).
  - intros Hall. destruct (safe_input_str env prompt c) as [[v|e] c'] eqn:H.
    + apply safe_input_str_loop_Returned in H as (Hv & blank & l & Hin & _ & -> & _).
      rewrite Hin in Hall. apply Forall_app in Hall as [_ Hall].
      by apply Forall_cons in Hall as [? _].
    + apply safe_input_str_loop_Failed in H as (-> & ? & _). eauto.
  - intros Hex. destruct (safe_input_int env prompt c) as [[v|e] c'] eqn:H; [eauto|].
    apply safe_input_int_loop_Failed in H as (_ & _ & Hall & _).
    apply Exists_exists in Hex as (x & Hx & Hne & [n Hn]).
    rewrite Forall_forall in Hall. destruct (Hall x Hx); congruence.
  - intros Hall. destruct (safe_input_int env prompt c) as [[v|e] c'] eqn:H.
    + apply safe_input_int_loop_Returned in H as (rej & l & Hin & _ & ? & ? & _).
      rewrite Hin in Hall. apply Forall_app in Hall as [_ Hall].
      apply Forall_cons in Hall as [[?|?] _]; congruence.
    + apply safe_input_int_loop_Failed in H as (-> & ? & _). eauto.
Qed.

(** ** What every part of the menu keeps *)

Lemma tame_weaken (P Q : output → Prop) {A} (m : io A) :
  (∀ o, P o → Q o) → tame P m → tame Q m.
Proof.
  intros HPQ Hm c o c' (? & ? & new & ? & Hall)%Hm. split_and!; [done..|].
  exists new. split; [done|]. eapply Forall_impl; eauto.
Qed.

Lemma tame_ret P {A} (a : A) : tame P (mret a).
Proof.
  intros c o c' [= <- <-]. split_and!; [done..|].
  exists []. by rewrite app_nil_r.
Qed.

Lemma tame_bind P {A B} (m : io A) (f : A → io B) :
  tame P m → (∀ a, tame P (f a)) → tame P (m ≫= f).
Proof.
  intros Hm Hf c o c' [(e & H & ->)|(a & c1 & H & H')]%io_bind_inv.
  - apply Hm in H as (He & ? & ?). split_and!; [|done..].
    intros [= ->]. by apply He.
  - apply Hm in H as (_ & ? & n1 & E1 & ?).
    apply Hf in H' as (? & ? & n2 & E2 & ?).
    split_and!; [done|by etrans|].
    exists (n1 ++ n2). split; [|by apply Forall_app].
    by rewrite E2, E1, <-(assoc_L (++)).
Qed.

Lemma tame_lift P {A} (r : result A) : tame P (lift r).
Proof.
  destruct r; intros c o c' [= <- <-]; (split_and!; [done..|]);
    exists []; by rewrite app_nil_r.
Qed.

Lemma tame_put (P : output → Prop) o : P o → tame P (put o).
Proof.
  intros Ho c ? c' [= <- <-]. split_and!; [done..|].
  exists [o]. split; [done|]. by constructor.
Qed.

Lemma tame_safe_input_str env prompt : tame is_text (safe_input_str env prompt).
Proof.
  intros c [v|e] c' H.
  - apply safe_input_str_loop_Returned in H as (_ & blank & l & -> & _ & _ & ->).
    split_and!; [done|by apply suffix_app_r, suffix_cons_r|].
    eexists. split; [done|]. apply Forall_app. split; [|by constructor].
    apply Forall_bind, Forall_forall. intros x _. by repeat constructor.
  - apply safe_input_str_loop_Failed in H as (-> & -> & _ & ->).
    split_and!; [done|apply suffix_nil|].
    eexists. split; [done|]. apply Forall_app. split; [|by constructor].
    apply Forall_bind, Forall_forall. intros x _. by repeat constructor.
Qed.

Lemma tame_safe_input_int env prompt : tame is_text (safe_input_int env prompt).
Proof.
  intros c [v|e] c' H.
  - apply safe_input_int_loop_Returned in H as (rej & l & -> & _ & _ & _ & ->).
    split_and!; [done|by apply suffix_app_r, suffix_cons_r|].
    eexists. split; [done|]. apply Forall_app. split; [|by constructor].
    apply Forall_bind, Forall_forall. intros x _. by repeat constructor.
  - apply safe_input_int_loop_Failed in H as (-> & -> & _ & ->).
    split_and!; [done|apply suffix_nil|].
    eexists. split; [done|]. apply Forall_app. split; [|by constructor].
    apply Forall_bind, Forall_forall. intros x _. by repeat constructor.
Qed.

Lemma tame_fetch env endpoint params :
  tame is_text (OpenF1Client.fetch env endpoint params).
Proof.
  unfold OpenF1Client.fetch. destruct (request _ _ _).
  - apply tame_ret.
  - apply tame_bind; [by apply tame_put|intros; apply tame_ret].
Qed.

(** [df.empty] guards [df.iloc[0]]. *)
Lemma tame_iloc_0 P df : empty df = false → tame P (iloc 0 df).
Proof.
  intros He. unfold iloc. destruct (rows df) as [|r rs] eqn:Hr; simpl.
  - unfold empty in He. apply bool_decide_eq_false in He. tauto.
  - apply tame_ret.
Qed.

Lemma tame_text {A} (m : io A) : tame is_text m → tame any_output m.
Proof. by apply tame_weaken. Qed.

Ltac tame_step :=
  match goal with
  | |- tame _ (_ ≫= _) => apply tame_bind; [|intros]
  | |- tame _ (if ?b then _ else _) => destruct b eqn:?
  | |- tame _ (match ?x with _ => _ end) => destruct x eqn:?
  | |- tame _ (mret _) => apply tame_ret
  | |- tame _ (lift _) => apply tame_lift
  | |- tame _ (iloc 0 _) => by apply tame_iloc_0
  | |- tame _ (print _) => apply tame_put; exact I
  | |- tame _ (print_table _) => apply tame_put; exact I
  | |- tame _ (put _) => apply tame_put; exact I
  | |- tame is_text (safe_input_str _ _) => apply tame_safe_input_str
  | |- tame is_text (safe_input_int _ _) => apply tame_safe_input_int
  | |- tame is_text (OpenF1Client.fetch _ _ _) => apply tame_fetch
  | |- tame any_output (safe_input_str _ _) =>
      apply tame_text, tame_safe_input_str
  | |- tame any_output (safe_input_int _ _) =>
      apply tame_text, tame_safe_input_int
  | |- tame any_output (OpenF1Client.fetch _ _ _) =>
      apply tame_text, tame_fetch
  end.

Lemma tame_get_any_driver_number env sk :
  tame is_text (DriversService.get_any_driver_number env sk).
Proof. unfold DriversService.get_any_driver_number. repeat tame_step. Qed.

Lemma tame_get_session env sk :
  tame is_text (SessionsService.get_session env sk).
Proof. unfold SessionsService.get_session. repeat tame_step. Qed.

Lemma tame_export_csv df filename : tame any_output (export_csv df filename).
Proof. unfold export_csv. repeat tame_step. Qed.

Lemma tame_show_sessions env : tame any_output (MenuApp.show_sessions env).
Proof.
  unfold MenuApp.show_sessions, SessionsService.list_by_year.
  repeat tame_step.
Qed.

Lemma tame_show_drivers env : tame any_output (MenuApp.show_drivers env).
Proof.
  unfold MenuApp.show_drivers, DriversService.list_by_session.
  repeat tame_step.
Qed.

Lemma tame_analyze_laps env : tame any_output (MenuApp.analyze_laps env).
Proof.
  unfold MenuApp.analyze_laps, LapsService.laps_for_driver.
  repeat first
    [ tame_step
    | apply tame_text, tame_get_session
    | apply tame_export_csv ].
Qed.

Lemma tame_show_track env : tame any_output (MenuApp.show_track env).
Proof.
  unfold MenuApp.show_track, TelemetryService.location.
  repeat first
    [ tame_step
    | apply tame_text, tame_get_any_driver_number ].
Qed.

Lemma tame_show_results env : tame any_output (MenuApp.show_results env).
Proof.
  unfold MenuApp.show_results, ResultsService.finishing_order.
  repeat tame_step.
Qed.

(** ** The menu loop *)

Lemma run_S env fuel :
  MenuApp.run env (S fuel) = turn env (MenuApp.run env fuel).
Proof. done. Qed.

Lemma suffix_length_le {A} (l k : list A) :
  l `suffix_of` k → (length l ≤ length k)%nat.
Proof. intros [l' ->]. rewrite length_app. lia. Qed.

Lemma then_next_cases (h : io ()) (next : io bool) c1 o c' :
  tame any_output h → (h;; next) c1 = (o, c') →
  (∃ e, o = Failed e ∧ h c1 = (Failed e, c')) ∨
  (∃ c2, stdin c2 `suffix_of` stdin c1 ∧ next c2 = (o, c')).
Proof.
  intros Hh [(e & H & ->)|([] & c2 & H & H')]%io_bind_inv.
  - left. eauto.
  - right. exists c2. split; [|done]. by apply Hh in H as (_ & ? & _).
Qed.

(** A turn fails, or leaves the loop on the choice [0], or goes on to the
    next turn with fewer lines left. *)
Lemma turn_cases env next c o c' :
  turn env next c = (o, c') →
  (∃ e, o = Failed e ∧ e ≠ IndexError ∧ stdin c' `suffix_of` stdin c) ∨
  (o = Returned true ∧
   ∃ used l, stdin c = used ++ l :: stdin c' ∧ str_strip env l = "0") ∨
  (∃ c2, (length (stdin c2) < length (stdin c))%nat ∧
         stdin c2 `suffix_of` stdin c ∧ next c2 = (o, c')).
Proof.
  unfold turn. intros [(e & H & ->)|([] & c0 & H0 & H)]%io_bind_inv; [done|].
  injection H0 as <-.
  apply io_bind_inv in H as [(e & H & ->)|(choice & c1 & H1 & H)].
  { left. exists e. apply tame_safe_input_str in H as (He & ? & _).
    split_and!; [done|congruence|done]. }
  apply safe_input_str_loop_Returned in H1
    as (_ & blank & l & Hin & _ & -> & _). simpl in Hin.
  assert (stdin c1 `suffix_of` stdin c) as Hsuf.
  { rewrite Hin. by apply suffix_app_r, suffix_cons_r. }
  assert (length (stdin c1) < length (stdin c))%nat as Hlen.
  { rewrite Hin, length_app. simpl. lia. }
  assert (∀ h : io (), tame any_output h → (h;; next) c1 = (o, c') →
    (∃ e, o = Failed e ∧ e ≠ IndexError ∧ stdin c' `suffix_of` stdin c) ∨
    (∃ c2, (length (stdin c2) < length (stdin c))%nat ∧
           stdin c2 `suffix_of` stdin c ∧ next c2 = (o, c'))) as Hthen.
  { intros h Hh Hr.
    apply then_next_cases in Hr as [(e & -> & He)|(c2 & ? & ?)]; [| |done].
    - left. exists e. apply Hh in He as (? & ? & _).
      split_and!; [done|congruence|by etrans].
    - right. exists c2. split_and!; [|by etrans|done].
      match goal with H : _ `suffix_of` _ |- _ =>
        apply suffix_length_le in H; lia
      end. }
  repeat match type of H with
         | context [decide (?P)] => destruct (decide P)
         end.
  - apply Hthen in H; [tauto|apply tame_show_sessions].
  - apply Hthen in H; [tauto|apply tame_show_drivers].
  - apply Hthen in H; [tauto|apply tame_analyze_laps].
  - apply Hthen in H; [tauto|apply tame_show_track].
  - apply Hthen in H; [tauto|apply tame_show_results].
  - injection H as <- <-. right; left. split; [done|]. eauto.
  - apply Hthen in H; [tauto|by apply tame_put].
Qed.

Lemma io_bind_ext {A B} (m : io A) (f g : A → io B) c :
  (∀ a c1, m c = (Returned a, c1) → f a c1 = g a c1) →
  (m ≫= f) c = (m ≫= g) c.
Proof.
  intros H. unfold mbind, io_bind. destruct (m c) as [[a|e] c1]; [|done].
  by apply H.
Qed.

(** Two continuations that agree on every console with fewer lines left
    give the same turn. *)
Lemma turn_ext env next1 next2 c :
  (∀ c2, (length (stdin c2) < length (stdin c))%nat → next1 c2 = next2 c2) →
  turn env next1 c = turn env next2 c.
Proof.
  intros Hnext. unfold turn.
  apply io_bind_ext. intros [] c0 [= <-].
  apply io_bind_ext. intros choice c1 H1.
  apply safe_input_str_loop_Returned in H1 as (_ & blank & l & Hin & _). simpl in Hin.
  assert (length (stdin c1) < length (stdin c))%nat as Hlen.
  { rewrite Hin, length_app. simpl. lia. }
  assert (∀ h : io (), tame any_output h → (h;; next1) c1 = (h;; next2) c1)
    as Hthen.
  { intros h Hh. apply io_bind_ext. intros [] c2 H2. apply Hnext.
    apply Hh in H2 as (_ & ?%suffix_length_le & _). lia. }
  repeat match goal with
         | |- context [decide (?P)] => destruct (decide P)
         end; try done.
  - apply Hthen, tame_show_sessions.
  - apply Hthen, tame_show_drivers.
  - apply Hthen, tame_analyze_laps.
  - apply Hthen, tame_show_track.
  - apply Hthen, tame_show_results.
  - by apply Hthen, tame_put.
Qed.

(** The menu loop ends on every finite input: with more turns than
    there are lines left to read, [run] never uses up its turns, and any
    two such numbers of turns give the same result. *)
Theorem run_ends env fuel c :
  (length (stdin c) < fuel)%nat →
  (∀ c', MenuApp.run env fuel c ≠ (Returned false, c')) ∧
  (∀ fuel', (length (stdin c) < fuel')%nat →
     MenuApp.run env fuel' c = MenuApp.run env fuel c).
Proof.
  revert c. induction fuel as [|fuel IH]; intros c Hlen; [lia|].
  split.
  - intros c'. rewrite run_S.
    intros [(e & ? & _)|[[? _]|(c2 & ? & _ & Hnext)]]%turn_cases; [done..|].
    eapply (IH c2); [lia|done].
  - intros [|fuel'] Hlen'; [lia|]. rewrite !run_S.
    apply turn_ext. intros c2 ?. apply IH; lia.
Qed.

(** [run] returns only on the choice [0]: the last line it read is
    the one that strips to [0], and the lines after it are left unread.
    Whatever else ends the loop is an exception, and never [IndexError]
    (every [iloc[0]] is guarded by [df.empty]). *)
Theorem run_leaves_on_0 env fuel c o c' :
  MenuApp.run env fuel c = (o, c') →
  (length (stdin c) < fuel)%nat →
  (o = Returned true ∧
   ∃ used l, stdin c = used ++ l :: stdin c' ∧ str_strip env l = "0") ∨
  (∃ e, o = Failed e ∧ e ≠ IndexError).
Proof.
  revert c. induction fuel as [|fuel IH]; intros c H Hlen; [lia|].
  rewrite run_S in H.
  apply turn_cases in H as [(e & ? & ? & _)|[?|(c2 & ? & [pre Hpre] & Hnext)]].
  - right. eauto.
  - by left.
  - apply IH in Hnext as [(-> & used & l & Hin & ?)|?]; [|by right|lia].
    left. split; [done|]. exists (pre ++ used), l.
    by rewrite Hpre, Hin, <-(assoc_L (++)).
Qed.

(** ** The roster of [list_by_session] *)

Lemma keyed_keys_of_roster_records (rs : list row) k :
  k ∈ (keyed "driver_number" (drop_duplicates_rows (roster_record <$> rs))).*1
  ↔ k ∈ (keyed "driver_number" rs).*1.
Proof.
  rewrite !keyed_keys_elem_of. split.
  - intros (r & (q & -> & Hq)%drop_duplicates_rows_elem_of%list_elem_of_fmap & Hk).
    unfold roster_record in Hk.
    rewrite lookup_row_of, decide_True in Hk by by_decide. eauto.
  - intros (q & Hq & Hk). exists (roster_record q). split.
    + apply drop_duplicates_rows_elem_of, list_elem_of_fmap. eauto.
    + unfold roster_record. by rewrite lookup_row_of, decide_True by by_decide.
Qed.

Lemma list_by_session_Ok S df out :
  empty df = false → F1.list_by_session S df = Ok out →
  roster_columns ⊆ columns df ∧
  comparable (keyed "driver_number" (rows df)).*1 = true ∧
  columns out = roster_columns ∧
  rows out ≡ₚ drop_duplicates_rows (roster_record <$> rows df) ∧
  StronglySorted
    (λ a b : row, okey_le (a !! "driver_number") (b !! "driver_number"))
    (rows out).
Proof.
  unfold F1.list_by_session. intros -> Hl.
  apply bind_Ok in Hl as (sel & [Hsub ->]%select_Ok & Hs).
  pose proof (sort_values_perm _ _ _ _ Hs) as Hperm.
  pose proof (sort_values_StronglySorted _ _ _ _ Hs) as Hsorted.
  apply sort_values_Ok in Hs as (_ & Hcmp & Hcols & _). simpl in *.
  split_and!; [done| |done..].
  eapply comparable_subseteq; [exact Hcmp|].
  intros k Hk. by apply keyed_keys_of_roster_records.
Qed.

(** What [list_by_session] makes of a fetched frame that is not empty: the
    three roster columns; the records of the frame cut down to them, each
    kept once; in ascending order of [driver_number], the records without
    a number last. *)
Theorem list_by_session_roster S df out :
  empty df = false → F1.list_by_session S df = Ok out →
  columns out = ["driver_number"; "full_name"; "team_name"] ∧
  NoDup (rows out) ∧
  (∀ r, r ∈ rows out ↔ ∃ q, q ∈ rows df ∧ r = roster_record q) ∧
  StronglySorted
    (λ a b : row, okey_le (a !! "driver_number") (b !! "driver_number"))
    (rows out).
Proof.
  intros He (_ & _ & Hcols & Hperm & Hsorted)%list_by_session_Ok; [|done].
  split_and!; [done| | |done].
  - rewrite Hperm. apply drop_duplicates_rows_NoDup.
  - intros r. rewrite Hperm, drop_duplicates_rows_elem_of, list_elem_of_fmap.
    split; intros (q & ? & ?); eauto.
Qed.


(** ** The services *)

Lemma fetch_eq env endpoint params c :
  OpenF1Client.fetch env endpoint params c =
  match request env endpoint params with
  | inl df => (Returned df, c)
  | inr e =>
      (Returned no_data,
       mkConsole (stdin c)
         (stdout c
          ++ [Logged "ERROR" ("API error on " +:+ endpoint +:+ ": " +:+ e)]))
  end.
Proof. unfold OpenF1Client.fetch. by destruct (request _ _ _). Qed.

Lemma fetch_Returned env endpoint params c df c' :
  OpenF1Client.fetch env endpoint params c = (Returned df, c') →
  (request env endpoint params = inl df ∧ c' = c) ∨
  (∃ e, request env endpoint params = inr e ∧ df = no_data).
Proof.
  rewrite fetch_eq. destruct (request _ _ _) as [df'|e]; intros [= <- <-]; eauto.
Qed.

Lemma fetch_total env endpoint params c :
  ∃ df c', OpenF1Client.fetch env endpoint params c = (Returned df, c').
Proof. rewrite fetch_eq. destruct (request _ _ _); eauto. Qed.

(** The number [get_any_driver_number] returns, when it is a number, is the
    one of the first record fetched, and the roster [list_by_session]
    returns for the same session has a record with it. *)
Theorem any_driver_number_is_in_roster env sk c d c1 roster c2 :
  DriversService.get_any_driver_number env sk c
  = (Returned (Some (Some d)), c1) →
  DriversService.list_by_session env sk c = (Returned roster, c2) →
  (∃ df q, request env "drivers" [("session_key", sk)] = inl df ∧
           head (rows df) = Some q ∧ q !! "driver_number" = Some d) ∧
  ∃ r, r ∈ rows roster ∧ r !! "driver_number" = Some d.
Proof.
  unfold DriversService.get_any_driver_number, DriversService.list_by_session.
  intros Hany Hlist.
  apply io_bind_inv in Hany as [(? & _ & [=])|(df & c0 & Hf & Hany)].
  apply io_bind_inv in Hlist as [(? & _ & [=])|(df' & c0' & Hf' & Hlist)].
  rewrite Hf in Hf'. injection Hf' as <- <-.
  destruct (empty df) eqn:He; [done|].
  apply fetch_Returned in Hf as [[Hreq ->]|(e & _ & ->)]; [|done].
  apply io_bind_inv in Hany as [(? & _ & [=])|(first & c3 & Hfirst & Hany)].
  unfold iloc in Hfirst. destruct (rows df) as [|q qs] eqn:Hrows; [done|].
  injection Hfirst as <- <-.
  apply io_bind_inv in Hany as [(? & _ & [=])|(number & c3 & Hnum & Hany)].
  unfold item in Hnum. simpl in Hnum. destruct (decide _); [|done].
  injection Hnum as <- _.
  destruct (q !! "driver_number") as [d'|] eqn:Hd;
    [|by destruct (null_is_None _ _ _ _)].
  injection Hany as -> _.
  destruct (F1.list_by_session (sorter env) df) as [out|] eqn:Hl; [|done].
  injection Hlist as -> _.
  apply list_by_session_Ok in Hl as (_ & _ & _ & Hperm & _); [|done].
  split.
  - exists df, q. by rewrite Hrows.
  - exists (roster_record q). split.
    + rewrite Hperm, drop_duplicates_rows_elem_of, Hrows. by left.
    + unfold roster_record. by rewrite lookup_row_of, decide_True by by_decide.
Qed.

(** ** The track map *)

Lemma boolean_index_rows (f : row → bool) (rs : list row) :
  (filter (λ rb : row * bool, rb.2 = true) (zip rs (f <$> rs))).*1
  = filter (λ r, f r = true) rs.
Proof.
  induction rs as [|r rs IH]; [done|]. csimpl.
  rewrite !filter_cons. simpl. destruct (decide (f r = true)); csimpl; by rewrite IH.
Qed.

Lemma zip_with_fmap_same {A B C D} (g : B → C → D) (f1 : A → B) (f2 : A → C)
    (l : list A) :
  zip_with g (f1 <$> l) (f2 <$> l) = (λ x, g (f1 x) (f2 x)) <$> l.
Proof. induction l; csimpl; by f_equal. Qed.

Lemma track_filter_eq df :
  MenuApp.track_filter df =
  if decide ("x" ∈ columns df) then
    if decide ("y" ∈ columns df)
    then Ok (mkDF (columns df) (filter on_track (rows df)))
    else Raise (KeyError "y")
  else Raise (KeyError "x").
Proof.
  unfold MenuApp.track_filter, column.
  destruct (decide ("x" ∈ _)) as [Hx|]; [|done].
  destruct (decide ("y" ∈ _)) as [Hy|]; [|done].
  rewrite !bind_Ok_eq. unfold dropna, boolean_index. simpl.
  rewrite filter_none.
  2:{ intros c Hc Hn. apply Hn.
      repeat (apply elem_of_cons in Hc as [->|Hc]); try done.
      by apply not_elem_of_nil in Hc. }
  do 2 f_equal.
  rewrite <-!list_fmap_compose, zip_with_fmap_same.
  rewrite boolean_index_rows, list_filter_filter.
  apply list_filter_iff. intros r.
  unfold on_track, ne0, compose. rewrite orb_true_iff, !bool_decide_eq_true.
  rewrite !Forall_cons, Forall_nil.
  destruct (decide (r !! "x" = Some (Num 0))), (decide (r !! "y" = Some (Num 0)));
    tauto.
Qed.

(** When a driver is found and the [location] fetch gives a frame with the
    columns [x] and [y], [show_track] plots, in the order fetched, exactly
    the samples with both coordinates that are not at [(0, 0)], and puts
    out nothing else. *)
Theorem show_track_plots env c sk c1 dn c2 df :
  safe_input_str env "Session key: " c = (Returned sk, c1) →
  DriversService.get_any_driver_number env (Some (Str sk)) c1
  = (Returned (Some dn), c2) →
  request env "location" [("session_key", Some (Str sk)); ("driver_number", dn)]
  = inl df →
  "x" ∈ columns df → "y" ∈ columns df →
  MenuApp.show_track env c =
  (Returned (),
   mkConsole (stdin c2)
     (stdout c2 ++
      [ScatterPlot "Track Map"
         ((λ r : row, r !! "x") <$> filter on_track (rows df))
         ((λ r : row, r !! "y") <$> filter on_track (rows df))])).
Proof.
  intros Hsk Hdn Hreq Hx Hy. unfold MenuApp.show_track.
  rewrite (io_bind_Returned _ _ _ _ _ Hsk), (io_bind_Returned _ _ _ _ _ Hdn).
  unfold TelemetryService.location.
  erewrite io_bind_Returned by (rewrite fetch_eq, Hreq; done).
  rewrite track_filter_eq, !decide_True by done. simpl.
  unfold mbind, io_bind, lift, column. simpl.
  by rewrite !decide_True by done.
Qed.

(** When a driver is found and the [location] fetch fails, [show_track]
    raises [KeyError] on the column [x] of the frame without columns: the
    log line of the fetch is all it puts out. *)
Theorem show_track_without_telemetry env c sk c1 dn c2 msg :
  safe_input_str env "Session key: " c = (Returned sk, c1) →
  DriversService.get_any_driver_number env (Some (Str sk)) c1
  = (Returned (Some dn), c2) →
  request env "location" [("session_key", Some (Str sk)); ("driver_number", dn)]
  = inr msg →
  MenuApp.show_track env c =
  (Failed (Raised (KeyError "x")),
   mkConsole (stdin c2)
     (stdout c2 ++ [Logged "ERROR" ("API error on location: " +:+ msg)])).
Proof.
  intros Hsk Hdn Hreq. unfold MenuApp.show_track.
  rewrite (io_bind_Returned _ _ _ _ _ Hsk), (io_bind_Returned _ _ _ _ _ Hdn).
  unfold TelemetryService.location.
  erewrite io_bind_Returned by (rewrite fetch_eq, Hreq; done).
  by rewrite track_filter_eq.
Qed.

(** ** Sessions and drivers *)

Lemma empty_false_iff df : empty df = false ↔ columns df ≠ [] ∧ rows df ≠ [].
Proof. unfold empty. rewrite bool_decide_eq_false. tauto. Qed.

(** [show_sessions] prints "Nessuna sessione trovata" only for an empty
    answer.  An answer with sessions is printed as a table of the four
    session columns with one row for each session fetched, in the order
    fetched; or, when one of the four columns is not there, [KeyError] is
    raised for the first that is not. *)
Theorem show_sessions_output env c year c1 df :
  safe_input_int env "Anno (es. 2025): " c = (Returned year, c1) →
  request env "sessions" [("year", Some (Num year))] = inl df →
  MenuApp.show_sessions env c =
  if empty df then
    (Returned (),
     mkConsole (stdin c1)
       (stdout c1
        ++ [Printed "Nessuna sessione trovata per l'anno selezionato"]))
  else
    match filter (λ c, c ∉ columns df) session_columns with
    | [] =>
        (Returned (),
         mkConsole (stdin c1)
           (stdout c1 ++
            [Table (mkDF session_columns
                      ((λ r : row, row_of session_columns (λ c, r !! c))
                         <$> rows df))]))
    | label :: _ => (Failed (Raised (KeyError label)), c1)
    end.
Proof.
  intros Hyear Hreq. unfold MenuApp.show_sessions.
  rewrite (io_bind_Returned _ _ _ _ _ Hyear).
  unfold SessionsService.list_by_year, mbind, io_bind.
  rewrite fetch_eq, Hreq. destruct (empty df) eqn:He; simpl.
  - by rewrite He.
  - apply empty_false_iff in He as [_ Hrows].
    unfold select, session_columns.
    destruct (filter _ _) as [|label ?]; [|done]. simpl.
    rewrite (proj2 (empty_false_iff _)); [done|]. simpl.
    split; [done|]. by destruct (rows df).
Qed.

(** A roster that was fetched with records is never answered with "Nessun
    pilota trovato": when [list_by_session] returns, [show_drivers] prints
    the roster as a table, and the table has rows. *)
Theorem show_drivers_output env c sk c1 df roster :
  safe_input_str env "Session key: " c = (Returned sk, c1) →
  request env "drivers" [("session_key", Some (Str sk))] = inl df →
  empty df = false →
  F1.list_by_session (sorter env) df = Ok roster →
  rows roster ≠ [] ∧
  MenuApp.show_drivers env c =
  (Returned (), mkConsole (stdin c1) (stdout c1 ++ [Table roster])).
Proof.
  intros Hsk Hreq He Hl.
  pose proof Hl as (_ & _ & Hcols & Hperm & _)%list_by_session_Ok; [|done].
  assert (rows roster ≠ []) as Hrows.
  { intros Hnil. rewrite Hnil in Hperm.
    apply Permutation_nil in Hperm.
    apply empty_false_iff in He as [_ Hne].
    destruct (rows df); [done|]. simpl in Hperm. done. }
  split; [done|]. unfold MenuApp.show_drivers.
  rewrite (io_bind_Returned _ _ _ _ _ Hsk).
  unfold DriversService.list_by_session.
  erewrite (io_bind_Returned (_ ≫= _)).
  2:{ erewrite io_bind_Returned by (rewrite fetch_eq, Hreq; done).
      by rewrite Hl. }
  rewrite (proj2 (empty_false_iff _)); [done|].
  by rewrite Hcols.
Qed.

(** ** The results *)

Lemma finishing_order_without_roster S pos :
  empty pos = false → ∃ e, F1.finishing_order S pos no_data = Raise e.
Proof.
  intros Hne. unfold F1.finishing_order.
  assert (F1.list_by_session S no_data = Ok no_data) as -> by done.
  rewrite bind_Ok_eq, Hne.
  destruct (F1.position_reducer S pos) as [red|e]; [|by exists e].
  rewrite bind_Ok_eq. unfold F1.classification_assembler.
  destruct (sort_values S "position" red) as [sorted|e]; [|by exists e].
  rewrite bind_Ok_eq, merge_left_no_data. by eexists.
Qed.

(** Option 6 of the menu with positions but no roster: when the [position]
    fetch gives events and the [drivers] fetch fails, [show_results] ends
    in an exception.  It prints neither a table nor "Nessun risultato
    disponibile": the log line of the failed fetch is all it puts out. *)
Theorem show_results_without_roster env c sk c1 pos msg :
  safe_input_str env "Session key: " c = (Returned sk, c1) →
  request env "position" [("session_key", Some (Str sk))] = inl pos →
  empty pos = false →
  request env "drivers" [("session_key", Some (Str sk))] = inr msg →
  ∃ e, MenuApp.show_results env c =
       (Failed (Raised e),
        mkConsole (stdin c1)
          (stdout c1 ++ [Logged "ERROR" ("API error on drivers: " +:+ msg)])).
Proof.
  intros Hsk Hpos Hne Hdrv.
  destruct (finishing_order_without_roster (sorter env) pos Hne) as [e He].
  exists e. unfold MenuApp.show_results.
  rewrite (io_bind_Returned _ _ _ _ _ Hsk).
  unfold ResultsService.finishing_order.
  erewrite (io_bind_Failed (_ ≫= _)); [done|].
  erewrite io_bind_Returned by (rewrite fetch_eq, Hpos; done).
  erewrite io_bind_Returned by (rewrite fetch_eq, Hdrv; done).
  by rewrite He.
Qed.

Lemma finishing_order_no_position S pos drivers out :
  survivors pos = [] → F1.finishing_order S pos drivers = Ok out →
  empty out = true.
Proof.
  intros Hnone Hf. destruct (empty pos) eqn:He.
  - unfold F1.finishing_order in Hf.
    destruct (F1.list_by_session S drivers) as [drv|]; [|done].
    rewrite bind_Ok_eq, He in Hf. by injection Hf as <-.
  - apply finishing_order_Ok in Hf as (drv & red & Hdrv & Hred & Ha); [|done].
    apply classification_assembler_Ok in Ha
      as (sorted & merged & Hs & Hm & _ & ->).
    pose proof (sort_values_perm _ _ _ _ Hs) as Hperm.
    pose proof (position_reducer_length _ _ _ Hred) as Hlen.
    rewrite Hnone in Hlen. simpl in Hlen.
    apply nil_length_inv in Hlen. rewrite Hlen in Hperm.
    apply Permutation_nil_r in Hperm.
    apply merge_left_Ok in Hm as (_ & _ & _ & ->). by rewrite Hperm.
Qed.

(** Option 6 of the menu without data: when no event of the position feed
    has a position (the fetch failed, the feed is empty, or every position
    is null) and [finishing_order] returns, [show_results] prints "Nessun
    risultato disponibile" and no table. *)
Theorem show_results_no_data env c sk c1 pos c2 drivers c3 out :
  safe_input_str env "Session key: " c = (Returned sk, c1) →
  OpenF1Client.fetch env "position" [("session_key", Some (Str sk))] c1
  = (Returned pos, c2) →
  OpenF1Client.fetch env "drivers" [("session_key", Some (Str sk))] c2
  = (Returned drivers, c3) →
  survivors pos = [] →
  F1.finishing_order (sorter env) pos drivers = Ok out →
  MenuApp.show_results env c =
  (Returned (),
   mkConsole (stdin c3)
     (stdout c3 ++ [Printed "Nessun risultato disponibile"])).
Proof.
  intros Hsk Hpos Hdrv Hnone Hf.
  pose proof (finishing_order_no_position _ _ _ _ Hnone Hf) as He.
  unfold MenuApp.show_results.
  rewrite (io_bind_Returned _ _ _ _ _ Hsk).
  unfold ResultsService.finishing_order.
  erewrite (io_bind_Returned (_ ≫= _)).
  2:{ rewrite (io_bind_Returned _ _ _ _ _ Hpos).
      rewrite (io_bind_Returned _ _ _ _ _ Hdrv). by rewrite Hf. }
  by rewrite He.
Qed.

(** ** The lap analysis *)

Lemma text_bind_inv {A B} (m : io A) (f : A → io B) c o c' :
  tame is_text m → (m ≫= f) c = (o, c') →
  (∃ e new, o = Failed e ∧ m c = (Failed e, c') ∧
            stdout c' = stdout c ++ new ∧ Forall is_text new) ∨
  (∃ a c1 new, m c = (Returned a, c1) ∧
               stdout c1 = stdout c ++ new ∧ Forall is_text new ∧
               f a c1 = (o, c')).
Proof.
  intros Hm [(e & H & ->)|(a & c1 & H & H')]%io_bind_inv.
  - left. pose proof H as (_ & _ & new & ? & ?)%Hm. eauto 10.
  - right. pose proof H as (_ & _ & new & ? & ?)%Hm. eauto 10.
Qed.

Lemma get_session_Some env sk c s c' :
  SessionsService.get_session env sk c = (Returned (Some s), c') →
  ∃ df r, request env "sessions" [("session_key", sk)] = inl df ∧
          head (rows df) = Some r ∧ s = mkSeries (columns df) r ∧ c' = c.
Proof.
  unfold SessionsService.get_session.
  intros [(? & _ & [=])|(df & c0 & Hf & H)]%io_bind_inv.
  destruct (empty df) eqn:He; [done|].
  apply fetch_Returned in Hf as [[Hreq ->]|(e & _ & ->)]; [|done].
  unfold iloc, mbind, io_bind in H.
  destruct (rows df) as [|r rs] eqn:Hrows; [done|]. simpl in H.
  injection H as <- <-. exists df, r. by rewrite Hrows.
Qed.

Lemma export_path dn sk :
  os_path_join EXPORT_DIR ("laps_" +:+ pretty dn +:+ "_" +:+ sk +:+ ".csv")
  = laps_csv dn sk.
Proof. done. Qed.

Lemma tame_no_race_test session : tame is_text (no_race_test session).
Proof. unfold no_race_test. repeat tame_step. Qed.

Lemma no_race_test_false session c c' :
  no_race_test session c = (Returned false, c') →
  c' = c ∧ ∃ s name, session = Some s ∧
    "session_name" ∈ labels s ∧
    cells s !! "session_name" = Some (Str name) ∧ is_infix "Race" name = true.
Proof.
  unfold no_race_test. destruct session as [s|]; [|done].
  unfold item, contains, mbind, io_bind, lift.
  destruct (decide _); [|done]. simpl.
  destruct (cells s !! "session_name") as [[z|name]|] eqn:Hn; simpl; try done.
  intros [= Hb <-]. split; [done|]. exists s, name.
  split_and!; [done..|]. by destruct (is_infix _ _).
Qed.

(** The ways [analyze_laps] can go.  Either all it puts out is text, or it
    found a race session and lap data: then it puts out the statistics,
    and, unless the column [lap_number] is missing, the plot; and after the
    plot a CSV file only on the answer [s]. *)
Lemma analyze_laps_cases env c o c' :
  MenuApp.analyze_laps env c = (o, c') →
  ∃ new, stdout c' = stdout c ++ new ∧
    (Forall is_text new ∨
     ∃ sk c1 dn c2 df t1 rest,
       safe_input_str env "Session key: " c = (Returned sk, c1) ∧
       race_session env sk ∧
       safe_input_int env "Numero pilota: " c1 = (Returned dn, c2) ∧
       lap_data env sk dn df ∧
       new = t1 ++ (Described ((λ r : row, r !! "lap_duration") <$> rows df)
                     :: rest) ∧
       Forall is_text t1 ∧
       ((rest = [] ∧ ("lap_number" ∉ columns df) ∧
         o = Failed (Raised (KeyError "lap_number"))) ∨
        ("lap_number" ∈ columns df ∧
         ∃ t2 exported,
           rest = LinePlot ("Lap Times – Driver " +:+ pretty dn)
                    ((λ r : row, r !! "lap_number") <$> rows df)
                    ((λ r : row, r !! "lap_duration") <$> rows df)
                  :: t2 ++ exported ∧
           Forall is_text t2 ∧
           (exported = [] ∨
            ∃ answer, str_lower env answer = "s" ∧ o = Returned () ∧
              exported
              = [CsvFile (laps_csv dn sk) df;
                 Logged "INFO" ("File esportato: " +:+ laps_csv dn sk)])))).
Proof.
  unfold MenuApp.analyze_laps. fold (no_race_test).
  intros H.
  apply text_bind_inv in H as [(e & n & -> & _ & E & ?)|(sk & c1 & n1 & Hsk & E1 & T1 & H)];
    [eauto|..|apply tame_safe_input_str].
  apply text_bind_inv in H as [(e & n & -> & _ & E & ?)|(session & c2 & n2 & Hs & E2 & T2 & H)];
    [|..|apply tame_get_session].
  { exists (n1 ++ n). split; [by rewrite E, E1, <-(assoc_L (++))|].
    left. by apply Forall_app. }
  change (match session with None => mret true | Some s => _ end)
    with (no_race_test session) in H.
  apply text_bind_inv in H as [(e & n & -> & _ & E & ?)|(no_race & c3 & n3 & Ht & E3 & T3 & H)];
    [|..|apply tame_no_race_test].
  { exists (n1 ++ n2 ++ n). split; [by rewrite E, E2, E1, <-!(assoc_L (++))|].
    left. by rewrite !Forall_app. }
  destruct no_race.
  { injection H as <- <-. exists (n1 ++ n2 ++ n3 ++ [Printed "❌ Solo sessioni di gara"]).
    split; [simpl; by rewrite E3, E2, E1, <-!(assoc_L (++))|].
    left. rewrite !Forall_app. split_and!; [done..|]. by repeat constructor. }
  apply no_race_test_false in Ht as (Hc3 & s & name & -> & Hin & Hname & Hrace).
  apply get_session_Some in Hs as (sdf & r & Hreq & Hhead & -> & Hc2).
  assert (race_session env sk) as Hsession by (by exists sdf, r, name).
  apply text_bind_inv in H as [(e & n & -> & _ & E & ?)|(dn & c4 & n4 & Hdn & E4 & T4 & H)];
    [|..|apply tame_safe_input_int].
  { exists (n1 ++ n2 ++ n3 ++ n). split; [by rewrite E, E3, E2, E1, <-!(assoc_L (++))|].
    left. by rewrite !Forall_app. }
  rewrite Hc3, Hc2 in Hdn.
  unfold LapsService.laps_for_driver in H.
  apply text_bind_inv in H as [(e & n & -> & _ & E & ?)|(df & c5 & n5 & Hf & E5 & T5 & H)];
    [|..|apply tame_fetch].
  { exists (n1 ++ n2 ++ n3 ++ n4 ++ n).
    split; [by rewrite E, E4, E3, E2, E1, <-!(assoc_L (++))|].
    left. by rewrite !Forall_app. }
  destruct (empty df || bool_decide ("lap_duration" ∉ columns df)) eqn:Hguard.
  { injection H as <- <-.
    exists (n1 ++ n2 ++ n3 ++ n4 ++ n5 ++ [Printed "Nessun dato disponibile"]).
    split; [simpl; by rewrite E5, E4, E3, E2, E1, <-!(assoc_L (++))|].
    left. rewrite !Forall_app. split_and!; [done..|]. by repeat constructor. }
  apply orb_false_iff in Hguard as [He Hcol].
  apply bool_decide_eq_false in Hcol. apply dec_stable in Hcol.
  assert (lap_data env sk dn df) as Hlaps.
  { apply fetch_Returned in Hf as [[? _]|(? & _ & ->)]; [done|done]. }
  set (t1 := n1 ++ n2 ++ n3 ++ n4 ++ n5 ++ [Printed "
Statistiche tempi sul giro:"]).
  assert (Forall is_text t1) as Ht1.
  { unfold t1. rewrite !Forall_app. split_and!; [done..|]. by repeat constructor. }
  unfold print, column in H. rewrite decide_True in H by done.
  unfold mbind at 1 2 3 4, io_bind at 1 2 3 4, put, lift at 1 in H. simpl in H.
  assert (stdout c5 ++ [Printed "
Statistiche tempi sul giro:"] = stdout c ++ t1) as Eout.
  { unfold t1. by rewrite E5, E4, E3, E2, E1, <-!(assoc_L (++)). }
  rewrite Eout in H. clear Eout.
  destruct (decide ("lap_number" ∈ columns df)) as [Hlap|Hlap].
  2:{ injection H as <- <-. eexists. split; [simpl; by rewrite <-(assoc_L (++))|].
      right. exists sk, c1, dn, c4, df, t1, []. split_and!; [done..|]. by left. }
  unfold mbind at 1 2, io_bind at 1 2, lift in H. simpl in H.
  apply text_bind_inv in H as [(e & n & -> & _ & E & ?)|(answer & c6 & n6 & _ & E6 & T6 & H)];
    [|..|apply tame_safe_input_str]; simpl in *.
  { eexists. split; [by rewrite E, <-!(assoc_L (++))|].
    right. eexists sk, c1, dn, c4, df, t1, _. split_and!; [done..|].
    right. split; [done|]. exists n, []. rewrite app_nil_r. split_and!; [done..|].
    by left. }
  destruct (decide _) as [Hans|Hans].
  - unfold export_csv in H. rewrite export_path in H. injection H as <- <-. simpl.
    eexists. split; [by rewrite E6, <-!(assoc_L (++))|].
    right. eexists sk, c1, dn, c4, df, t1, _. split_and!; [done..|].
    right. split; [done|]. eexists n6, _. split_and!; [done..|].
    right. by exists answer.
  - injection H as <- <-.
    eexists. split; [by rewrite E6, <-!(assoc_L (++))|].
    right. eexists sk, c1, dn, c4, df, t1, _. split_and!; [done..|].
    right. split; [done|]. exists n6, []. rewrite app_nil_r. split_and!; [done..|].
    by left.
Qed.

(** [analyze_laps] puts out something other than text (the statistics, the
    plot, a CSV file) only when the session key typed at the first prompt
    is that of a session whose name has "Race" in it, and only when the
    [laps] fetch for that key and the driver number typed at the second
    prompt gave rows with a column [lap_duration]. *)
Theorem analyze_laps_needs_a_race env c o c' new ev :
  MenuApp.analyze_laps env c = (o, c') →
  stdout c' = stdout c ++ new → ev ∈ new → ¬ is_text ev →
  ∃ sk c1 dn c2 df,
    safe_input_str env "Session key: " c = (Returned sk, c1) ∧
    race_session env sk ∧
    safe_input_int env "Numero pilota: " c1 = (Returned dn, c2) ∧
    lap_data env sk dn df.
Proof.
  intros (new' & E & Hcases)%analyze_laps_cases E' Hev Hnt.
  rewrite E in E'. apply app_inv_head in E' as ->.
  destruct Hcases
    as [Hall|(sk & c1 & dn & c2 & df & _ & _ & ? & ? & ? & ? & _)];
    [|by exists sk, c1, dn, c2, df].
  rewrite Forall_forall in Hall. by apply Hall in Hev.
Qed.

(** A CSV file [analyze_laps] writes is [exports/laps_<dn>_<sk>.csv] for
    the session key [sk] typed at the first prompt and the driver number
    [dn] typed at the second; it holds the frame of the [laps] fetch for
    the two as it came, which has rows and the columns [lap_duration] and
    [lap_number]; and [analyze_laps] returns after writing it. *)
Theorem analyze_laps_export env c o c' new path df :
  MenuApp.analyze_laps env c = (o, c') →
  stdout c' = stdout c ++ new → CsvFile path df ∈ new →
  o = Returned () ∧
  ∃ sk c1 dn c2,
    safe_input_str env "Session key: " c = (Returned sk, c1) ∧
    race_session env sk ∧
    safe_input_int env "Numero pilota: " c1 = (Returned dn, c2) ∧
    lap_data env sk dn df ∧
    "lap_number" ∈ columns df ∧ path = laps_csv dn sk.
Proof.
  intros (new' & E & Hcases)%analyze_laps_cases E' Hev.
  rewrite E in E'. apply app_inv_head in E' as ->.
  destruct Hcases
    as [Hall|(sk & c1 & dn & c2 & df' & t1 & rest & ? & ? & ? & ? & -> & Ht1 & Hrest)].
  { rewrite Forall_forall in Hall. by apply Hall in Hev. }
  rewrite Forall_forall in Ht1.
  apply elem_of_app in Hev as [Hev%Ht1|Hev]; [done|].
  apply elem_of_cons in Hev as [[=]|Hev].
  destruct Hrest as [(-> & _)|(Hlap & t2 & exported & -> & Ht2 & Hexp)].
  { by apply not_elem_of_nil in Hev. }
  rewrite Forall_forall in Ht2.
  apply elem_of_cons in Hev as [[=]|Hev].
  apply elem_of_app in Hev as [Hev%Ht2|Hev]; [done|].
  destruct Hexp as [->|(answer & _ & -> & ->)].
  { by apply not_elem_of_nil in Hev. }
  apply elem_of_cons in Hev as [[= -> ->]|Hev].
  - split; [done|]. by exists sk, c1, dn, c2.
  - apply elem_of_cons in Hev as [[=]|Hev]. by apply not_elem_of_nil in Hev.
Qed.

(** A session whose first record has no name to read (a null or a number
    under [session_name], or no such column) is not answered with "Solo
    sessioni di gara": [analyze_laps] raises, [TypeError] for the test
    ["Race" not in ...] on a value that is no string, [KeyError] for the
    column that is not there. *)
Theorem analyze_laps_session_without_name env c sk c1 df r :
  safe_input_str env "Session key: " c = (Returned sk, c1) →
  request env "sessions" [("session_key", Some (Str sk))] = inl df →
  columns df ≠ [] → head (rows df) = Some r →
  (∀ name, r !! "session_name" ≠ Some (Str name)) →
  MenuApp.analyze_laps env c =
  (Failed (Raised (if decide ("session_name" ∈ columns df) then TypeError
                   else KeyError "session_name")), c1).
Proof.
  intros Hsk Hreq Hcols Hhead Hname. unfold MenuApp.analyze_laps.
  rewrite (io_bind_Returned _ _ _ _ _ Hsk).
  destruct (rows df) as [|r' rs] eqn:Hrows; [done|]. injection Hhead as ->.
  erewrite io_bind_Returned.
  2:{ unfold SessionsService.get_session.
      erewrite io_bind_Returned by (rewrite fetch_eq, Hreq; done).
      rewrite (proj2 (empty_false_iff _)) by (by rewrite Hrows).
      unfold iloc. rewrite Hrows. done. }
  unfold item. simpl. destruct (decide _); [|done].
  unfold mbind, io_bind, lift, contains. simpl.
  destruct (r !! "session_name") as [[z|name]|] eqn:Hn; try done.
  by destruct (Hname name).
Qed.

Lemma race_session_found env sk c :
  race_session env sk →
  ∃ s, SessionsService.get_session env (Some (Str sk)) c = (Returned (Some s), c) ∧
       no_race_test (Some s) c = (Returned false, c).
Proof.
  intros (df & r & name & Hreq & Hhead & Hin & Hname & Hrace).
  exists (mkSeries (columns df) r). unfold SessionsService.get_session.
  destruct (rows df) as [|r' rs] eqn:Hrows; [done|]. injection Hhead as ->.
  split.
  - erewrite io_bind_Returned by (rewrite fetch_eq, Hreq; done).
    rewrite (proj2 (empty_false_iff _)).
    2:{ rewrite Hrows. split; [|done]. intros Hnil. rewrite Hnil in Hin.
        by apply not_elem_of_nil in Hin. }
    unfold iloc. by rewrite Hrows.
  - unfold no_race_test, item, contains, mbind, io_bind, lift. simpl.
    rewrite decide_True by done. simpl. by rewrite Hname, Hrace.
Qed.

(** The guard of [analyze_laps] asks for the column [lap_duration] only.
    For a race session whose lap data have no column [lap_number],
    [analyze_laps] prints the statistics and then raises [KeyError] for
    [lap_number]: no plot is shown and the export is not offered. *)
Theorem analyze_laps_without_lap_number env c sk c1 dn c2 df :
  safe_input_str env "Session key: " c = (Returned sk, c1) →
  race_session env sk →
  safe_input_int env "Numero pilota: " c1 = (Returned dn, c2) →
  lap_data env sk dn df →
  "lap_number" ∉ columns df →
  MenuApp.analyze_laps env c =
  (Failed (Raised (KeyError "lap_number")),
   mkConsole (stdin c2)
     (stdout c2 ++
      [Printed "
Statistiche tempi sul giro:";
       Described ((λ r : row, r !! "lap_duration") <$> rows df)])).
Proof.
  intros Hsk Hrace Hdn (Hreq & He & Hcol) Hlap.
  destruct (race_session_found env sk c1 Hrace) as (s & Hs & Ht).
  unfold MenuApp.analyze_laps.
  rewrite (io_bind_Returned _ _ _ _ _ Hsk), (io_bind_Returned _ _ _ _ _ Hs).
  change (match Some s with None => mret true | Some s' => _ end)
    with (no_race_test (Some s)).
  rewrite (io_bind_Returned _ _ _ _ _ Ht), (io_bind_Returned _ _ _ _ _ Hdn).
  unfold LapsService.laps_for_driver.
  erewrite io_bind_Returned by (rewrite fetch_eq, Hreq; done).
  rewrite He. rewrite bool_decide_eq_false_2 by (by intros []). simpl.
  unfold print, put, column, mbind, io_bind, lift. simpl.
  rewrite decide_True, decide_False by done. simpl.
  by rewrite <-(assoc_L (++)).
Qed.

(** ** The theorems at work on a sample console *)

(** The sample API behind Python's built-ins on ASCII text and the stable
    sorting routine. *)
Definition sample_env (roster_up location_up : bool) : Env :=
  mkEnv ascii_strip ascii_int ascii_lower (sample_api roster_up location_up)
    stable_sort (λ _ _ _, false).

(** A concrete input that meets the hypotheses of the theorem applied. *)
Lemma safe_input_str_returns_witness :
  "9158" ≠ "" ∧
  ∃ blank l,
    stdin (typed ["   "; " 9158 "; "0"]) = blank ++ l :: ["0"] ∧
    Forall (λ x, ascii_strip x = "") blank ∧
    "9158" = ascii_strip l ∧
    [Prompted "Session key: "; Printed "Input vuoto! Riprova.";
     Prompted "Session key: "]
    = [] ++ (blank ≫= λ _, [Prompted "Session key: ";
                             Printed "Input vuoto! Riprova."])
         ++ [Prompted "Session key: "].
Proof.
  apply (safe_input_str_returns (sample_env true true) "Session key: "
           (typed ["   "; " 9158 "; "0"]) "9158"
           (mkConsole ["0"]
              [Prompted "Session key: "; Printed "Input vuoto! Riprova.";
               Prompted "Session key: "])).
  vm_compute. reflexivity.
Defined.

(** A concrete input that meets the hypotheses of the theorem applied. *)
Lemma safe_input_int_returns_witness :
  ∃ rejected l,
    stdin (typed [""; "abc"; " 2_025 "; "0"]) = rejected ++ l :: ["0"] ∧
    Forall (λ x, ascii_strip x = "" ∨ ascii_int (ascii_strip x) = None)
      rejected ∧
    ascii_strip l ≠ "" ∧
    ascii_int (ascii_strip l) = Some 2025 ∧
    [Prompted "Anno: "; Printed "Input vuoto! Riprova.";
     Prompted "Anno: "; Printed "Inserisci un numero valido!";
     Prompted "Anno: "]
    = [] ++ (rejected ≫= λ x, [Prompted "Anno: ";
                                Printed (complaint (sample_env true true) x)])
         ++ [Prompted "Anno: "].
Proof.
  apply (safe_input_int_returns (sample_env true true) "Anno: "
           (typed [""; "abc"; " 2_025 "; "0"]) 2025
           (mkConsole ["0"]
              [Prompted "Anno: "; Printed "Input vuoto! Riprova.";
               Prompted "Anno: "; Printed "Inserisci un numero valido!";
               Prompted "Anno: "])).
  vm_compute. reflexivity.
Defined.

(** A concrete input that meets the hypotheses of the theorem applied. *)
Lemma run_ends_witness :
  (∀ c', MenuApp.run (sample_env true true) 4 (typed ["6"; "9158"; "0"])
         ≠ (Returned false, c')) ∧
  (∀ fuel', (length (stdin (typed ["6"; "9158"; "0"])) < fuel')%nat →
     MenuApp.run (sample_env true true) fuel' (typed ["6"; "9158"; "0"])
     = MenuApp.run (sample_env true true) 4 (typed ["6"; "9158"; "0"])).
Proof.
  apply (run_ends (sample_env true true) 4 (typed ["6"; "9158"; "0"])).
  simpl. lia.
Defined.

(** A concrete input that meets the hypotheses of the theorem applied. *)
Lemma run_leaves_on_0_witness :
  (Returned true = Returned true ∧
   ∃ used l, stdin (typed ["7"; " 0 "; "1"]) = used ++ l :: ["1"] ∧
             ascii_strip l = "0") ∨
  (∃ e, Returned true = Failed e ∧ e ≠ IndexError).
Proof.
  apply (run_leaves_on_0 (sample_env true true) 4 (typed ["7"; " 0 "; "1"])
           (Returned true)
           (mkConsole ["1"]
              [Printed MenuApp.menu; Prompted "Seleziona opzione: ";
               Printed "Scelta non valida";
               Printed MenuApp.menu; Prompted "Seleziona opzione: "])).
  - vm_compute. reflexivity.
  - simpl. lia.
Defined.

(** A concrete input that meets the hypotheses of the theorem applied. *)
Lemma list_by_session_roster_witness :
  columns sample_roster = ["driver_number"; "full_name"; "team_name"] ∧
  NoDup (rows sample_roster) ∧
  (∀ r, r ∈ rows sample_roster ↔
        ∃ q, q ∈ rows sample_drivers ∧ r = roster_record q) ∧
  StronglySorted
    (λ a b : row, okey_le (a !! "driver_number") (b !! "driver_number"))
    (rows sample_roster).
Proof.
  apply (list_by_session_roster stable_sort sample_drivers sample_roster).
  - reflexivity.
  - vm_compute. reflexivity.
Defined.


(** A concrete input that meets the hypotheses of the theorem applied. *)
Lemma any_driver_number_is_in_roster_witness :
  (∃ df q, sample_api true true "drivers" [("session_key", Some (Str "9158"))]
           = inl df ∧
           head (rows df) = Some q ∧ q !! "driver_number" = Some (Num 1)) ∧
  ∃ r, r ∈ rows scenario1_roster ∧ r !! "driver_number" = Some (Num 1).
Proof.
  apply (any_driver_number_is_in_roster (sample_env true true)
           (Some (Str "9158")) (typed []) (Num 1) (typed [])
           scenario1_roster (typed [])).
  - vm_compute. reflexivity.
  - vm_compute. reflexivity.
Defined.

(** A concrete input that meets the hypotheses of the theorem applied. *)
Lemma show_track_plots_witness :
  MenuApp.show_track (sample_env true true) (typed ["9158"]) =
  (Returned (),
   mkConsole []
     ([Prompted "Session key: "] ++
      [ScatterPlot "Track Map"
         ((λ r : row, r !! "x") <$> filter on_track (rows sample_location))
         ((λ r : row, r !! "y") <$> filter on_track (rows sample_location))])).
Proof.
  apply (show_track_plots (sample_env true true) (typed ["9158"]) "9158"
           (mkConsole [] [Prompted "Session key: "]) (Some (Num 1))
           (mkConsole [] [Prompted "Session key: "]) sample_location).
  - vm_compute. reflexivity.
  - vm_compute. reflexivity.
  - reflexivity.
  - by_decide.
  - by_decide.
Defined.

(** A concrete input that meets the hypotheses of the theorem applied. *)
Lemma show_track_without_telemetry_witness :
  MenuApp.show_track (sample_env true false) (typed ["9158"]) =
  (Failed (Raised (KeyError "x")),
   mkConsole []
     ([Prompted "Session key: "] ++
      [Logged "ERROR" ("API error on location: " +:+ "timed out")])).
Proof.
  apply (show_track_without_telemetry (sample_env true false) (typed ["9158"])
           "9158" (mkConsole [] [Prompted "Session key: "]) (Some (Num 1))
           (mkConsole [] [Prompted "Session key: "]) "timed out").
  - vm_compute. reflexivity.
  - vm_compute. reflexivity.
  - reflexivity.
Defined.

(** A concrete input that meets the hypotheses of the theorem applied. *)
Lemma show_sessions_output_witness :
  MenuApp.show_sessions (sample_env true true) (typed ["2023"]) =
  (Returned (),
   mkConsole []
     ([Prompted "Anno (es. 2025): "] ++
      [Table (mkDF session_columns
                ((λ r : row, row_of session_columns (λ c, r !! c))
                   <$> rows (sample_sessions (Some (Str "Race")))))])).
Proof.
  apply (show_sessions_output (sample_env true true) (typed ["2023"]) 2023
           (mkConsole [] [Prompted "Anno (es. 2025): "])
           (sample_sessions (Some (Str "Race")))).
  - vm_compute. reflexivity.
  - reflexivity.
Defined.

(** A concrete input that meets the hypotheses of the theorem applied. *)
Lemma show_drivers_output_witness :
  rows scenario1_roster ≠ [] ∧
  MenuApp.show_drivers (sample_env true true) (typed ["9158"]) =
  (Returned (),
   mkConsole [] ([Prompted "Session key: "] ++ [Table scenario1_roster])).
Proof.
  apply (show_drivers_output (sample_env true true) (typed ["9158"]) "9158"
           (mkConsole [] [Prompted "Session key: "]) scenario1_roster
           scenario1_roster).
  - vm_compute. reflexivity.
  - reflexivity.
  - reflexivity.
  - vm_compute. reflexivity.
Defined.

(** A concrete input that meets the hypotheses of the theorem applied. *)
Lemma show_results_without_roster_witness :
  ∃ e, MenuApp.show_results (sample_env false true) (typed ["9158"]) =
       (Failed (Raised e),
        mkConsole []
          ([Prompted "Session key: "] ++
           [Logged "ERROR" ("API error on drivers: " +:+ "timed out")])).
Proof.
  apply (show_results_without_roster (sample_env false true) (typed ["9158"])
           "9158" (mkConsole [] [Prompted "Session key: "])
           scenario1_positions "timed out").
  - vm_compute. reflexivity.
  - reflexivity.
  - reflexivity.
  - reflexivity.
Defined.

(** A concrete input that meets the hypotheses of the theorem applied. *)
Lemma show_results_no_data_witness :
  MenuApp.show_results (sample_env false true) (typed ["none"]) =
  (Returned (),
   mkConsole []
     ([Prompted "Session key: ";
       Logged "ERROR" "API error on position: no session";
       Logged "ERROR" "API error on drivers: timed out"] ++
      [Printed "Nessun risultato disponibile"])).
Proof.
  apply (show_results_no_data (sample_env false true) (typed ["none"]) "none"
           (mkConsole [] [Prompted "Session key: "]) no_data
           (mkConsole []
              [Prompted "Session key: ";
               Logged "ERROR" "API error on position: no session"])
           no_data
           (mkConsole []
              [Prompted "Session key: ";
               Logged "ERROR" "API error on position: no session";
               Logged "ERROR" "API error on drivers: timed out"])
           no_data).
  - vm_compute. reflexivity.
  - vm_compute. reflexivity.
  - vm_compute. reflexivity.
  - reflexivity.
  - vm_compute. reflexivity.
Defined.

(** A concrete input that meets the hypotheses of the theorem applied. *)
Lemma analyze_laps_needs_a_race_witness :
  ∃ sk c1 dn c2 df,
    safe_input_str (sample_env true true) "Session key: "
      (typed ["9158"; "1"; "S"]) = (Returned sk, c1) ∧
    race_session (sample_env true true) sk ∧
    safe_input_int (sample_env true true) "Numero pilota: " c1
    = (Returned dn, c2) ∧
    lap_data (sample_env true true) sk dn df.
Proof.
  apply (analyze_laps_needs_a_race (sample_env true true)
           (typed ["9158"; "1"; "S"]) (Returned ())
           (mkConsole [] sample_analysis) sample_analysis
           (Described [None; Some (Num 85)])).
  - vm_compute. reflexivity.
  - reflexivity.
  - apply (list_elem_of_lookup_2 _ 3%nat). reflexivity.
  - intros H. exact H.
Defined.

(** A concrete input that meets the hypotheses of the theorem applied. *)
Lemma analyze_laps_export_witness :
  Returned () = Returned () ∧
  ∃ sk c1 dn c2,
    safe_input_str (sample_env true true) "Session key: "
      (typed ["9158"; "1"; "S"]) = (Returned sk, c1) ∧
    race_session (sample_env true true) sk ∧
    safe_input_int (sample_env true true) "Numero pilota: " c1
    = (Returned dn, c2) ∧
    lap_data (sample_env true true) sk dn sample_laps ∧
    "lap_number" ∈ columns sample_laps ∧
    "exports/laps_1_9158.csv" = laps_csv dn sk.
Proof.
  apply (analyze_laps_export (sample_env true true)
           (typed ["9158"; "1"; "S"]) (Returned ())
           (mkConsole [] sample_analysis) sample_analysis).
  - vm_compute. reflexivity.
  - reflexivity.
  - apply (list_elem_of_lookup_2 _ 6%nat). reflexivity.
Defined.

(** A concrete input that meets the hypotheses of the theorem applied. *)
Lemma analyze_laps_session_without_name_witness :
  MenuApp.analyze_laps (sample_env true true) (typed ["0000"; "1"]) =
  (Failed (Raised (if decide ("session_name" ∈ columns (sample_sessions None))
                   then TypeError else KeyError "session_name")),
   mkConsole ["1"] [Prompted "Session key: "]).
Proof.
  apply (analyze_laps_session_without_name (sample_env true true)
           (typed ["0000"; "1"]) "0000"
           (mkConsole ["1"] [Prompted "Session key: "]) (sample_sessions None)
           (row_of (columns (sample_sessions None))
              (λ c, if decide (c = "session_name") then None
                    else if decide (c = "session_key") then Some (Num 9158)
                    else if decide (c = "country_name") then Some (Str "Italy")
                    else if decide (c = "date_start") then Some (Str "2023-09-03")
                    else Some (Num 2023)))).
  - vm_compute. reflexivity.
  - reflexivity.
  - discriminate.
  - reflexivity.
  - intros name. vm_compute. discriminate.
Defined.

(** Lap data without the column [lap_number], and the sample API with
    them at the endpoint [laps]. *)
Definition sample_durations : DataFrame :=
  mkDF ["driver_number"; "lap_duration"]
    [event [("driver_number", Num 1); ("lap_duration", Num 85)]].

Definition sample_env_durations : Env :=
  mkEnv ascii_strip ascii_int ascii_lower
    (λ endpoint params,
       if decide (endpoint = "laps") then inl sample_durations
       else sample_api true true endpoint params)
    stable_sort (λ _ _ _, false).

(** A concrete input that meets the hypotheses of the theorem applied. *)
Lemma analyze_laps_without_lap_number_witness :
  MenuApp.analyze_laps sample_env_durations (typed ["9158"; "1"; "s"]) =
  (Failed (Raised (KeyError "lap_number")),
   mkConsole ["s"]
     ([Prompted "Session key: "; Prompted "Numero pilota: "] ++
      [Printed "
Statistiche tempi sul giro:";
       Described ((λ r : row, r !! "lap_duration") <$> rows sample_durations)])).
Proof.
  apply (analyze_laps_without_lap_number sample_env_durations
           (typed ["9158"; "1"; "s"]) "9158"
           (mkConsole ["1"; "s"] [Prompted "Session key: "]) 1
           (mkConsole ["s"]
              [Prompted "Session key: "; Prompted "Numero pilota: "])
           sample_durations).
  - vm_compute. reflexivity.
  - exists (sample_sessions (Some (Str "Race"))),
      (row_of (columns (sample_sessions (Some (Str "Race"))))
         (λ c, if decide (c = "session_name") then Some (Str "Race")
               else if decide (c = "session_key") then Some (Num 9158)
               else if decide (c = "country_name") then Some (Str "Italy")
               else if decide (c = "date_start") then Some (Str "2023-09-03")
               else Some (Num 2023))), "Race".
    split_and!; [reflexivity|reflexivity|by_decide|reflexivity|reflexivity].
  - vm_compute. reflexivity.
  - split_and!; [reflexivity|reflexivity|by_decide].
  - by_decide.
Defined.
